(** * ConsentLens analysis engine: a shallow embedding and its properties

    The engine of [aiEngine.js] (class [ConsentLensAIEngine]) is embedded
    method by method.

    - A JavaScript string is the list of its UTF-16 code units ([N]).
    - A JavaScript number is a binary64 floating-point value, the primitive
      [float] of the prover: its arithmetic is the IEEE 754 arithmetic, with
      its rounding, its infinities, its two zeros and NaN.  What is proved
      of it for every number goes through the specification [SpecFloat] of
      the Standard Library, which the rounding of rationals defined in
      [Binary64] is shown to agree with.
    - The catalogs built by the constructor are the fields of the record
      [ConsentLensAIEngine]; every method takes the engine as [this].
    - The regular expressions of the source are values of [RegExp]; the ones
      built at run time by [new RegExp(source, 'i')] go through [RegExp_new],
      which reads the pattern syntax the keyword catalog uses.
    - Two builtins depend on tables that are no part of the repository
      (Unicode case mapping, the URL parser): they are the fields of
      [Platform].
    - The two handlers of the HTTP server that call the engine
      ([analyzeLegalText], [analyzeBatch]) are functions from the body of
      the request, and from what they read of the clock, to the response. *)

From Stdlib Require Import Ascii String.
From Stdlib Require Import Bool Arith NArith ZArith Lia.
From Stdlib Require Import QArith Qround Qpower Lqa.
From Stdlib Require Import Floats.
From Stdlib Require Import List.
Import ListNotations.

Set Implicit Arguments.
Set Warnings "-inexact-float".

(* ================================================================== *)
(** * Strings *)

Module JS.

Definition jsstring := list N.

(** A string literal of the source whose characters are all ASCII. *)
Definition lit (s : string) : jsstring :=
  map N_of_ascii (list_ascii_of_string s).

(** WhiteSpace and LineTerminator code units: the set of [\s] in a regular
    expression and the set removed by [String.prototype.trim]. *)
Definition isWhiteSpace (c : N) : bool :=
  ((9 <=? c) && (c <=? 13) || (c =? 32) || (c =? 160) || (c =? 5760)
   || (8192 <=? c) && (c <=? 8202) || (c =? 8232) || (c =? 8233)
   || (c =? 8239) || (c =? 8287) || (c =? 12288) || (c =? 65279))%N.

Fixpoint trimStart (s : jsstring) : jsstring :=
  match s with
  | c :: s' => if isWhiteSpace c then trimStart s' else s
  | [] => []
  end.

Definition trimEnd (s : jsstring) : jsstring := rev (trimStart (rev s)).

Definition trim (s : jsstring) : jsstring := trimEnd (trimStart s).

Fixpoint startsWith (p s : jsstring) : bool :=
  match p, s with
  | [], _ => true
  | a :: p', b :: s' => (a =? b)%N && startsWith p' s'
  | _ :: _, [] => false
  end.

(** [String.prototype.includes]. *)
Fixpoint includes (s p : jsstring) : bool :=
  startsWith p s || match s with [] => false | _ :: s' => includes s' p end.

(** [Array.prototype.join]. *)
Fixpoint join (sep : jsstring) (l : list jsstring) : jsstring :=
  match l with
  | [] => []
  | [a] => a
  | a :: l' => a ++ sep ++ join sep l'
  end.

(** The case mapping of the code units of Basic Latin. *)
Definition isAscii (c : N) : bool := (c <? 128)%N.

Definition lowerAscii (c : N) : N :=
  if ((65 <=? c) && (c <=? 90))%N then (c + 32)%N else c.

Definition upperAscii (c : N) : N :=
  if ((97 <=? c) && (c <=? 122))%N then (c - 32)%N else c.

End JS.
Import JS.

(* ================================================================== *)
(** * Regular expressions *)

Module Regex.

Inductive ClassAtom : Type :=
| CChar (c : N)      (* a character of a class *)
| CSpace.            (* \s *)

Inductive RegExp : Type :=
| RChar (c : N)                   (* a pattern character *)
| RClass (items : list ClassAtom) (* [...] and, as [RClass [CSpace]], \s *)
| RPlus (r : RegExp)              (* r+ (greedy) *)
| RSeq (r1 r2 : RegExp)
| RAlt (r1 r2 : RegExp)           (* r1|r2 *)
| REmpty.

(** Canonicalize of the specification, without the [u] flag: under [i] a
    code unit is compared through its upper case; a code unit outside Basic
    Latin never canonicalizes to one inside, and the pattern characters of
    this engine are all Basic Latin, so the mapping is needed on Basic Latin
    only. *)
Definition canonicalize (ignoreCase : bool) (c : N) : N :=
  if ignoreCase then upperAscii c else c.

Definition classAtomMatches (ignoreCase : bool) (x : N) (a : ClassAtom) : bool :=
  match a with
  | CChar c => (canonicalize ignoreCase c =? canonicalize ignoreCase x)%N
  | CSpace => isWhiteSpace x
  end.

Section Repeat.
Variable step : jsstring -> list jsstring.

(** One or more iterations of [step], the longer ones tried first; an
    iteration that consumes nothing ends the repetition. *)
Fixpoint repeat1 (fuel : nat) (s : jsstring) : list jsstring :=
  flat_map
    (fun s' =>
       match fuel with
       | O => [s']
       | S fuel' =>
           (if (length s' <? length s)%nat then repeat1 fuel' s' else [])
             ++ [s']
       end)
    (step s).
End Repeat.

(** The backtracking matcher: every way [r] matches a prefix of [s], as
    the list of what is left of [s], in the order backtracking tries them. *)
Fixpoint matches (ignoreCase : bool) (r : RegExp) (s : jsstring)
  : list jsstring :=
  match r with
  | RChar c =>
      match s with
      | x :: s' =>
          if (canonicalize ignoreCase c =? canonicalize ignoreCase x)%N
          then [s'] else []
      | [] => []
      end
  | RClass items =>
      match s with
      | x :: s' =>
          if existsb (classAtomMatches ignoreCase x) items then [s'] else []
      | [] => []
      end
  | RPlus r1 => repeat1 (matches ignoreCase r1) (length s) s
  | RSeq r1 r2 => flat_map (matches ignoreCase r2) (matches ignoreCase r1 s)
  | RAlt r1 r2 => matches ignoreCase r1 s ++ matches ignoreCase r2 s
  | REmpty => [s]
  end.

(** The match that starts at the head of [s], if there is one: what is
    left of [s] after it. *)
Definition matchAt (ignoreCase : bool) (r : RegExp) (s : jsstring)
  : option jsstring :=
  match matches ignoreCase r s with
  | rest :: _ => Some rest
  | [] => None
  end.

(** [RegExp.prototype.test] of a regular expression without the [g] and
    [y] flags: a match at some index, the end of the string included. *)
Fixpoint test (ignoreCase : bool) (r : RegExp) (s : jsstring) : bool :=
  match matchAt ignoreCase r s with
  | Some _ => true
  | None => match s with [] => false | _ :: s' => test ignoreCase r s' end
  end.

(** [String.prototype.replace] with a regular expression that has the [g]
    flag and a replacement string without [$]. *)
Fixpoint replace_go (r : RegExp) (rep : jsstring) (fuel : nat) (s : jsstring)
  : jsstring :=
  match fuel with
  | O => s
  | S fuel' =>
      match matchAt false r s with
      | Some rest =>
          if (length rest <? length s)%nat
          then rep ++ replace_go r rep fuel' rest
          else
            (* an empty match: the replacement, then one code unit on *)
            rep ++ match s with
                   | [] => []
                   | c :: s' => c :: replace_go r rep fuel' s'
                   end
      | None =>
          match s with
          | [] => []
          | c :: s' => c :: replace_go r rep fuel' s'
          end
      end
  end.

Definition replaceAll (r : RegExp) (rep : jsstring) (s : jsstring) : jsstring :=
  replace_go r rep (S (length s)) s.

(** [String.prototype.split] with a regular expression separator that has
    no capture group and no limit: [cur] is the piece being read. *)
Fixpoint split_go (r : RegExp) (fuel : nat) (cur s : jsstring)
  : list jsstring :=
  match fuel with
  | O => [cur ++ s]
  | S fuel' =>
      match s with
      | [] => [cur]
      | c :: s' =>
          match matchAt false r s with
          | Some rest =>
              if (length rest =? length s)%nat && (length cur =? 0)%nat
              then split_go r fuel' (cur ++ [c]) s'
              else cur :: split_go r fuel' [] rest
          | None => split_go r fuel' (cur ++ [c]) s'
          end
      end
  end.

Definition split (r : RegExp) (s : jsstring) : list jsstring :=
  match s with
  | [] => match matchAt false r [] with Some _ => [] | None => [[]] end
  | _ => split_go r (S (2 * length s)) [] s
  end.

(** ** Reading a pattern: [new RegExp(source, flags)]

    The syntax read is the one the keyword catalog needs after its hyphens
    and blanks are rewritten: pattern characters, [\s], classes of
    characters and [\s], and a closing bracket that stands alone, which
    without the [u] flag is a pattern character.  Any other syntax
    character makes the reader give up. *)

Definition isSyntaxCharacter (c : N) : bool :=
  existsb (N.eqb c) (lit "^$\.*+?()[]{}|").

Inductive ReadState : Type :=
| Top
| InClass (atoms : list ClassAtom).   (* atoms read so far, last one first *)

(** ClassRanges: [a-b] with two characters is a range (not read here);
  with [\s] on either side the hyphen is a member like the two others. *)
Fixpoint classRanges (atoms : list ClassAtom) : option (list ClassAtom) :=
match atoms with
| a :: CChar 45 :: b :: rest =>
    match a, b with
    | CChar _, CChar _ => None
    | _, _ =>
        match classRanges rest with
        | Some l => Some (a :: CChar 45 :: b :: l)
        | None => None
        end
    end
| a :: rest =>
    match classRanges rest with
    | Some l => Some (a :: l)
    | None => None
    end
| [] => Some []
end.

Fixpoint read (st : ReadState) (acc : list RegExp) (src : jsstring)
  : option (list RegExp) :=
  match src with
  | [] =>
      match st with
      | Top => Some (rev acc)
      | InClass _ => None
      end
  | c :: src' =>
      match st with
      | Top =>
          if (c =? 91)%N then read (InClass []) acc src'
          else if (c =? 92)%N then
            match src' with
            | 115%N :: src'' => read Top (RClass [CSpace] :: acc) src''
            | _ => None
            end
          else if (c =? 93)%N then read Top (RChar c :: acc) src'
          else if isSyntaxCharacter c then None
          else read Top (RChar c :: acc) src'
      | InClass atoms =>
          if (c =? 93)%N then
            match classRanges (rev atoms) with
            | Some items => read Top (RClass items :: acc) src'
            | None => None
            end
          else if (c =? 92)%N then
            match src' with
            | 115%N :: src'' => read (InClass (CSpace :: atoms)) acc src''
            | _ => None
            end
          else read (InClass (CChar c :: atoms)) acc src'
      end
  end.

Definition RegExp_new (source : jsstring) : option RegExp :=
  match read Top [] source with
  | Some terms => Some (fold_right RSeq REmpty terms)
  | None => None
  end.

(** A sequence of pattern characters, and an alternation, for the regular
    expression literals of the source. *)
Definition word (s : string) : RegExp :=
  fold_right RSeq REmpty (map RChar (lit s)).

Fixpoint alternation (l : list RegExp) : RegExp :=
  match l with
  | [] => REmpty
  | [r] => r
  | r :: l' => RAlt r (alternation l')
  end.

End Regex.
Import Regex.

(* ================================================================== *)
(** * Numbers *)

(** ** Rounding a rational to binary64

    The definitions the proofs about numbers use: the real value of a
    binary64 value, and the binary64 value nearest to a rational (ties to
    even, overflow to an infinity), the rounding every operation of the
    IEEE 754 arithmetic applies to its exact result. *)
Module Binary64.
Local Open Scope Q_scope.

(** Powers of two. *)
Definition bpow (e : Z) : Q := 2 ^ e.

(** The integer nearest to a rational, a tie going to the even one. *)
Definition rne (x : Q) : Z :=
  let m := Qfloor x in
  match Qcompare (x - inject_Z m) (1 # 2) with
  | Lt => m
  | Eq => if Z.even m then m else (m + 1)%Z
  | Gt => (m + 1)%Z
  end.

(** The exponent [e] with [2^(e-1) <= v < 2^e], for [v > 0]. *)
Definition mag (v : Q) : Z :=
  let k := (Z.log2 (Qnum v) - Z.log2 (Zpos (Qden v)))%Z in
  if Qle_bool (bpow k) v then (k + 1)%Z else k.

(** The exponent of the binary64 values around [v]. *)
Definition cexp (v : Q) : Z := fexp prec emax (mag v).

(** The binary64 value nearest to [v > 0], with sign [s]. *)
Definition round_pos (s : bool) (v : Q) : spec_float :=
  let e := cexp v in
  match rne (v / bpow e) with
  | Zpos m =>
      let '(m', e') :=
        if (m =? 9007199254740992)%positive
        then (4503599627370496%positive, (e + 1)%Z) else (m, e) in
      if (e' <=? emax - prec)%Z then S754_finite s m' e' else S754_infinity s
  | _ => S754_zero s
  end.

(** [round zs v]: the binary64 value nearest to [v]; [zs] is the sign of
    the zero that an exact zero gives. *)
Definition round (zs : bool) (v : Q) : spec_float :=
  match Qcompare v 0 with
  | Eq => S754_zero zs
  | Gt => round_pos false v
  | Lt => round_pos true (- v)
  end.

Definition F2Q (m e : Z) : Q := inject_Z m * bpow e.

(** The real value of a finite binary64 value. *)
Definition SF2Q (x : spec_float) : Q :=
  match x with
  | S754_finite s m e => F2Q (cond_Zopp s (Zpos m)) e
  | _ => 0
  end.

(** The value the rounding of [v > 0] stands for, overflow apart. *)
Definition rval (v : Q) : Q := F2Q (rne (v / bpow (cexp v))) (cexp v).

(** A mantissa and an exponent in canonical form. *)
Definition canonical (m : positive) (e : Z) : Prop :=
  (Zpos m < 2 ^ 53)%Z /\ (-1074 <= e <= 971)%Z /\
  (2 ^ 52 <= Zpos m \/ e = -1074)%Z.

Definition valid (x : spec_float) : Prop := valid_binary x = true.

Definition finite (x : spec_float) : bool :=
  match x with S754_zero _ | S754_finite _ _ _ => true | _ => false end.

Definition is_nan (x : spec_float) : bool :=
  match x with S754_nan => true | _ => false end.

(** The place of a fraction [f] of [[0, 1)] with respect to one half. *)
Definition loc_of (f : Q) : location :=
  match Qcompare f 0 with
  | Eq => loc_Exact
  | _ => loc_Inexact (Qcompare f (1 # 2))
  end.

(** The record [mrs] stands for the rational [x]: its mantissa is the integer
    part of [x], its two bits say where the fraction of [x] is. *)
Definition located (mrs : shr_record) (x : Q) : Prop :=
  (0 <= shr_m mrs)%Z /\
  inject_Z (shr_m mrs) <= x /\ x < inject_Z (shr_m mrs) + 1 /\
  loc_of_shr_record mrs = loc_of (x - inject_Z (shr_m mrs)).

(** The real value of a binary64 value that is not NaN; the two infinities
    stand at the overflow threshold, above and below every finite value. *)
Definition ext (x : spec_float) : Q :=
  match x with
  | S754_infinity s => if s then - bpow 1024 else bpow 1024
  | _ => SF2Q x
  end.

(** The real value of the binary64 value nearest to [v]. *)
Definition rndE (v : Q) : Q := ext (round false v).

End Binary64.

(** ** The numbers of JavaScript *)

Module Number.

(** [Number.isNaN] and [Number.isFinite]. *)
Definition isNaN (x : float) : bool := Binary64.is_nan (Prim2SF x).
Definition isFinite (x : float) : bool := Binary64.finite (Prim2SF x).

(** The mathematical value of a number that is not NaN, an infinity
    standing at the overflow threshold. *)
Definition R (x : float) : Q := Binary64.ext (Prim2SF x).

(** The number value of an integer. *)
Definition of_Z (z : Z) : float :=
  SF2Prim (binary_normalize prec emax z 0 false).

(** [ToBoolean]: a number is falsy when it is zero or NaN. *)
Definition truthy (x : float) : bool :=
  negb (PrimFloat.is_nan x || is_zero x).

Definition isPositiveZero (x : float) : bool :=
  is_zero x && negb (get_sign x).

Definition isNegativeZero (x : float) : bool :=
  is_zero x && get_sign x.

(** The infinity of a sign. *)
Definition inf (s : bool) : float := if s then neg_infinity else infinity.

End Number.

(** The number value of a count: the length of an array, or a counter
    the code increments from 0 (the two agree below 2^53). *)
Definition Number_of_nat (n : nat) : float := Number.of_Z (Z.of_nat n).

(** [Math.max(...values)]: NaN if one of the values is, and +0 above -0. *)
Definition Math_max (values : list float) : float :=
  if existsb PrimFloat.is_nan values then nan
  else
    fold_left
      (fun highest number =>
         if Number.isPositiveZero number && Number.isNegativeZero highest
         then number
         else if (highest <? number)%float then number else highest)
      values neg_infinity.

(** [Math.min(...values)]. *)
Definition Math_min (values : list float) : float :=
  if existsb PrimFloat.is_nan values then nan
  else
    fold_left
      (fun lowest number =>
         if Number.isNegativeZero number && Number.isPositiveZero lowest
         then number
         else if (number <? lowest)%float then number else lowest)
      values infinity.

(** [Math.round]: the nearest integer, a half going up; a result that is
    zero keeps the sign of the argument. *)
Definition Math_round (x : float) : float :=
  match Prim2SF x with
  | S754_finite s m e =>
      let n := cond_Zopp s (Zpos m) in
      let z := if (0 <=? e)%Z then (n * 2 ^ e)%Z
               else ((n + 2 ^ (- e - 1)) / 2 ^ (- e))%Z in
      if (z =? 0)%Z then (if s then neg_zero else zero) else Number.of_Z z
  | _ => x
  end.


(* ================================================================== *)
(** * Builtins that read tables outside the repository *)

(** [String.prototype.toLowerCase] follows the Unicode case mapping: only
    what it does on Basic Latin is fixed here.  [URL_hostname url] is
    [new URL(url).hostname], [None] when the constructor throws. *)
Class Platform : Type := {
  toLowerCase : jsstring -> jsstring;
  toLowerCase_basic_latin :
    forall s, forallb isAscii s = true -> toLowerCase s = map lowerAscii s;
  URL_hostname : jsstring -> option jsstring
}.

(* ================================================================== *)
(** * Data model *)

Inductive CategoryKey : Type :=
| DATA_SHARING_RESALE
| FORCED_ARBITRATION
| CLASS_ACTION_WAIVER
| SURVEILLANCE_TRACKING
| UNILATERAL_MODIFICATION
| ACCOUNT_TERMINATION
| LIABILITY_LIMITATION
| INDEFINITE_RETENTION.

Definition CategoryKey_eq_dec (a b : CategoryKey) : {a = b} + {a <> b}.
Proof. decide equality. Defined.

Definition CategoryKey_eqb (a b : CategoryKey) : bool :=
  if CategoryKey_eq_dec a b then true else false.

(** The keys of [this.categories] in the order the object literal creates
    them, which is the order of [Object.entries]. *)
Definition categoryKeys : list CategoryKey :=
  [ DATA_SHARING_RESALE; FORCED_ARBITRATION; CLASS_ACTION_WAIVER;
    SURVEILLANCE_TRACKING; UNILATERAL_MODIFICATION; ACCOUNT_TERMINATION;
    LIABILITY_LIMITATION; INDEFINITE_RETENTION ].

Inductive BenchmarkKey : Type :=
| SOCIAL_MEDIA
| E_COMMERCE
| FINANCIAL
| TECHNOLOGY.

Inductive RiskLevel : Type := LOW | MEDIUM | HIGH.

Inductive Comparison : Type := worse | better.

Module Category.
Record t : Type := {
  name : jsstring;
  weight : float;
  description : jsstring;
  irreversible : bool
}.
End Category.

Module PatternSet.
Record t : Type := {
  keywords : list jsstring;
  severity : float;
  indicators : list jsstring
}.
End PatternSet.

Module Benchmark.
Record t : Type := {
  name : jsstring;
  average_risk_score : float;
  examples : list jsstring
}.
End Benchmark.

(** What [findPatternMatch] returns when a keyword matched. *)
Module PatternMatch.
Record t : Type := {
  severity : float;
  confidence : float;
  keywords : list jsstring
}.
End PatternMatch.

Module Match.
Record t : Type := {
  category : CategoryKey;
  category_name : jsstring;
  severity : float;
  confidence : float;
  matched_text : jsstring;
  matched_keywords : list jsstring;
  irreversible : bool;
  explanation : jsstring
}.
End Match.

Module Clause.
Record t : Type := {
  text : jsstring;
  matches : list Match.t;
  is_risky : bool;
  highest_risk : float
}.
End Clause.

Module RedFlag.
Record t : Type := {
  text : jsstring;
  explanation : jsstring;
  implication : jsstring;
  irreversible : bool;
  confidence : float;
  category : CategoryKey;
  category_name : jsstring
}.
End RedFlag.

Module CategoryScore.
Record t : Type := {
  key : CategoryKey;
  name : jsstring;
  severity : float
}.
End CategoryScore.

Module BenchmarkResult.
Record t : Type := {
  category : jsstring;
  percentage : float;
  average_score : float;
  comparison : Comparison
}.
End BenchmarkResult.

Module UserPreferences.
(** A field is [None] when the property is absent. *)
Record t : Type := {
  privacy_weight : option float;
  legal_rights_weight : option float;
  convenience_weight : option float
}.
Definition empty : t :=
  {| privacy_weight := None; legal_rights_weight := None;
     convenience_weight := None |}.
End UserPreferences.

Module Options.
Record t : Type := {
  url : option jsstring;
  language : option jsstring;
  user_preferences : option UserPreferences.t
}.
Definition empty : t :=
  {| url := None; language := None; user_preferences := None |}.
End Options.

Module Metadata.
Record t : Type := {
  url : option jsstring;
  language : jsstring;
  text_length : nat;
  deterministic_analysis : bool
}.
End Metadata.

Module AnalysisResult.
Record t : Type := {
  risk_score : float;
  risk_level : RiskLevel;
  red_flags : list RedFlag.t;
  categories : list CategoryScore.t;
  benchmark : BenchmarkResult.t;
  clauses_analyzed : nat;
  confidence : float;
  metadata : Metadata.t
}.
End AnalysisResult.

(** The engine object: the three catalogs the constructor sets. *)
Record ConsentLensAIEngine : Type := {
  categories : CategoryKey -> Category.t;
  patterns : CategoryKey -> PatternSet.t;
  benchmarks : BenchmarkKey -> Benchmark.t
}.

(* ================================================================== *)
(** * The catalogs *)

Local Open Scope float_scope.

Definition setupCategories (k : CategoryKey) : Category.t :=
  match k with
  | DATA_SHARING_RESALE =>
      {| Category.name := lit "Data Sharing & Resale";
         Category.weight := 0.18;
         Category.description :=
           lit "Clauses allowing sharing or selling user data to third parties";
         Category.irreversible := false |}
  | FORCED_ARBITRATION =>
      {| Category.name := lit "Forced Arbitration";
         Category.weight := 0.16;
         Category.description :=
           lit "Mandatory arbitration clauses preventing court access";
         Category.irreversible := true |}
  | CLASS_ACTION_WAIVER =>
      {| Category.name := lit "Class Action Waiver";
         Category.weight := 0.14;
         Category.description :=
           lit "Prohibitions on participating in class action lawsuits";
         Category.irreversible := true |}
  | SURVEILLANCE_TRACKING =>
      {| Category.name := lit "Surveillance & Tracking";
         Category.weight := 0.15;
         Category.description :=
           lit "Extensive monitoring and tracking of user behavior";
         Category.irreversible := false |}
  | UNILATERAL_MODIFICATION =>
      {| Category.name := lit "Unilateral Policy Modification";
         Category.weight := 0.12;
         Category.description := lit "Company can change terms without consent";
         Category.irreversible := false |}
  | ACCOUNT_TERMINATION =>
      {| Category.name := lit "Account Termination Rights";
         Category.weight := 0.08;
         Category.description :=
           lit "Broad rights to suspend or terminate accounts";
         Category.irreversible := false |}
  | LIABILITY_LIMITATION =>
      {| Category.name := lit "Liability Limitation";
         Category.weight := 0.09;
         Category.description := lit "Limiting company liability for damages";
         Category.irreversible := false |}
  | INDEFINITE_RETENTION =>
      {| Category.name := lit "Indefinite Data Retention";
         Category.weight := 0.08;
         Category.description :=
           lit "Keeping user data indefinitely without deletion options";
         Category.irreversible := false |}
  end.

(** The keywords are the values of the string literals of the source: in
    a string literal the escape [\s] is the letter [s], so the literal
    written [third[-\s]party advertisers] is the string
    [third[-s]party advertisers]. *)
Definition setupPatterns (k : CategoryKey) : PatternSet.t :=
  match k with
  | DATA_SHARING_RESALE =>
      {| PatternSet.keywords :=
           map lit
             [ "share your data with third parties";
               "sell your personal information";
               "data brokers";
               "affiliate sharing";
               "partner companies";
               "third[-s]party advertisers";
               "cross[-s]device tracking";
               "data resellers" ]%string;
         PatternSet.severity := 0.85;
         PatternSet.indicators :=
           map lit [ "sell"; "resell"; "share with third"; "data broker";
                     "affiliate" ]%string |}
  | FORCED_ARBITRATION =>
      {| PatternSet.keywords :=
           map lit
             [ "mandatory arbitration";
               "binding arbitration";
               "waive right to jury trial";
               "arbitrate any dispute";
               "no right to sue in court";
               "individual arbitration only" ]%string;
         PatternSet.severity := 0.95;
         PatternSet.indicators :=
           map lit [ "arbitration"; "waive"; "jury trial";
                     "dispute resolution" ]%string |}
  | CLASS_ACTION_WAIVER =>
      {| PatternSet.keywords :=
           map lit
             [ "waive right to class action";
               "no class[-s]action lawsuits";
               "individual claims only";
               "cannot participate in class action";
               "class action waiver" ]%string;
         PatternSet.severity := 0.90;
         PatternSet.indicators :=
           map lit [ "class action"; "collective action";
                     "group lawsuit" ]%string |}
  | SURVEILLANCE_TRACKING =>
      {| PatternSet.keywords :=
           map lit
             [ "track your location";
               "monitor your activity";
               "collect usage data";
               "behavioral tracking";
               "cross[-s]site tracking";
               "fingerprinting";
               "device identifiers" ]%string;
         PatternSet.severity := 0.75;
         PatternSet.indicators :=
           map lit [ "track"; "monitor"; "collect data"; "fingerprint";
                     "identifiers" ]%string |}
  | UNILATERAL_MODIFICATION =>
      {| PatternSet.keywords :=
           map lit
             [ "reserve the right to modify";
               "change these terms at any time";
               "update without notice";
               "modifications effective immediately";
               "continued use constitutes acceptance" ]%string;
         PatternSet.severity := 0.70;
         PatternSet.indicators :=
           map lit [ "modify"; "change"; "update"; "without notice";
                     "reserve right" ]%string |}
  | ACCOUNT_TERMINATION =>
      {| PatternSet.keywords :=
           map lit
             [ "terminate your account at any time";
               "suspend without notice";
               "refuse service at our discretion";
               "disable access immediately";
               "cancel for any reason" ]%string;
         PatternSet.severity := 0.65;
         PatternSet.indicators :=
           map lit [ "terminate"; "suspend"; "disable"; "refuse service";
                     "without notice" ]%string |}
  | LIABILITY_LIMITATION =>
      {| PatternSet.keywords :=
           map lit
             [ "not liable for any damages";
               "maximum liability limited to";
               "exclude consequential damages";
               "as[-s]is without warranty";
               "disclaim all warranties" ]%string;
         PatternSet.severity := 0.60;
         PatternSet.indicators :=
           map lit [ "not liable"; "limited liability"; "exclude damages";
                     "warranty disclaimer" ]%string |}
  | INDEFINITE_RETENTION =>
      {| PatternSet.keywords :=
           map lit
             [ "retain your data indefinitely";
               "no obligation to delete";
               "store as long as necessary";
               "keep records forever";
               "indefinite storage period" ]%string;
         PatternSet.severity := 0.70;
         PatternSet.indicators :=
           map lit [ "retain indefinitely"; "no obligation to delete";
                     "store forever"; "indefinite period" ]%string |}
  end.

Definition setupBenchmarks (k : BenchmarkKey) : Benchmark.t :=
  match k with
  | SOCIAL_MEDIA =>
      {| Benchmark.name := lit "Social Media Platforms";
         Benchmark.average_risk_score := 65;
         Benchmark.examples :=
           map lit [ "Facebook"; "Twitter"; "Instagram"; "TikTok" ]%string |}
  | E_COMMERCE =>
      {| Benchmark.name := lit "E-commerce Platforms";
         Benchmark.average_risk_score := 45;
         Benchmark.examples :=
           map lit [ "Amazon"; "eBay"; "Shopify"; "Etsy" ]%string |}
  | FINANCIAL =>
      {| Benchmark.name := lit "Financial Services";
         Benchmark.average_risk_score := 55;
         Benchmark.examples :=
           map lit [ "PayPal"; "Banks"; "Investment platforms" ]%string |}
  | TECHNOLOGY =>
      {| Benchmark.name := lit "Technology Companies";
         Benchmark.average_risk_score := 50;
         Benchmark.examples :=
           map lit [ "Google"; "Microsoft"; "Apple";
                     "Software services" ]%string |}
  end.

(** [new ConsentLensAIEngine()]. *)
Definition constructor : ConsentLensAIEngine :=
  {| categories := setupCategories;
     patterns := setupPatterns;
     benchmarks := setupBenchmarks |}.

(* ================================================================== *)
(** * The methods of the engine *)

(** [Array.prototype.sort(comparefn)]: the sort is stable, and for a
    consistent [comparefn] its result is the one of inserting each element,
    from the last to the first, before the first element it does not come
    after.  An element comes after another when [comparefn] gives them a
    number above zero; NaN counts as zero. *)
Section Sort.
Variable A : Type.
Variable comparefn : A -> A -> float.

Fixpoint sort_insert (a : A) (l : list A) : list A :=
  match l with
  | [] => [a]
  | b :: l' =>
      if 0 <? comparefn a b then b :: sort_insert a l'
      else a :: b :: l'
  end.

Definition Array_sort (l : list A) : list A := fold_right sort_insert [] l.
End Sort.

Section Engine.
Context {platform : Platform}.

Definition preprocessText (text : jsstring) : jsstring :=
  trim
    (replaceAll (RClass [CChar 8220; CChar 8221]) [34%N]
       (replaceAll (RClass [CChar 8216; CChar 8217]) (lit "'")
          (replaceAll (RPlus (RClass [CSpace])) (lit " ") text))).

Definition extractClauses (text : jsstring) : list jsstring :=
  let sentences :=
    filter (fun s => (20 <? length s)%nat)
      (map trim
         (split (RSeq (RPlus (RClass [CChar 46; CChar 33; CChar 63]))
                      (RPlus (RClass [CSpace])))
                text)) in
  sentences.

(** [keyword.replace(/[-\s]/g, '[-\\s]')]: the source of the pattern. *)
Definition keywordSource (keyword : jsstring) : jsstring :=
  replaceAll (RClass [CChar 45; CSpace]) (lit "[-\s]") keyword.

(** [new RegExp(source, 'i').test(lowerClause)].  A source the reader
    gives up on stands for no pattern; no keyword of the catalog is one
    (see [keywords_are_read]). *)
Definition keywordTest (keyword lowerClause : jsstring) : bool :=
  match RegExp_new (keywordSource keyword) with
  | Some regex => test true regex lowerClause
  | None => false
  end.

Definition findPatternMatch (clause : jsstring) (pattern : PatternSet.t)
  : option PatternMatch.t :=
  let lowerClause := toLowerCase clause in
  let '(matchedKeywords, totalMatches) :=
    fold_left
      (fun '(matchedKeywords, totalMatches) keyword =>
         if keywordTest keyword lowerClause
         then (matchedKeywords ++ [keyword], S totalMatches)
         else (matchedKeywords, totalMatches))
      (PatternSet.keywords pattern) ([], O) in
  if (totalMatches =? 0)%nat then None
  else
    let confidence :=
      Math_min [0.95; 0.6 + Number_of_nat totalMatches * 0.15] in
    Some {| PatternMatch.severity := PatternSet.severity pattern;
            PatternMatch.confidence := confidence;
            PatternMatch.keywords := matchedKeywords |}.

Definition generateExplanation (categoryKey : CategoryKey) : jsstring :=
  match categoryKey with
  | DATA_SHARING_RESALE =>
      lit "This clause indicates your personal data may be shared with or sold to third parties, including advertisers, data brokers, or affiliate companies."
  | FORCED_ARBITRATION =>
      lit "You would be required to resolve disputes through private arbitration rather than in court, forfeiting your right to a jury trial."
  | CLASS_ACTION_WAIVER =>
      lit "You cannot join class-action lawsuits against the company, limiting your ability to seek justice collectively with other users."
  | SURVEILLANCE_TRACKING =>
      lit "The company monitors and tracks your activities, location, or behavior, potentially across multiple devices and platforms."
  | UNILATERAL_MODIFICATION =>
      lit "The company can change these terms at any time without notice, and your continued use constitutes automatic acceptance."
  | ACCOUNT_TERMINATION =>
      lit "The company can suspend or terminate your account at their discretion, potentially without notice or explanation."
  | LIABILITY_LIMITATION =>
      lit "The company's liability for damages is limited, potentially leaving you without recourse if their service causes you harm."
  | INDEFINITE_RETENTION =>
      lit "Your data may be kept indefinitely even after you delete your account or stop using the service."
  end.

Definition analyzeClause (this : ConsentLensAIEngine) (clause : jsstring)
  : Clause.t :=
  let matches :=
    fold_left
      (fun matches categoryKey =>
         let category := categories this categoryKey in
         let pattern := patterns this categoryKey in
         match findPatternMatch clause pattern with
         | Some match_ =>
             matches ++
             [ {| Match.category := categoryKey;
                  Match.category_name := Category.name category;
                  Match.severity := PatternMatch.severity match_;
                  Match.confidence := PatternMatch.confidence match_;
                  Match.matched_text := clause;
                  Match.matched_keywords := PatternMatch.keywords match_;
                  Match.irreversible := Category.irreversible category;
                  Match.explanation := generateExplanation categoryKey |} ]
         | None => matches
         end)
      categoryKeys [] in
  {| Clause.text := clause;
     Clause.matches := matches;
     Clause.is_risky := (0 <? length matches)%nat;
     Clause.highest_risk :=
       if (0 <? length matches)%nat
       then Math_max (map Match.severity matches) else 0 |}.

(** The defaults of the destructuring apply to an absent property; the
    [|| 1.0] of the source replaces a weight that is zero or NaN. *)
Definition getUserAdjustedWeight (category : CategoryKey)
           (user_preferences : UserPreferences.t) : float :=
  let privacy_weight :=
    match UserPreferences.privacy_weight user_preferences with
    | Some w => w | None => 0.4 end in
  let legal_rights_weight :=
    match UserPreferences.legal_rights_weight user_preferences with
    | Some w => w | None => 0.4 end in
  let convenience_weight :=
    match UserPreferences.convenience_weight user_preferences with
    | Some w => w | None => 0.2 end in
  let categoryMappings :=
    match category with
    | DATA_SHARING_RESALE => privacy_weight
    | SURVEILLANCE_TRACKING => privacy_weight
    | INDEFINITE_RETENTION => privacy_weight
    | FORCED_ARBITRATION => legal_rights_weight
    | CLASS_ACTION_WAIVER => legal_rights_weight
    | LIABILITY_LIMITATION => legal_rights_weight
    | UNILATERAL_MODIFICATION => convenience_weight
    | ACCOUNT_TERMINATION => convenience_weight
    end in
  if Number.truthy categoryMappings then categoryMappings else 1.0.

Definition applyLinguisticModifiers (score : float) (text : jsstring)
  : float :=
  let lowerText := toLowerCase text in
  let modifier := 1.0 in
  let modifier :=
    if test false
         (alternation [word "will"; word "must"; word "shall";
                       word "required to"]) lowerText
    then modifier + 0.1 else modifier in
  let modifier :=
    if test false
         (alternation [word "unconditional"; word "absolute";
                       word "irrevocable"]) lowerText
    then modifier + 0.15 else modifier in
  let modifier :=
    if test false
         (alternation [word "may"; word "might"; word "could";
                       word "optional"; word "at your discretion"])
         lowerText
    then modifier - 0.1 else modifier in
  score * modifier.

Definition calculateRiskScore (this : ConsentLensAIEngine)
           (clauseAnalyses : list Clause.t)
           (user_preferences : UserPreferences.t) : float :=
  if (length clauseAnalyses =? 0)%nat then 0
  else
    let riskyClauses := filter Clause.is_risky clauseAnalyses in
    if (length riskyClauses =? 0)%nat then 0
    else
      let '(totalWeightedScore, totalWeight) :=
        fold_left
          (fun totals clause =>
             fold_left
               (fun '(totalWeightedScore, totalWeight) match_ =>
                  let categoryWeight :=
                    Category.weight
                      (categories this (Match.category match_)) in
                  let userWeight :=
                    getUserAdjustedWeight (Match.category match_)
                                          user_preferences in
                  let combinedWeight := categoryWeight * userWeight in
                  let weightedScore :=
                    Match.severity match_ * combinedWeight in
                  (totalWeightedScore + weightedScore,
                   totalWeight + combinedWeight))
               (Clause.matches clause) totals)
          riskyClauses (0, 0) in
      if totalWeight =? 0 then 0
      else
        let rawScore := (totalWeightedScore / totalWeight) * 100 in
        let text := join (lit " ") (map Clause.text clauseAnalyses) in
        let finalScore := applyLinguisticModifiers rawScore text in
        Math_min [100; Math_max [0; finalScore]].

Definition getRiskLevel (score : float) : RiskLevel :=
  if 70 <=? score then HIGH
  else if 40 <=? score then MEDIUM
  else LOW.

Definition generateImplication (category : CategoryKey) : jsstring :=
  match category with
  | DATA_SHARING_RESALE =>
      lit "Your personal data could be sold to or shared with unknown third parties for profit."
  | FORCED_ARBITRATION =>
      lit "You permanently give up your right to sue this company in court, even if they seriously harm you."
  | CLASS_ACTION_WAIVER =>
      lit "You cannot join other users in class-action lawsuits, limiting your legal recourse."
  | SURVEILLANCE_TRACKING =>
      lit "The company may extensively monitor your activities across devices and platforms."
  | UNILATERAL_MODIFICATION =>
      lit "The company can change the rules at any time without asking for your permission."
  | ACCOUNT_TERMINATION =>
      lit "Your account could be deleted at any time without warning or explanation."
  | LIABILITY_LIMITATION =>
      lit "The company limits what they have to pay if their mistakes cause you harm."
  | INDEFINITE_RETENTION =>
      lit "Your data may be kept forever, even after you delete your account."
  end.

(** A match of [allMatches]: the match and the [clause_text] added to it. *)
Definition MatchOfClause : Type := (Match.t * jsstring)%type.

Definition collectMatches (clauseAnalyses : list Clause.t)
  : list MatchOfClause :=
  fold_left
    (fun allMatches clause =>
       fold_left
         (fun allMatches match_ =>
            allMatches ++ [(match_, Clause.text clause)])
         (Clause.matches clause) allMatches)
    clauseAnalyses [].

Definition compareMatches (a b : MatchOfClause) : float :=
  let scoreA := Match.severity (fst a) * Match.confidence (fst a) in
  let scoreB := Match.severity (fst b) * Match.confidence (fst b) in
  scoreB - scoreA.

(** The loop that takes the top three categories: the state is the set
    [usedCategories] and the array [redFlags]. *)
Definition takeRedFlag (state : list CategoryKey * list RedFlag.t)
           (m : MatchOfClause) : list CategoryKey * list RedFlag.t :=
  let '(usedCategories, redFlags) := state in
  let match_ := fst m in
  if negb (existsb (CategoryKey_eqb (Match.category match_)) usedCategories)
     && (length redFlags <? 3)%nat
  then
    (Match.category match_ :: usedCategories,
     redFlags ++
     [ {| RedFlag.text := Match.matched_text match_;
          RedFlag.explanation := Match.explanation match_;
          RedFlag.implication := generateImplication (Match.category match_);
          RedFlag.irreversible := Match.irreversible match_;
          RedFlag.confidence := Match.confidence match_;
          RedFlag.category := Match.category match_;
          RedFlag.category_name := Match.category_name match_ |} ])
  else state.

Definition generateRedFlags (clauseAnalyses : list Clause.t)
  : list RedFlag.t :=
  let allMatches := collectMatches clauseAnalyses in
  let allMatches := Array_sort compareMatches allMatches in
  snd (fold_left takeRedFlag allMatches ([], [])).

(** An entry of [categoryScores]. *)
Record ScoreEntry : Type := {
  entry_name : jsstring;
  entry_severity : float;
  clause_count : nat
}.

Fixpoint addSeverity (key : CategoryKey) (severity : float)
         (categoryScores : list (CategoryKey * ScoreEntry))
  : list (CategoryKey * ScoreEntry) :=
  match categoryScores with
  | [] => []
  | (k, e) :: rest =>
      if CategoryKey_eqb k key
      then (k, {| entry_name := entry_name e;
                  entry_severity := entry_severity e + severity;
                  clause_count := S (clause_count e) |}) :: rest
      else (k, e) :: addSeverity key severity rest
  end.

Definition calculateCategoryScores (this : ConsentLensAIEngine)
           (clauseAnalyses : list Clause.t) : list CategoryScore.t :=
  let categoryScores :=
    map (fun key =>
           (key, {| entry_name := Category.name (categories this key);
                    entry_severity := 0;
                    clause_count := O |}))
        categoryKeys in
  let categoryScores :=
    fold_left
      (fun categoryScores clause =>
         fold_left
           (fun categoryScores match_ =>
              addSeverity (Match.category match_) (Match.severity match_)
                          categoryScores)
           (Clause.matches clause) categoryScores)
      clauseAnalyses categoryScores in
  map (fun '(key, score) =>
         {| CategoryScore.key := key;
            CategoryScore.name := entry_name score;
            CategoryScore.severity :=
              (entry_severity score / Number_of_nat (clause_count score))
              * 100 |})
      (filter (fun '(_, score) => (0 <? clause_count score)%nat)
              categoryScores).

(** [url ? new URL(url).hostname.toLowerCase() : '']: an absent and an
    empty [url] give the empty domain; [None] when [new URL] throws. *)
Definition domainOf (url : option jsstring) : option jsstring :=
  match url with
  | None => Some []
  | Some [] => Some []
  | Some u =>
      match URL_hostname u with
      | Some hostname => Some (toLowerCase hostname)
      | None => None
      end
  end.

Definition benchmarkCategory (domain : jsstring) : BenchmarkKey :=
  if includes domain (lit "facebook") || includes domain (lit "twitter")
     || includes domain (lit "instagram") || includes domain (lit "tiktok")
  then SOCIAL_MEDIA
  else if includes domain (lit "amazon") || includes domain (lit "ebay")
          || includes domain (lit "shop") || includes domain (lit "buy")
  then E_COMMERCE
  else if includes domain (lit "bank") || includes domain (lit "finance")
          || includes domain (lit "paypal") || includes domain (lit "invest")
  then FINANCIAL
  else TECHNOLOGY.

Definition generateBenchmark (this : ConsentLensAIEngine)
           (url : option jsstring) (riskScore : float)
  : option BenchmarkResult.t :=
  match domainOf url with
  | None => None
  | Some domain =>
      let category := benchmarkCategory domain in
      let benchmark := benchmarks this category in
      let percentage :=
        Math_round
          (((riskScore - Benchmark.average_risk_score benchmark)
            / Benchmark.average_risk_score benchmark) * 100) in
      Some {| BenchmarkResult.category := Benchmark.name benchmark;
              BenchmarkResult.percentage := percentage;
              BenchmarkResult.average_score :=
                Benchmark.average_risk_score benchmark;
              BenchmarkResult.comparison :=
                if 0 <? percentage then worse else better |}
  end.

Definition calculateConfidence (clauseAnalyses : list Clause.t) : float :=
  if (length clauseAnalyses =? 0)%nat then 1.0
  else
    let riskyClauses := filter Clause.is_risky clauseAnalyses in
    if (length riskyClauses =? 0)%nat then 1.0
    else
      let confidences :=
        fold_left
          (fun confidences clause =>
             fold_left
               (fun confidences match_ =>
                  confidences ++ [Match.confidence match_])
               (Clause.matches clause) confidences)
          riskyClauses [] in
      if (0 <? length confidences)%nat
      then fold_left (fun sum conf => sum + conf) confidences 0
           / Number_of_nat (length confidences)
      else 1.0.

(** [analyze]: [None] when the call throws (the promise is rejected),
    which only [new URL] in [generateBenchmark] can cause. *)
Definition analyze (this : ConsentLensAIEngine) (text : jsstring)
           (options : Options.t) : option AnalysisResult.t :=
  let url := Options.url options in
  let language :=
    match Options.language options with
    | Some l => l | None => lit "en" end in
  let user_preferences :=
    match Options.user_preferences options with
    | Some p => p | None => UserPreferences.empty end in
  let normalizedText := preprocessText text in
  let clauses := extractClauses normalizedText in
  let clauseAnalyses := map (analyzeClause this) clauses in
  let riskScore := calculateRiskScore this clauseAnalyses user_preferences in
  let riskLevel := getRiskLevel riskScore in
  let redFlags := generateRedFlags clauseAnalyses in
  let categories := calculateCategoryScores this clauseAnalyses in
  match generateBenchmark this url riskScore with
  | None => None
  | Some benchmark =>
      Some {| AnalysisResult.risk_score := riskScore;
              AnalysisResult.risk_level := riskLevel;
              AnalysisResult.red_flags := redFlags;
              AnalysisResult.categories := categories;
              AnalysisResult.benchmark := benchmark;
              AnalysisResult.clauses_analyzed := length clauseAnalyses;
              AnalysisResult.confidence :=
                calculateConfidence clauseAnalyses;
              AnalysisResult.metadata :=
                {| Metadata.url := url;
                   Metadata.language := language;
                   Metadata.text_length := length text;
                   Metadata.deterministic_analysis := true |} |}
  end.

Definition getCategories (this : ConsentLensAIEngine)
  : list (CategoryKey * Category.t) :=
  map (fun key => (key, categories this key)) categoryKeys.

End Engine.

(* ================================================================== *)
(** * A platform to evaluate the engine on Basic Latin text *)

Definition isLowerLetter (c : N) : bool := ((97 <=? c) && (c <=? 122))%N.

Fixpoint hostOf (s : jsstring) : jsstring * jsstring :=
  match s with
  | c :: s' =>
      if isLowerLetter c || (c =? 46)%N
      then let '(h, rest) := hostOf s' in (c :: h, rest)
      else ([], s)
  | [] => ([], [])
  end.

(** The hostname of the URLs [http://host] and [https://host], with or
    without a path, whose host is made of lower case letters and single
    dots between them; every other string is refused. *)
Definition simple_hostname (url : jsstring) : option jsstring :=
  let after :=
    if startsWith (lit "https://") url then Some (skipn 8 url)
    else if startsWith (lit "http://") url then Some (skipn 7 url)
    else None in
  match after with
  | None => None
  | Some s =>
      let '(h, rest) := hostOf s in
      let wellFormed :=
        match h with c :: _ => isLowerLetter c | [] => false end
        && match rev h with c :: _ => isLowerLetter c | [] => false end
        && negb (includes h (lit "..")) in
      match rest with
      | [] => if wellFormed then Some h else None
      | c :: _ => if wellFormed && (c =? 47)%N then Some h else None
      end
  end.

Definition basicLatin : Platform := {|
  toLowerCase := map lowerAscii;
  toLowerCase_basic_latin := fun s _ => eq_refl;
  URL_hostname := simple_hostname
|}.

(* ================================================================== *)
(** * Notions the statements use *)

Section Notions.
Context {platform : Platform}.

(** The keywords of a pattern set that match a clause, and their number. *)
Definition matchingKeywords (clause : jsstring) (pattern : PatternSet.t)
  : list jsstring :=
  filter (fun keyword => keywordTest keyword (toLowerCase clause))
         (PatternSet.keywords pattern).

Definition matchCount (this : ConsentLensAIEngine) (clause : jsstring)
           (key : CategoryKey) : nat :=
  length (matchingKeywords clause (patterns this key)).

(** The match [analyzeClause] pushes for a category, if it pushes one. *)
Definition matchOf (this : ConsentLensAIEngine) (clause : jsstring)
           (categoryKey : CategoryKey) : list Match.t :=
  match findPatternMatch clause (patterns this categoryKey) with
  | Some match_ =>
      [ {| Match.category := categoryKey;
           Match.category_name :=
             Category.name (categories this categoryKey);
           Match.severity := PatternMatch.severity match_;
           Match.confidence := PatternMatch.confidence match_;
           Match.matched_text := clause;
           Match.matched_keywords := PatternMatch.keywords match_;
           Match.irreversible :=
             Category.irreversible (categories this categoryKey);
           Match.explanation := generateExplanation categoryKey |} ]
  | None => []
  end.

(** The selection loop of [generateRedFlags]: at most three red flags,
    with distinct categories that are all in [usedCategories]. *)
Definition redFlagsInvariant (state : list CategoryKey * list RedFlag.t)
  : Prop :=
  (length (snd state) <= 3)%nat /\
  NoDup (map RedFlag.category (snd state)) /\
  (forall flag, In flag (snd state) -> In (RedFlag.category flag) (fst state)).

(** The clause analyses [analyze] computes for a text. *)
Definition clauseAnalysesOf (this : ConsentLensAIEngine) (text : jsstring)
  : list Clause.t :=
  map (analyzeClause this) (extractClauses (preprocessText text)).

End Notions.

(** The texts of the two scenarios. *)
Definition sharing_text : jsstring :=
  lit "We may share your data with third party advertisers.".

Definition arbitration_text : jsstring :=
  lit "You must agree to mandatory arbitration and waive right to jury trial and waive right to class action.".

(** A text with obligation and absolute language. *)
Definition adversarial_text : jsstring :=
  lit "You must accept binding arbitration that is absolute, unconditional and irrevocable.".

(** A text whose four sentences match four categories. *)
Definition four_categories_text : jsstring :=
  lit "We sell your personal information to data brokers. You agree to binding arbitration of every claim. We may track your location at all times. We may suspend without notice any account.".

(** The weighted average of the severities of the two matches of the
    arbitration text under the default preferences, times 100, as
    [calculateRiskScore] accumulates it. *)
Definition arbitration_rawScore : float :=
  ((0 + 0.95 * (0.16 * 0.4) + 0.90 * (0.14 * 0.4))
   / (0 + 0.16 * 0.4 + 0.14 * 0.4)) * 100.

(** A text of seven clauses, each of which matches one keyword of
    [DATA_SHARING_RESALE]. *)
Definition seven_sales_text : jsstring :=
  lit "We sell your personal information to all. We sell your personal information to all. We sell your personal information to all. We sell your personal information to all. We sell your personal information to all. We sell your personal information to all. We sell your personal information to all.".

Definition privacy_weight_only (weight : float) : Options.t :=
  {| Options.url := None;
     Options.language := None;
     Options.user_preferences :=
       Some {| UserPreferences.privacy_weight := Some weight;
               UserPreferences.legal_rights_weight := None;
               UserPreferences.convenience_weight := None |} |}.

(** Options whose privacy weight is near the largest number, and options
    whose privacy weight is the smallest positive number. *)
Definition huge_privacy_weight : Options.t := privacy_weight_only 1.7e308.

Definition tiny_privacy_weight : Options.t := privacy_weight_only 5e-324.

(* ================================================================== *)
(** * Notions for the text stages *)

(** The text starts, or ends, with a white space code unit. *)
Definition startsWithSpace (s : jsstring) : bool :=
  match s with
  | c :: _ => isWhiteSpace c
  | [] => false
  end.

Definition endsWithSpace (s : jsstring) : bool := startsWithSpace (rev s).

(** Every white space code unit of the text is a blank (U+0020) that no
    other white space follows. *)
Fixpoint singleSpaced (s : jsstring) : bool :=
  match s with
  | c :: s' =>
      (if isWhiteSpace c then (c =? 32)%N && negb (startsWithSpace s')
       else true)
      && singleSpaced s'
  | [] => true
  end.

(** The four curly quotes [preprocessText] replaces. *)
Definition isCurlyQuote (c : N) : bool :=
  ((c =? 8216) || (c =? 8217) || (c =? 8220) || (c =? 8221))%N.

(** A regular expression every match of which takes at least one code
    unit. *)
Fixpoint consumes (r : RegExp) : bool :=
  match r with
  | RChar _ => true
  | RClass _ => true
  | RPlus r1 => consumes r1
  | RSeq r1 r2 => consumes r1 || consumes r2
  | RAlt r1 r2 => consumes r1 && consumes r2
  | REmpty => false
  end.

(** What the two quote replacements of [preprocessText] do to a code
    unit. *)
Definition straightenSingle (c : N) : N :=
  if existsb (classAtomMatches false c) [CChar 8216; CChar 8217]
  then 39%N else c.

Definition straightenDouble (c : N) : N :=
  if existsb (classAtomMatches false c) [CChar 8220; CChar 8221]
  then 34%N else c.


(* ================================================================== *)
(** * Notions for the scorer *)

Section ScorerNotions.
Context {platform : Platform}.

(** The three kinds of language [applyLinguisticModifiers] looks for in the
    lower-cased text, as substrings. *)
Definition hasObligation (lowerText : jsstring) : bool :=
  includes lowerText (lit "will") || includes lowerText (lit "must")
  || includes lowerText (lit "shall") || includes lowerText (lit "required to").

Definition hasAbsolute (lowerText : jsstring) : bool :=
  includes lowerText (lit "unconditional")
  || includes lowerText (lit "absolute")
  || includes lowerText (lit "irrevocable").

Definition hasPermissive (lowerText : jsstring) : bool :=
  includes lowerText (lit "may") || includes lowerText (lit "might")
  || includes lowerText (lit "could") || includes lowerText (lit "optional")
  || includes lowerText (lit "at your discretion").

(** User preferences none of which is negative. *)
Definition nonNegative (w : option float) : Prop :=
  match w with Some q => (0 <=? q) = true | None => True end.

Definition nonNegativePreferences (prefs : UserPreferences.t) : Prop :=
  nonNegative (UserPreferences.privacy_weight prefs) /\
  nonNegative (UserPreferences.legal_rights_weight prefs) /\
  nonNegative (UserPreferences.convenience_weight prefs).

(** User preferences each of which is absent or lies between 0 and 1. *)
Definition unitWeight (w : option float) : Prop :=
  match w with
  | Some q => (0 <=? q) = true /\ (q <=? 1) = true
  | None => True
  end.

Definition unitPreferences (prefs : UserPreferences.t) : Prop :=
  unitWeight (UserPreferences.privacy_weight prefs) /\
  unitWeight (UserPreferences.legal_rights_weight prefs) /\
  unitWeight (UserPreferences.convenience_weight prefs).

End ScorerNotions.

(* ================================================================== *)
(** * Notions for the reports *)

(** The red flag [generateRedFlags] builds from a match. *)
Definition redFlagOf (match_ : Match.t) : RedFlag.t :=
  {| RedFlag.text := Match.matched_text match_;
     RedFlag.explanation := Match.explanation match_;
     RedFlag.implication := generateImplication (Match.category match_);
     RedFlag.irreversible := Match.irreversible match_;
     RedFlag.confidence := Match.confidence match_;
     RedFlag.category := Match.category match_;
     RedFlag.category_name := Match.category_name match_ |}.

(** The rank of a match in [generateRedFlags]. *)
Definition matchScore (m : MatchOfClause) : float :=
  Match.severity (fst m) * Match.confidence (fst m).

(** All the matches of a list of clause analyses, clause by clause. *)
Definition allMatches (clauseAnalyses : list Clause.t) : list Match.t :=
  flat_map Clause.matches clauseAnalyses.

(** The categories that have a match, in the order of the catalog. *)
Definition matchedCategories (clauseAnalyses : list Clause.t)
  : list CategoryKey :=
  filter
    (fun key =>
       existsb (CategoryKey_eqb key)
               (map Match.category (allMatches clauseAnalyses)))
    categoryKeys.

(** The entry of [categoryScores] for a key once a list of matches has
    been accumulated into it. *)
Definition accumulate (key : CategoryKey) (matches : list Match.t)
           (entry : ScoreEntry) : ScoreEntry :=
  fold_left
    (fun entry match_ =>
       if CategoryKey_eqb key (Match.category match_)
       then {| entry_name := entry_name entry;
               entry_severity := entry_severity entry + Match.severity match_;
               clause_count := S (clause_count entry) |}
       else entry)
    matches entry.

(** The number of matches of a category. *)
Definition matchesIn (key : CategoryKey) (matches : list Match.t) : nat :=
  length (filter (fun match_ => CategoryKey_eqb key (Match.category match_))
                 matches).

(** A number added [n] times to 0, one addition after the other. *)
Definition addedTimes (x : float) (n : nat) : float :=
  fold_left PrimFloat.add (repeat x n) 0.

(* ================================================================== *)
(** * Notions for the keyword patterns *)

(** A keyword character that [keyword.replace(/[-\s]/g, ...)] rewrites. *)
Definition isHyphenOrSpace (c : N) : bool := (c =? 45)%N || isWhiteSpace c.

(** What a character of a keyword asks of a character of the clause: a
    hyphen or white space asks for a hyphen or any white space, any other
    character asks for itself up to the case of Basic Latin letters. *)
Definition agrees (c x : N) : bool :=
  if isHyphenOrSpace c then isHyphenOrSpace x
  else (upperAscii c =? upperAscii x)%N.

(** The keyword is found at the head of the text, or somewhere in it. *)
Fixpoint keywordPrefix (keyword s : jsstring) : bool :=
  match keyword, s with
  | [], _ => true
  | c :: keyword', x :: s' => agrees c x && keywordPrefix keyword' s'
  | _ :: _, [] => false
  end.

Fixpoint keywordOccurs (keyword s : jsstring) : bool :=
  keywordPrefix keyword s
  || match s with [] => false | _ :: s' => keywordOccurs keyword s' end.

(** The pattern a keyword without pattern syntax is read as. *)
Definition keywordAtom (c : N) : RegExp :=
  if isHyphenOrSpace c then RClass [CChar 45; CSpace] else RChar c.

(** Every match of the pattern takes a character equal to [c] (up to case
    when the pattern ignores case). *)
Fixpoint requires (c : N) (r : RegExp) : bool :=
  match r with
  | RChar d => (c =? d)%N
  | RClass _ => false
  | RPlus r1 => requires c r1
  | RSeq r1 r2 => requires c r1 || requires c r2
  | RAlt r1 r2 => requires c r1 && requires c r2
  | REmpty => false
  end.

(* ================================================================== *)
(** * The fallback result and the server that calls the engine *)

Module FallbackRedFlag.
Record t : Type := {
  text : jsstring;
  explanation : jsstring;
  implication : jsstring;
  irreversible : bool;
  confidence : float
}.
End FallbackRedFlag.

Module FallbackAnalysis.
Record t : Type := {
  risk_score : float;
  risk_level : jsstring;
  red_flags : list FallbackRedFlag.t;
  categories : list CategoryScore.t;
  confidence : float;
  fallback : bool
}.
End FallbackAnalysis.

(** [getFallbackAnalysis] of the engine. *)
Definition getFallbackAnalysis : FallbackAnalysis.t :=
  {| FallbackAnalysis.risk_score := 0;
     FallbackAnalysis.risk_level := lit "UNKNOWN";
     FallbackAnalysis.red_flags :=
       [ {| FallbackRedFlag.text := lit "Unable to analyze terms";
            FallbackRedFlag.explanation :=
              lit "AI service is temporarily unavailable";
            FallbackRedFlag.implication := lit "Manual review recommended";
            FallbackRedFlag.irreversible := false;
            FallbackRedFlag.confidence := 1.0 |} ];
     FallbackAnalysis.categories := [];
     FallbackAnalysis.confidence := 1.0;
     FallbackAnalysis.fallback := true |}.

(** The [user_preferences] object of a request: a field is [None] when
    the property is absent. *)
Module RequestPreferences.
Record t : Type := {
  privacy_weight : option float;
  legal_rights_weight : option float;
  convenience_weight : option float;
  risk_threshold : option float;
  enable_notifications : option bool
}.
Definition empty : t :=
  {| privacy_weight := None; legal_rights_weight := None;
     convenience_weight := None; risk_threshold := None;
     enable_notifications := None |}.
End RequestPreferences.

(** What the engine reads of a preferences object: the three weights. *)
Definition enginePreferences (p : RequestPreferences.t) : UserPreferences.t :=
  {| UserPreferences.privacy_weight := RequestPreferences.privacy_weight p;
     UserPreferences.legal_rights_weight :=
       RequestPreferences.legal_rights_weight p;
     UserPreferences.convenience_weight :=
       RequestPreferences.convenience_weight p |}.

(** [normalizePreferences]: [{ ...defaults, ...user_preferences }]. *)
Definition normalizePreferences (user_preferences : RequestPreferences.t)
  : RequestPreferences.t :=
  let spread (A : Type) (default : A) (given : option A) : option A :=
    match given with
    | Some v => Some v
    | None => Some default
    end in
  {| RequestPreferences.privacy_weight :=
       spread float 0.4 (RequestPreferences.privacy_weight user_preferences);
     RequestPreferences.legal_rights_weight :=
       spread float 0.4 (RequestPreferences.legal_rights_weight user_preferences);
     RequestPreferences.convenience_weight :=
       spread float 0.2 (RequestPreferences.convenience_weight user_preferences);
     RequestPreferences.risk_threshold :=
       spread float 50 (RequestPreferences.risk_threshold user_preferences);
     RequestPreferences.enable_notifications :=
       spread bool true
              (RequestPreferences.enable_notifications user_preferences) |}.

(** The body of a request to [/api/analyze]; [text] is [None] when the
    property is absent or is not a string. *)
Module AnalyzeBody.
Record t : Type := {
  text : option jsstring;
  url : option jsstring;
  language : option jsstring;
  user_preferences : option RequestPreferences.t
}.
End AnalyzeBody.

Module BatchItem.
Record t : Type := {
  text : option jsstring;
  url : option jsstring
}.
End BatchItem.

(** The body of a request to [/api/analyze/batch]; [texts] is [None] when
    the property is not an array. *)
Module BatchBody.
Record t : Type := {
  texts : option (list BatchItem.t);
  language : option jsstring;
  user_preferences : option RequestPreferences.t
}.
End BatchBody.

(** What a handler reads of the outside while it serves a request: the
    two readings of [Date.now()], the value of
    [new Date().toISOString()], and the message of the error the engine
    throws, if it throws. *)
Module Outside.
Record t : Type := {
  startTime : Z;
  endTime : Z;
  isoTime : jsstring;
  errorMessage : jsstring
}.
End Outside.

Module ResponseMetadata.
Record t : Type := {
  processing_time_ms : Z;
  timestamp : jsstring;
  text_length : nat;
  language : jsstring
}.
End ResponseMetadata.

(** [{ ...analysis, metadata: {...} }]: the fields of the analysis, its
    [metadata] replaced. *)
Module AnalyzeResponse.
Record t : Type := {
  risk_score : float;
  risk_level : RiskLevel;
  red_flags : list RedFlag.t;
  categories : list CategoryScore.t;
  benchmark : BenchmarkResult.t;
  clauses_analyzed : nat;
  confidence : float;
  metadata : ResponseMetadata.t
}.
End AnalyzeResponse.

Module ErrorBody.
Record t : Type := {
  error : jsstring;
  message : jsstring;
  fallback : option FallbackAnalysis.t
}.
End ErrorBody.

Module BatchMetadata.
Record t : Type := {
  batch_size : nat;
  timestamp : jsstring
}.
End BatchMetadata.

Inductive Response : Type :=
| Analysis (body : AnalyzeResponse.t)                  (* status 200 *)
| Analyses (analyses : list AnalysisResult.t)
           (metadata : BatchMetadata.t)                (* status 200 *)
| Failure (status : nat) (body : ErrorBody.t).

(** The server object: the engine its constructor builds. *)
Record ConsentLensServer : Type := {
  aiEngine : ConsentLensAIEngine
}.

Definition new_ConsentLensServer : ConsentLensServer :=
  {| aiEngine := constructor |}.

Section Server.
Context {platform : Platform}.

Definition analyzeLegalText (this : ConsentLensServer) (outside : Outside.t)
           (body : AnalyzeBody.t) : Response :=
  let text := AnalyzeBody.text body in
  let url := AnalyzeBody.url body in
  let language :=
    match AnalyzeBody.language body with
    | Some l => l | None => lit "en" end in
  let user_preferences :=
    match AnalyzeBody.user_preferences body with
    | Some p => p | None => RequestPreferences.empty end in
  match text with
  | None =>
      Failure 400
        {| ErrorBody.error := lit "Invalid input";
           ErrorBody.message :=
             lit "Text parameter is required and must be a non-empty string";
           ErrorBody.fallback := None |}
  | Some text =>
      if (length text =? 0)%nat || (length (trim text) =? 0)%nat then
        Failure 400
          {| ErrorBody.error := lit "Invalid input";
             ErrorBody.message :=
               lit "Text parameter is required and must be a non-empty string";
             ErrorBody.fallback := None |}
      else if (50000 <? Z.of_nat (length text))%Z then
        Failure 413
          {| ErrorBody.error := lit "Payload too large";
             ErrorBody.message :=
               lit "Text must be less than 50,000 characters";
             ErrorBody.fallback := None |}
      else
        let preferences := normalizePreferences user_preferences in
        match analyze (aiEngine this) text
                {| Options.url := url;
                   Options.language := Some language;
                   Options.user_preferences :=
                     Some (enginePreferences preferences) |} with
        | Some analysis =>
            let processingTime :=
              (Outside.endTime outside - Outside.startTime outside)%Z in
            Analysis
              {| AnalyzeResponse.risk_score :=
                   AnalysisResult.risk_score analysis;
                 AnalyzeResponse.risk_level :=
                   AnalysisResult.risk_level analysis;
                 AnalyzeResponse.red_flags :=
                   AnalysisResult.red_flags analysis;
                 AnalyzeResponse.categories :=
                   AnalysisResult.categories analysis;
                 AnalyzeResponse.benchmark :=
                   AnalysisResult.benchmark analysis;
                 AnalyzeResponse.clauses_analyzed :=
                   AnalysisResult.clauses_analyzed analysis;
                 AnalyzeResponse.confidence :=
                   AnalysisResult.confidence analysis;
                 AnalyzeResponse.metadata :=
                   {| ResponseMetadata.processing_time_ms := processingTime;
                      ResponseMetadata.timestamp := Outside.isoTime outside;
                      ResponseMetadata.text_length := length text;
                      ResponseMetadata.language := language |} |}
        | None =>
            Failure 500
              {| ErrorBody.error := lit "Analysis failed";
                 ErrorBody.message := Outside.errorMessage outside;
                 ErrorBody.fallback := Some getFallbackAnalysis |}
        end
  end.

(** The loop of [analyzeBatch]: [None] as soon as a call throws. *)
Fixpoint analyzeEach (this : ConsentLensServer) (language : jsstring)
         (preferences : RequestPreferences.t) (texts : list BatchItem.t)
         (analyses : list AnalysisResult.t)
  : option (list AnalysisResult.t) :=
  match texts with
  | [] => Some analyses
  | item :: texts' =>
      match BatchItem.text item with
      | None => None   (* [text.replace] of [undefined] throws *)
      | Some text =>
          match analyze (aiEngine this) text
                  {| Options.url := BatchItem.url item;
                     Options.language := Some language;
                     Options.user_preferences :=
                       Some (enginePreferences preferences) |} with
          | Some analysis =>
              analyzeEach this language preferences texts'
                          (analyses ++ [analysis])
          | None => None
          end
      end
  end.

Definition analyzeBatch (this : ConsentLensServer) (outside : Outside.t)
           (body : BatchBody.t) : Response :=
  let language :=
    match BatchBody.language body with
    | Some l => l | None => lit "en" end in
  let user_preferences :=
    match BatchBody.user_preferences body with
    | Some p => p | None => RequestPreferences.empty end in
  let invalid :=
    Failure 400
      {| ErrorBody.error := lit "Invalid input";
         ErrorBody.message := lit "Texts must be an array with 1-10 items";
         ErrorBody.fallback := None |} in
  match BatchBody.texts body with
  | None => invalid
  | Some texts =>
      if (length texts =? 0)%nat || (10 <? length texts)%nat then invalid
      else
        let preferences := normalizePreferences user_preferences in
        match analyzeEach this language preferences texts [] with
        | Some analyses =>
            Analyses analyses
              {| BatchMetadata.batch_size := length texts;
                 BatchMetadata.timestamp := Outside.isoTime outside |}
        | None =>
            Failure 500
              {| ErrorBody.error := lit "Batch analysis failed";
                 ErrorBody.message := Outside.errorMessage outside;
                 ErrorBody.fallback := None |}
        end
  end.

(** The options a caller would give the engine for a request, taken from
    the body as it is. *)
Definition optionsOf (url language : option jsstring)
           (user_preferences : option RequestPreferences.t) : Options.t :=
  {| Options.url := url;
     Options.language := language;
     Options.user_preferences :=
       option_map enginePreferences user_preferences |}.

End Server.

(** The HTTP status of a response. *)
Definition statusOf (response : Response) : nat :=
  match response with
  | Analysis _ => 200
  | Analyses _ _ => 200
  | Failure status _ => status
  end.

(** A request for the arbitration text, and what the handlers read of the
    outside while serving it. *)
Definition arbitration_body : AnalyzeBody.t :=
  {| AnalyzeBody.text := Some arbitration_text;
     AnalyzeBody.url := None;
     AnalyzeBody.language := None;
     AnalyzeBody.user_preferences := None |}.

Definition some_outside : Outside.t :=
  {| Outside.startTime := 1000;
     Outside.endTime := 1003;
     Outside.isoTime := lit "2024-01-01T00:00:00.000Z";
     Outside.errorMessage := lit "Invalid URL" |}.

(* ================================================================== *)
(** * Binary64: the rounding and the operations of [SpecFloat] *)

Module Binary64Facts.
Import Binary64.
Local Open Scope Q_scope.

Lemma bpow_pos e : 0 < bpow e.
Proof. apply Qpower_0_lt. reflexivity. Qed.

Lemma bpow_add a b : bpow (a + b) == bpow a * bpow b.
Proof. apply Qpower_plus. discriminate. Qed.

Lemma bpow_le a b : (a <= b)%Z -> bpow a <= bpow b.
Proof. intros H. apply Qpower_le_compat_l; [exact H|discriminate]. Qed.

Lemma bpow_lt a b : (a < b)%Z -> bpow a < bpow b.
Proof. intros H. apply Qpower_lt_compat_l; [exact H|reflexivity]. Qed.

Lemma bpow_lt_inv a b : bpow a < bpow b -> (a < b)%Z.
Proof. intros H. apply Qpower_lt_compat_l_inv with (q := 2); [exact H|reflexivity]. Qed.

Lemma bpow_Z n : (0 <= n)%Z -> bpow n == inject_Z (2 ^ n).
Proof. intros H. unfold bpow. now rewrite Zpower_Qpower. Qed.

Lemma bpow_0 : bpow 0 == 1.
Proof. reflexivity. Qed.

Lemma bpow_S e : bpow (e + 1) == 2 * bpow e.
Proof. rewrite bpow_add. change (bpow 1) with 2. ring. Qed.

Lemma bpow_opp e : bpow (- e) == / bpow e.
Proof. apply Qpower_opp. Qed.

Lemma bpow_sub a b : bpow (a - b) == bpow a / bpow b.
Proof.
  unfold Z.sub. rewrite bpow_add, bpow_opp. reflexivity.
Qed.

(* rne *)

Lemma rne_floor x :
  (Qfloor x <= rne x <= Qfloor x + 1)%Z.
Proof.
  unfold rne. cbv zeta.
  destruct (Qcompare _ _); [destruct (Z.even _)| |]; lia.
Qed.

Lemma rne_Z (z : Z) : rne (inject_Z z) = z.
Proof.
  unfold rne. cbv zeta. rewrite Qfloor_Z.
  assert (E : inject_Z z - inject_Z z == 0) by ring.
  rewrite E. reflexivity.
Qed.

Lemma rne_compat x y : x == y -> rne x = rne y.
Proof.
  intros E. unfold rne. cbv zeta.
  assert (Ef : Qfloor x = Qfloor y).
  { apply Z.le_antisymm; apply Qfloor_resp_le; rewrite E; apply Qle_refl. }
  rewrite Ef, E. reflexivity.
Qed.

Lemma rne_le x y : x <= y -> (rne x <= rne y)%Z.
Proof.
  intros H.
  pose proof (Qfloor_resp_le _ _ H) as Hf.
  pose proof (rne_floor x) as Hx. pose proof (rne_floor y) as Hy.
  destruct (Z.eq_dec (Qfloor x) (Qfloor y)) as [E|N]; [|lia].
  unfold rne in *. cbv zeta in *. rewrite <- E in *.
  destruct (Qcompare_spec (x - inject_Z (Qfloor x)) (1 # 2)) as [Cx|Cx|Cx];
    destruct (Qcompare_spec (y - inject_Z (Qfloor x)) (1 # 2)) as [Cy|Cy|Cy];
    try (destruct (Z.even (Qfloor x))); try lia; exfalso; lra.
Qed.

Lemma rne_nonneg x : 0 <= x -> (0 <= rne x)%Z.
Proof.
  intros H. apply rne_le in H. exact H.
Qed.

Lemma rne_bounds (lo hi : Z) x :
  inject_Z lo <= x <= inject_Z hi -> (lo <= rne x <= hi)%Z.
Proof.
  intros [H1 H2]. apply rne_le in H1, H2.
  rewrite rne_Z in H1, H2. lia.
Qed.

(* mag *)

Lemma Zlog2_bounds (n : Z) :
  (0 < n)%Z -> inject_Z (2 ^ Z.log2 n) <= inject_Z n /\
               inject_Z n < inject_Z (2 ^ (Z.log2 n + 1)).
Proof.
  intros H. pose proof (Z.log2_spec n H) as [H1 H2].
  split; [rewrite <- Zle_Qle|rewrite <- Zlt_Qlt]; [lia|].
  now rewrite Z.add_1_r.
Qed.

Lemma mag_spec v : 0 < v -> bpow (mag v - 1) <= v /\ v < bpow (mag v).
Proof.
  intros Hv. unfold mag. cbv zeta.
  destruct v as [n d]. cbn [Qnum Qden].
  assert (Hn : (0 < n)%Z).
  { unfold Qlt in Hv. simpl in Hv. lia. }
  pose proof (Zlog2_bounds Hn) as [Hn1 Hn2].
  assert (Hd : (0 < Zpos d)%Z) by lia.
  pose proof (Zlog2_bounds Hd) as [Hd1 Hd2].
  pose proof (Z.log2_nonneg n) as Ln.
  pose proof (Z.log2_nonneg (Zpos d)) as Ld.
  rewrite <- !bpow_Z in Hn1, Hn2, Hd1, Hd2 by lia.
  set (a := Z.log2 n) in *. set (b := Z.log2 (Zpos d)) in *.
  assert (Ev : n # d == inject_Z n / inject_Z (Zpos d)).
  { rewrite Qmake_Qdiv. reflexivity. }
  assert (Hdp : 0 < inject_Z (Zpos d)) by reflexivity.
  assert (Lo : bpow (a - b - 1) < n # d).
  { rewrite Ev. apply Qlt_shift_div_l; [exact Hdp|].
    apply Qlt_le_trans with (bpow (a - b - 1) * bpow (b + 1)).
    - apply Qmult_lt_l; [apply bpow_pos|exact Hd2].
    - rewrite <- bpow_add. replace (a - b - 1 + (b + 1))%Z with a by lia.
      exact Hn1. }
  assert (Hi : n # d < bpow (a - b + 1)).
  { rewrite Ev. apply Qlt_shift_div_r; [exact Hdp|].
    apply Qlt_le_trans with (bpow (a + 1)); [exact Hn2|].
    replace (a + 1)%Z with (a - b + 1 + b)%Z by lia.
    rewrite bpow_add. apply Qmult_le_l; [apply bpow_pos|exact Hd1]. }
  destruct (Qle_bool (bpow (a - b)) (n # d)) eqn:E.
  - apply Qle_bool_iff in E.
    replace (a - b + 1 - 1)%Z with (a - b)%Z by lia. split; assumption.
  - split; [apply Qlt_le_weak; exact Lo|].
    apply Qnot_le_lt. intros H. apply Qle_bool_iff in H. congruence.
Qed.

Lemma mag_unique v e : bpow (e - 1) <= v -> v < bpow e -> mag v = e.
Proof.
  intros H1 H2.
  assert (Hv : 0 < v) by (eapply Qlt_le_trans; [apply bpow_pos|exact H1]).
  pose proof (mag_spec Hv) as [M1 M2].
  assert (A : (e - 1 < mag v)%Z).
  { apply bpow_lt_inv. eapply Qle_lt_trans; eassumption. }
  assert (B : (mag v - 1 < e)%Z).
  { apply bpow_lt_inv. eapply Qle_lt_trans; eassumption. }
  lia.
Qed.

Lemma mag_le x y : 0 < x -> x <= y -> (mag x <= mag y)%Z.
Proof.
  intros Hx Hxy.
  assert (Hy : 0 < y) by (eapply Qlt_le_trans; eassumption).
  pose proof (mag_spec Hx) as [X1 X2]. pose proof (mag_spec Hy) as [Y1 Y2].
  assert (A : (mag x - 1 < mag y)%Z).
  { apply bpow_lt_inv. eapply Qle_lt_trans; [exact X1|].
    eapply Qle_lt_trans; eassumption. }
  lia.
Qed.

Lemma mag_compat x y : 0 < x -> x == y -> mag x = mag y.
Proof.
  intros Hx E. pose proof (mag_spec Hx) as [X1 X2].
  symmetry. apply mag_unique; rewrite <- E; assumption.
Qed.

Lemma cexp_eq v : cexp v = Z.max (mag v - 53) (-1074).
Proof. reflexivity. Qed.

Lemma Qdiv_bpow_le x y e : x <= y -> x / bpow e <= y / bpow e.
Proof.
  intros H. unfold Qdiv. apply Qmult_le_compat_r; [exact H|].
  apply Qlt_le_weak, Qinv_lt_0_compat, bpow_pos.
Qed.

Lemma Qdiv_bpow v a b : v / bpow a == v * bpow (b - a) / bpow b.
Proof.
  rewrite bpow_sub. field. split; apply Qnot_eq_sym, Qlt_not_eq, bpow_pos.
Qed.

Lemma Qlt_div_bpow v a e : v < bpow a -> v / bpow e < bpow (a - e).
Proof.
  intros H. rewrite bpow_sub. unfold Qdiv.
  apply Qmult_lt_compat_r; [apply Qinv_lt_0_compat, bpow_pos|exact H].
Qed.

Lemma Qle_div_bpow v a e : bpow a <= v -> bpow (a - e) <= v / bpow e.
Proof.
  intros H. rewrite bpow_sub. apply Qdiv_bpow_le. exact H.
Qed.

Lemma rm_upper v : 0 < v -> (rne (v / bpow (cexp v)) <= 2 ^ 53)%Z.
Proof.
  intros Hv. pose proof (mag_spec Hv) as [_ H2].
  apply (@Qlt_div_bpow _ _ (cexp v)) in H2.
  assert (H : v / bpow (cexp v) <= inject_Z (2 ^ 53)).
  { apply Qlt_le_weak. eapply Qlt_le_trans; [exact H2|].
    rewrite <- bpow_Z by lia. apply bpow_le. rewrite cexp_eq. lia. }
  apply rne_le in H. now rewrite rne_Z in H.
Qed.

Lemma rm_lower v :
  0 < v -> (-1074 < cexp v)%Z -> (2 ^ 52 <= rne (v / bpow (cexp v)))%Z.
Proof.
  intros Hv Hc. pose proof (mag_spec Hv) as [H1 _].
  apply (@Qle_div_bpow _ _ (cexp v)) in H1.
  assert (H : inject_Z (2 ^ 52) <= v / bpow (cexp v)).
  { eapply Qle_trans; [|exact H1].
    rewrite <- bpow_Z by lia. apply bpow_le. rewrite cexp_eq in *. lia. }
  apply rne_le in H. now rewrite rne_Z in H.
Qed.

Lemma rm_nonneg v : 0 < v -> (0 <= rne (v / bpow (cexp v)))%Z.
Proof.
  intros Hv. apply rne_nonneg. apply Qle_shift_div_l; [apply bpow_pos|].
  rewrite Qmult_0_l. now apply Qlt_le_weak.
Qed.

Lemma F2Q_le m1 m2 e : (m1 <= m2)%Z -> F2Q m1 e <= F2Q m2 e.
Proof.
  intros H. unfold F2Q. apply Qmult_le_compat_r.
  - now rewrite <- Zle_Qle.
  - apply Qlt_le_weak, bpow_pos.
Qed.

Lemma F2Q_bpow n e : (0 <= n)%Z -> F2Q (2 ^ n) e == bpow (n + e).
Proof.
  intros H. unfold F2Q. rewrite <- bpow_Z by exact H. now rewrite bpow_add.
Qed.

Lemma cexp_le x y : 0 < x -> x <= y -> (cexp x <= cexp y)%Z.
Proof.
  intros Hx Hxy. pose proof (mag_le Hx Hxy). rewrite !cexp_eq. lia.
Qed.

Lemma rval_le x y : 0 < x -> x <= y -> rval x <= rval y.
Proof.
  intros Hx Hxy.
  assert (Hy : 0 < y) by (eapply Qlt_le_trans; eassumption).
  pose proof (cexp_le Hx Hxy) as Hc. unfold rval.
  destruct (Z.eq_dec (cexp x) (cexp y)) as [E|N].
  - rewrite E. apply F2Q_le. apply rne_le. now apply Qdiv_bpow_le.
  - apply Qle_trans with (bpow (53 + cexp x)).
    + rewrite <- F2Q_bpow by lia. apply F2Q_le. now apply rm_upper.
    + apply Qle_trans with (bpow (52 + cexp y)).
      * apply bpow_le. lia.
      * rewrite <- F2Q_bpow by lia. apply F2Q_le. apply rm_lower; [exact Hy|].
        rewrite (cexp_eq x) in *. lia.
Qed.

Lemma digits2_log2 (m : positive) :
  Zpos (digits2_pos m) = (Z.log2 (Zpos m) + 1)%Z.
Proof.
  assert (H : forall p, digits2_pos p = Pos.size p).
  { induction p; simpl; congruence. }
  destruct m; simpl; rewrite ?H; lia.
Qed.

Lemma digits2_bounds (m : positive) :
  (2 ^ (Zpos (digits2_pos m) - 1) <= Zpos m < 2 ^ Zpos (digits2_pos m))%Z.
Proof.
  rewrite digits2_log2.
  pose proof (Z.log2_spec (Zpos m) ltac:(lia)) as H.
  replace (Z.log2 (Zpos m) + 1 - 1)%Z with (Z.log2 (Zpos m)) by lia.
  replace (Z.log2 (Zpos m) + 1)%Z with (Z.succ (Z.log2 (Zpos m))) by lia.
  exact H.
Qed.

Lemma bounded_canonical m e :
  bounded prec emax m e = true <-> canonical m e.
Proof.
  unfold bounded, canonical_mantissa, fexp, SpecFloat.emin, prec, emax,
    canonical.
  rewrite andb_true_iff, Z.eqb_eq, Z.leb_le.
  pose proof (digits2_bounds m) as [D1 D2].
  pose proof (Pos2Z.is_pos (digits2_pos m)) as Dp.
  set (d := Zpos (digits2_pos m)) in *.
  split.
  - intros [Hc He].
    destruct (Z.le_gt_cases 53 d) as [Hd|Hd].
    + assert (d = 53)%Z by lia. subst d.
      replace (Zpos (digits2_pos m)) with 53%Z in * by lia.
      change (2 ^ (53 - 1))%Z with (2 ^ 52)%Z in D1. lia.
    + assert (He' : e = (-1074)%Z) by lia.
      assert (2 ^ d <= 2 ^ 52)%Z by (apply Z.pow_le_mono_r; lia).
      assert (2 ^ 52 < 2 ^ 53)%Z by reflexivity. lia.
  - intros (Hm & He & Hc).
    assert (Hd : (d <= 53)%Z).
    { destruct (Z.le_gt_cases d 53) as [H|H]; [exact H|exfalso].
      assert (2 ^ 53 <= 2 ^ (d - 1))%Z by (apply Z.pow_le_mono_r; lia). lia. }
    destruct Hc as [Hc|Hc]; [|lia].
    assert (d = 53)%Z.
    { destruct (Z.le_gt_cases 53 d) as [H|H]; [lia|exfalso].
      assert (2 ^ d <= 2 ^ 52)%Z by (apply Z.pow_le_mono_r; lia). lia. }
    lia.
Qed.

Lemma F2Q_lt m1 m2 e : (m1 < m2)%Z -> F2Q m1 e < F2Q m2 e.
Proof.
  intros H. unfold F2Q. apply Qmult_lt_compat_r; [apply bpow_pos|].
  now rewrite <- Zlt_Qlt.
Qed.

Lemma F2Q_pos m e : (0 < m)%Z -> 0 < F2Q m e.
Proof.
  intros H. unfold F2Q. apply Qmult_lt_0_compat; [|apply bpow_pos].
  now rewrite <- (Zlt_Qlt 0).
Qed.

Lemma F2Q_opp m e : F2Q (- m) e == - F2Q m e.
Proof. unfold F2Q. rewrite inject_Z_opp. ring. Qed.

Lemma canonical_exp_lt m1 e1 m2 e2 :
  canonical m1 e1 -> canonical m2 e2 -> (e1 < e2)%Z ->
  F2Q (Zpos m1) e1 < F2Q (Zpos m2) e2.
Proof.
  intros (A1 & A2 & A3) (B1 & B2 & B3) H.
  apply Qlt_le_trans with (bpow (53 + e1)).
  - rewrite <- F2Q_bpow by lia. now apply F2Q_lt.
  - apply Qle_trans with (bpow (52 + e2)); [apply bpow_le; lia|].
    rewrite <- F2Q_bpow by lia. apply F2Q_le. lia.
Qed.

Lemma Qcompare_Lt a b : a < b -> Qcompare a b = Lt.
Proof. intros H. now apply Qlt_alt. Qed.

Lemma Qcompare_Gt a b : b < a -> Qcompare a b = Gt.
Proof. intros H. now apply Qgt_alt. Qed.

Lemma Qcompare_opp a b : Qcompare (- a) (- b) = CompOpp (Qcompare a b).
Proof.
  destruct (Qcompare_spec a b) as [H|H|H]; simpl.
  - apply Qeq_alt. now rewrite H.
  - apply Qcompare_Gt. lra.
  - apply Qcompare_Lt. lra.
Qed.

Lemma F2Q_compare m1 m2 e :
  Qcompare (F2Q m1 e) (F2Q m2 e) = Z.compare m1 m2.
Proof.
  destruct (Z.compare_spec m1 m2) as [H|H|H].
  - subst. apply Qeq_alt. reflexivity.
  - apply Qcompare_Lt. now apply F2Q_lt.
  - apply Qcompare_Gt. now apply F2Q_lt.
Qed.

Lemma compare_canonical m1 e1 m2 e2 :
  canonical m1 e1 -> canonical m2 e2 ->
  match Z.compare e1 e2 with
  | Lt => Lt | Gt => Gt | Eq => Pos.compare_cont Eq m1 m2
  end = Qcompare (F2Q (Zpos m1) e1) (F2Q (Zpos m2) e2).
Proof.
  intros H1 H2. destruct (Z.compare_spec e1 e2) as [H|H|H].
  - subst. rewrite F2Q_compare. reflexivity.
  - symmetry. apply Qcompare_Lt. now apply canonical_exp_lt.
  - symmetry. apply Qcompare_Gt. now apply canonical_exp_lt.
Qed.

(** On binary64 values the comparison of [SpecFloat] is the comparison of
    the real values. *)
Lemma SFcompare_Q x y :
  valid x -> valid y -> finite x = true -> finite y = true ->
  SFcompare x y = Some (Qcompare (SF2Q x) (SF2Q y)).
Proof.
  unfold valid.
  destruct x as [sx|sx| |sx mx ex], y as [sy|sy| |sy my ey];
    try discriminate; cbn [valid_binary SF2Q SFcompare]; intros Vx Vy _ _.
  - reflexivity.
  - f_equal. symmetry. destruct sy; cbn [cond_Zopp].
    + apply Qcompare_Gt. rewrite F2Q_opp.
      pose proof (@F2Q_pos (Zpos my) ey ltac:(lia)). lra.
    + apply Qcompare_Lt. apply F2Q_pos. lia.
  - f_equal. symmetry. destruct sx; cbn [cond_Zopp].
    + apply Qcompare_Lt. rewrite F2Q_opp.
      pose proof (@F2Q_pos (Zpos mx) ex ltac:(lia)). lra.
    + apply Qcompare_Gt. apply F2Q_pos. lia.
  - apply bounded_canonical in Vx, Vy. f_equal.
    pose proof (@F2Q_pos (Zpos mx) ex ltac:(lia)) as Px.
    pose proof (@F2Q_pos (Zpos my) ey ltac:(lia)) as Py.
    destruct sx, sy; cbn [cond_Zopp].
    + rewrite !F2Q_opp, Qcompare_opp, <- compare_canonical by assumption.
      destruct (Z.compare ex ey); reflexivity.
    + symmetry. apply Qcompare_Lt. rewrite F2Q_opp. lra.
    + symmetry. apply Qcompare_Gt. rewrite F2Q_opp. lra.
    + now apply compare_canonical.
Qed.

(** What the rounding of a positive rational is. *)
Lemma round_pos_cases s v :
  0 < v ->
  (round_pos s v = S754_zero s /\ rval v == 0) \/
  (exists m e, round_pos s v = S754_finite s m e /\ canonical m e /\
               F2Q (Zpos m) e == rval v) \/
  (round_pos s v = S754_infinity s /\ bpow 1024 <= rval v).
Proof.
  intros Hv. unfold round_pos, rval. cbv zeta.
  pose proof (rm_upper Hv) as Hu. pose proof (rm_nonneg Hv) as Hn.
  pose proof (rm_lower Hv) as Hl.
  assert (Hc : (-1074 <= cexp v)%Z) by (rewrite cexp_eq; lia).
  destruct (rne (v / bpow (cexp v))) as [|m|m] eqn:Em; [| |lia].
  - left. split; [reflexivity|]. unfold F2Q. ring.
  - right.
    destruct (Pos.eqb_spec m 9007199254740992) as [E|N].
    + subst m.
      assert (Ev : F2Q 9007199254740992 (cexp v)
                   == F2Q 4503599627370496 (cexp v + 1)).
      { unfold F2Q. rewrite bpow_S. ring. }
      destruct (Z.leb_spec (cexp v + 1) (emax - prec)) as [L|L];
        unfold emax, prec in L.
      * left. exists 4503599627370496%positive, (cexp v + 1)%Z.
        split; [reflexivity|]. split; [|now symmetry].
        unfold canonical. split; [reflexivity|]. split; [lia|].
        left. discriminate.
      * right. split; [reflexivity|]. rewrite Ev.
        change 4503599627370496%Z with (2 ^ 52)%Z.
        rewrite F2Q_bpow by lia. apply bpow_le. lia.
    + assert (Hm : (Zpos m < 2 ^ 53)%Z).
      { assert (Zpos m <> 2 ^ 53)%Z by (intros E; apply N; now injection E).
        lia. }
      destruct (Z.leb_spec (cexp v) (emax - prec)) as [L|L];
        unfold emax, prec in L.
      * left. exists m, (cexp v). split; [reflexivity|].
        split; [|reflexivity].
        unfold canonical. split; [exact Hm|]. split; [lia|].
        destruct (Z.eq_dec (cexp v) (-1074)) as [E|E]; [now right|left].
        apply Hl. lia.
      * right. split; [reflexivity|].
        apply Qle_trans with (bpow (52 + cexp v)); [apply bpow_le; lia|].
        rewrite <- F2Q_bpow by lia. apply F2Q_le. apply Hl. lia.
Qed.

Lemma canonical_valid s m e : canonical m e -> valid (S754_finite s m e).
Proof. intros H. unfold valid. simpl. now apply bounded_canonical. Qed.

Lemma canonical_below m e : canonical m e -> F2Q (Zpos m) e < bpow 1024.
Proof.
  intros (A1 & A2 & A3).
  apply Qlt_le_trans with (bpow (53 + e)).
  - rewrite <- F2Q_bpow by lia. now apply F2Q_lt.
  - apply bpow_le. lia.
Qed.

Lemma round_pos_valid s v : 0 < v -> valid (round_pos s v).
Proof.
  intros Hv.
  destruct (round_pos_cases s Hv) as [[-> _]|[(m & e & -> & Hc & _)|[-> _]]];
    try reflexivity.
  now apply canonical_valid.
Qed.

(** Rounding is monotone. *)
Lemma round_pos_le x y :
  0 < x -> x <= y ->
  SFleb (round_pos false x) (round_pos false y) = true.
Proof.
  intros Hx Hxy.
  assert (Hy : 0 < y) by (eapply Qlt_le_trans; eassumption).
  pose proof (rval_le Hx Hxy) as Hr.
  assert (Hx0 : 0 <= rval x).
  { unfold rval, F2Q. apply Qmult_le_0_compat.
    - rewrite <- (Zle_Qle 0). now apply rm_nonneg.
    - apply Qlt_le_weak, bpow_pos. }
  destruct (round_pos_cases false Hx)
    as [[-> X]|[(mx & ex & -> & Cx & X)|[-> X]]];
    destruct (round_pos_cases false Hy)
      as [[-> Y]|[(my & ey & -> & Cy & Y)|[-> Y]]];
    try reflexivity.
  - exfalso. pose proof (@F2Q_pos (Zpos mx) ex ltac:(lia)). lra.
  - unfold SFleb.
    rewrite SFcompare_Q by (try apply canonical_valid; auto).
    cbn [SF2Q cond_Zopp].
    destruct (Qcompare_spec (F2Q (Zpos mx) ex) (F2Q (Zpos my) ey));
      try reflexivity. exfalso. lra.
  - exfalso. pose proof (bpow_pos 1024). lra.
  - exfalso. pose proof (canonical_below Cy). lra.
Qed.

(** Rounding leaves a binary64 value as it is. *)
Lemma round_pos_exact s m e :
  canonical m e -> round_pos s (F2Q (Zpos m) e) = S754_finite s m e.
Proof.
  intros (A1 & A2 & A3).
  pose proof (digits2_bounds m) as [D1 D2].
  pose proof (Pos2Z.is_pos (digits2_pos m)) as Dp.
  set (d := Zpos (digits2_pos m)) in *.
  assert (Hd : (d <= 53)%Z).
  { destruct (Z.le_gt_cases d 53) as [H|H]; [exact H|exfalso].
    assert (2 ^ 53 <= 2 ^ (d - 1))%Z by (apply Z.pow_le_mono_r; lia). lia. }
  assert (Hmag : mag (F2Q (Zpos m) e) = (d + e)%Z).
  { apply mag_unique.
    - replace (d + e - 1)%Z with ((d - 1) + e)%Z by lia.
      rewrite <- F2Q_bpow by lia. now apply F2Q_le.
    - rewrite <- F2Q_bpow by lia. now apply F2Q_lt. }
  assert (Hc : cexp (F2Q (Zpos m) e) = e).
  { rewrite cexp_eq, Hmag. destruct A3 as [A3|A3]; [|lia].
    assert (d = 53)%Z.
    { destruct (Z.le_gt_cases 53 d) as [H|H]; [lia|exfalso].
      assert (2 ^ d <= 2 ^ 52)%Z by (apply Z.pow_le_mono_r; lia). lia. }
    lia. }
  unfold round_pos. cbv zeta. rewrite Hc.
  assert (Er : rne (F2Q (Zpos m) e / bpow e) = Zpos m).
  { transitivity (rne (inject_Z (Zpos m))); [|apply rne_Z].
    apply rne_compat. unfold F2Q. field.
    apply Qnot_eq_sym, Qlt_not_eq, bpow_pos. }
  rewrite Er.
  destruct (Pos.eqb_spec m 9007199254740992) as [E|N].
  - subst m. exfalso. revert A1. discriminate.
  - destruct (Z.leb_spec e (emax - prec)) as [L|L]; [reflexivity|].
    unfold emax, prec in L. lia.
Qed.

Lemma loc_of_compat f g : f == g -> loc_of f = loc_of g.
Proof.
  intros E. unfold loc_of.
  rewrite (Qcompare_comp f g E 0 0 (Qeq_refl 0)).
  rewrite (Qcompare_comp f g E (1 # 2) (1 # 2) (Qeq_refl (1 # 2))).
  reflexivity.
Qed.

Lemma located_compat mrs x y : x == y -> located mrs x -> located mrs y.
Proof.
  intros E (H0 & H1 & H2 & H3). unfold located.
  split; [exact H0|]. split; [lra|]. split; [lra|].
  rewrite H3. apply loc_of_compat. lra.
Qed.

Lemma shr_1_eq m r s :
  (0 <= m)%Z ->
  shr_1 {| shr_m := m; shr_r := r; shr_s := s |}
  = {| shr_m := Z.div2 m; shr_r := Z.odd m; shr_s := r || s |}.
Proof.
  intros H. destruct m as [|p|p]; [reflexivity| |lia].
  destruct p; reflexivity.
Qed.

Lemma loc_of_zero f : f == 0 -> loc_of f = loc_Exact.
Proof. intros E. unfold loc_of. rewrite E. reflexivity. Qed.

Lemma loc_of_pos f : 0 < f -> loc_of f = loc_Inexact (Qcompare f (1 # 2)).
Proof.
  intros H. unfold loc_of. now rewrite (Qcompare_Gt H).
Qed.

Lemma located_bits m r s f :
  0 <= f -> f < 1 ->
  loc_of_shr_record {| shr_m := m; shr_r := r; shr_s := s |} = loc_of f ->
  (r || s = false /\ f == 0) \/ (r || s = true /\ 0 < f).
Proof.
  intros H0 H1 H.
  destruct (Qcompare_spec f 0) as [E|E|E]; [| lra |].
  - rewrite (loc_of_zero E) in H. left.
    destruct r, s; try discriminate. now split.
  - rewrite (loc_of_pos E) in H. right.
    destruct r, s; try discriminate; now split.
Qed.

Lemma shr_1_located mrs x : located mrs x -> located (shr_1 mrs) (x * (1 # 2)).
Proof.
  destruct mrs as [m r s]. unfold located. cbn [shr_m].
  intros (H0 & H1 & H2 & H3).
  rewrite shr_1_eq by exact H0. cbn [shr_m].
  pose proof (Z.div2_odd m) as Hm.
  assert (Hq : (0 <= Z.div2 m)%Z) by now apply Z.div2_nonneg.
  assert (Em : inject_Z m
               == 2 * inject_Z (Z.div2 m) + inject_Z (Z.b2z (Z.odd m))).
  { rewrite Hm at 1. rewrite inject_Z_plus, inject_Z_mult. reflexivity. }
  remember (Z.div2 m) as q. remember (Z.odd m) as b.
  assert (F0 : 0 <= x - inject_Z m) by lra.
  assert (F1 : x - inject_Z m < 1) by lra.
  destruct (@located_bits _ _ _ _ F0 F1 H3) as [[Hs Hf]|[Hs Hf]]; rewrite Hs;
    destruct b; cbn [Z.b2z] in Em;
    change (inject_Z 1) with 1 in Em;
    change (inject_Z 0) with 0 in Em;
    (split; [exact Hq|]);
    (split; [lra|]); (split; [lra|]);
    cbn [loc_of_shr_record].
  - assert (E : x * (1 # 2) - inject_Z q == 1 # 2) by lra.
    rewrite (loc_of_compat E). reflexivity.
  - assert (E : x * (1 # 2) - inject_Z q == 0) by lra.
    rewrite (loc_of_compat E). reflexivity.
  - rewrite loc_of_pos by lra.
    f_equal. symmetry. apply Qcompare_Gt. lra.
  - rewrite loc_of_pos by lra.
    f_equal. symmetry. apply Qcompare_Lt. lra.
Qed.

Lemma bpow_pos_double p : bpow (Zpos p~0) == bpow (Zpos p) * bpow (Zpos p).
Proof.
  assert (E : Zpos p~0 = (Zpos p + Zpos p)%Z) by lia.
  rewrite E, bpow_add. reflexivity.
Qed.

Lemma bpow_pos_double_1 p :
  bpow (Zpos p~1) == 2 * (bpow (Zpos p) * bpow (Zpos p)).
Proof.
  assert (E : Zpos p~1 = (Zpos p + Zpos p + 1)%Z) by lia.
  rewrite E, !bpow_add. change (bpow 1) with 2. ring.
Qed.

Lemma bpow_nonzero e : ~ bpow e == 0.
Proof. apply Qnot_eq_sym, Qlt_not_eq, bpow_pos. Qed.

Lemma iter_shr_1_located p :
  forall mrs x, located mrs x ->
                located (iter_pos shr_1 p mrs) (x / bpow (Zpos p)).
Proof.
  induction p as [p IH|p IH|]; intros mrs x H; cbn [iter_pos].
  - apply shr_1_located in H. apply IH in H. apply IH in H.
    revert H. apply located_compat.
    rewrite bpow_pos_double_1. field. apply bpow_nonzero.
  - apply IH in H. apply IH in H. revert H. apply located_compat.
    rewrite bpow_pos_double. field. apply bpow_nonzero.
  - apply shr_1_located in H. revert H. apply located_compat.
    change (bpow 1) with 2. field.
Qed.

Lemma shr_located mrs e n x :
  located mrs x -> (0 <= n)%Z ->
  snd (shr mrs e n) = (e + n)%Z /\ located (fst (shr mrs e n)) (x / bpow n).
Proof.
  intros H Hn. destruct n as [|p|p]; [| |lia]; cbn [shr fst snd].
  - split; [lia|]. revert H. apply located_compat.
    change (bpow 0) with 1. field.
  - split; [reflexivity|]. now apply iter_shr_1_located.
Qed.

Lemma Qfloor_unique (m : Z) x :
  inject_Z m <= x -> x < inject_Z m + 1 -> Qfloor x = m.
Proof.
  intros H1 H2.
  pose proof (Qfloor_le x) as F1. pose proof (Qlt_floor x) as F2.
  rewrite inject_Z_plus in F2. change (inject_Z 1) with 1 in F2.
  assert (A : inject_Z m < inject_Z (Qfloor x) + 1) by lra.
  assert (B : inject_Z (Qfloor x) < inject_Z m + 1) by lra.
  change 1 with (inject_Z 1) in A, B. rewrite <- inject_Z_plus in A, B.
  rewrite <- Zlt_Qlt in A, B. lia.
Qed.

Lemma round_nearest_even_located mrs x :
  located mrs x ->
  round_nearest_even (shr_m mrs) (loc_of_shr_record mrs) = rne x.
Proof.
  intros (H0 & H1 & H2 & H3). rewrite H3. unfold rne. cbv zeta.
  rewrite (Qfloor_unique H1 H2).
  set (f := x - inject_Z (shr_m mrs)) in *.
  destruct (Qcompare_spec f 0) as [E|E|E].
  - rewrite (loc_of_zero E), E. reflexivity.
  - exfalso. unfold f in E. lra.
  - rewrite (loc_of_pos E). cbn [round_nearest_even].
    destruct (Qcompare f (1 # 2)); reflexivity.
Qed.

Lemma located_of_loc m l x :
  (0 <= m)%Z -> inject_Z m <= x -> x < inject_Z m + 1 ->
  l = loc_of (x - inject_Z m) ->
  located (shr_record_of_loc m l) x.
Proof.
  intros H0 H1 H2 H3. unfold located.
  assert (Em : shr_m (shr_record_of_loc m l) = m).
  { destruct l as [|[]]; reflexivity. }
  rewrite Em. repeat split; auto.
  rewrite <- H3. destruct l as [|[]]; reflexivity.
Qed.

Lemma fexp_eq e : fexp prec emax e = Z.max (e - 53) (-1074).
Proof. reflexivity. Qed.

Lemma Zdigits2_pos_eq m : Zdigits2 (Zpos m) = Zpos (digits2_pos m).
Proof. reflexivity. Qed.

Lemma digits_unique m d :
  (2 ^ (d - 1) <= Zpos m < 2 ^ d)%Z -> Zpos (digits2_pos m) = d.
Proof.
  intros [H1 H2]. pose proof (digits2_bounds m) as [D1 D2].
  pose proof (Pos2Z.is_pos (digits2_pos m)).
  assert (Hd : (0 < d)%Z).
  { destruct (Z.lt_ge_cases 0 d) as [G|G]; [exact G|exfalso].
    assert (2 ^ d <= 2 ^ 0)%Z by (apply Z.pow_le_mono_r; lia).
    change (2 ^ 0)%Z with 1%Z in *. lia. }
  set (k := Zpos (digits2_pos m)) in *.
  destruct (Z.lt_trichotomy k d) as [L|[E|G]]; [exfalso|exact E|exfalso].
  - assert (2 ^ k <= 2 ^ (d - 1))%Z by (apply Z.pow_le_mono_r; lia). lia.
  - assert (2 ^ d <= 2 ^ (k - 1))%Z by (apply Z.pow_le_mono_r; lia). lia.
Qed.

Lemma Qdiv_le_inv a v e : a <= v / bpow e -> a * bpow e <= v.
Proof.
  intros H. pose proof (bpow_pos e) as P.
  apply Qmult_le_compat_r with (z := bpow e) in H; [|lra].
  eapply Qle_trans; [exact H|]. apply Qle_lteq. right. field.
  apply bpow_nonzero.
Qed.

Lemma Qdiv_lt_inv a v e : v / bpow e < a -> v < a * bpow e.
Proof.
  intros H. pose proof (bpow_pos e) as P.
  apply Qmult_lt_compat_r with (z := bpow e) in H; [|exact P].
  eapply Qle_lt_trans; [|exact H]. apply Qle_lteq. right. field.
  apply bpow_nonzero.
Qed.

(** The rounding of [SpecFloat] is the rounding to the nearest binary64
    value, whenever it is given enough digits. *)
Lemma binary_round_aux_correct s mx ex lx v :
  0 < v ->
  located (shr_record_of_loc mx lx) (v / bpow ex) ->
  (ex <= fexp prec emax (Zdigits2 mx + ex))%Z ->
  binary_round_aux prec emax s mx ex lx = round_pos s v.
Proof.
  intros Hv Hloc Hex.
  assert (Emx : shr_m (shr_record_of_loc mx lx) = mx).
  { destruct lx as [|[]]; reflexivity. }
  pose proof Hloc as (H0 & H1 & H2 & _). rewrite Emx in H0, H1, H2.
  assert (V1 : F2Q mx ex <= v) by (now apply Qdiv_le_inv).
  assert (V2 : v < F2Q (mx + 1) ex).
  { unfold F2Q. rewrite inject_Z_plus. change (inject_Z 1) with 1.
    now apply Qdiv_lt_inv. }
  assert (Hc : cexp v = fexp prec emax (Zdigits2 mx + ex)).
  { rewrite fexp_eq in *. rewrite cexp_eq.
    destruct mx as [|p|p]; [| |lia].
    - cbn [Zdigits2] in *.
      assert (Hm : (mag v <= ex)%Z).
      { pose proof (mag_spec Hv) as [M1 _].
        assert (L : bpow (mag v - 1) < bpow ex).
        { eapply Qle_lt_trans; [exact M1|].
          eapply Qlt_le_trans; [exact V2|].
          unfold F2Q. simpl. rewrite Qmult_1_l. apply Qle_refl. }
        apply bpow_lt_inv in L. lia. }
      lia.
    - rewrite Zdigits2_pos_eq in *.
      pose proof (digits2_bounds p) as [D1 D2].
      pose proof (Pos2Z.is_pos (digits2_pos p)) as Dp.
      set (d := Zpos (digits2_pos p)) in *.
      assert (Hm : mag v = (d + ex)%Z).
      { apply mag_unique.
        - eapply Qle_trans; [|exact V1].
          replace (d + ex - 1)%Z with ((d - 1) + ex)%Z by lia.
          rewrite <- F2Q_bpow by lia. now apply F2Q_le.
        - eapply Qlt_le_trans; [exact V2|].
          rewrite <- F2Q_bpow by lia. apply F2Q_le. lia. }
      rewrite Hm. reflexivity. }
  unfold binary_round_aux, shr_fexp.
  set (n := (fexp prec emax (Zdigits2 mx + ex) - ex)%Z) in *.
  assert (Hn : (0 <= n)%Z) by (unfold n; lia).
  destruct (shr_located ex Hloc Hn) as [He' Hloc'].
  destruct (shr (shr_record_of_loc mx lx) ex n) as [mrs' e'].
  cbn [fst snd] in He', Hloc'.
  assert (Ee : e' = cexp v) by (rewrite Hc; unfold n in He'; lia).
  assert (Hloc'' : located mrs' (v / bpow (cexp v))).
  { revert Hloc'. apply located_compat.
    rewrite Hc. unfold n. rewrite bpow_sub. field.
    split; apply bpow_nonzero. }
  rewrite (round_nearest_even_located Hloc'').
  unfold round_pos. cbv zeta.
  pose proof (rm_upper Hv) as Hu. pose proof (rm_nonneg Hv) as Hnn.
  assert (Hce : (-1074 <= cexp v)%Z) by (rewrite cexp_eq; lia).
  clear He' Hloc'. subst e'.
  destruct (rne (v / bpow (cexp v))) as [|m|m] eqn:Em; [| |lia].
  - cbn [Zdigits2 shr_record_of_loc]. rewrite fexp_eq.
    replace (Z.max (0 + cexp v - 53) (-1074) - cexp v)%Z
      with (Z.max (-53) (-1074 - cexp v))%Z by lia.
    destruct (Z.max (-53) (-1074 - cexp v))%Z eqn:Ez; try lia; reflexivity.
  - rewrite Zdigits2_pos_eq, fexp_eq. cbn [shr_record_of_loc].
    destruct (Pos.eqb_spec m 9007199254740992) as [E|N].
    + subst m.
      change (Zpos (digits2_pos 9007199254740992)) with 54%Z.
      replace (Z.max (54 + cexp v - 53) (-1074) - cexp v)%Z with 1%Z by lia.
      reflexivity.
    + assert (Hm : (Zpos m < 2 ^ 53)%Z).
      { assert (Zpos m <> 2 ^ 53)%Z by (intros E; apply N; now injection E).
        lia. }
      pose proof (digits2_bounds m) as [D1 D2].
      pose proof (Pos2Z.is_pos (digits2_pos m)) as Dp.
      set (d := Zpos (digits2_pos m)) in *.
      assert (Hd : (d <= 53)%Z).
      { destruct (Z.le_gt_cases d 53) as [H|H]; [exact H|exfalso].
        assert (2 ^ 53 <= 2 ^ (d - 1))%Z by (apply Z.pow_le_mono_r; lia).
        lia. }
      destruct (Z.max (d + cexp v - 53) (-1074) - cexp v)%Z eqn:Ez;
        try lia; reflexivity.
Qed.

Lemma located_exact (m : Z) x :
  (0 <= m)%Z -> x == inject_Z m -> located (shr_record_of_loc m loc_Exact) x.
Proof.
  intros H0 E. apply located_of_loc; [exact H0|lra|lra|].
  symmetry. apply loc_of_zero. lra.
Qed.

Lemma F2Q_div m e : F2Q m e / bpow e == inject_Z m.
Proof. unfold F2Q. field. apply bpow_nonzero. Qed.

Lemma iter_xO m d : Zpos (Pos.iter xO m d) = (Zpos m * 2 ^ Zpos d)%Z.
Proof.
  induction d using Pos.peano_ind.
  - simpl. lia.
  - rewrite Pos.iter_succ, Pos2Z.inj_xO, IHd, Pos2Z.inj_succ.
    rewrite Z.pow_succ_r by lia. ring.
Qed.

Lemma shl_align_spec mx ex ex' :
  let '(mz, ez) := shl_align mx ex ex' in
  (ez = Z.min ex ex') /\ Zpos mz = (Zpos mx * 2 ^ (ex - ez))%Z.
Proof.
  unfold shl_align. destruct (ex' - ex)%Z as [|d|d] eqn:E.
  - split; [lia|]. replace (ex - ex)%Z with 0%Z by lia. simpl. lia.
  - split; [lia|]. replace (ex - ex)%Z with 0%Z by lia. simpl. lia.
  - split; [lia|]. rewrite iter_xO. f_equal. f_equal. lia.
Qed.

Lemma F2Q_shift m e k :
  (0 <= k)%Z -> F2Q (m * 2 ^ k) (e - k) == F2Q m e.
Proof.
  intros H. unfold F2Q. rewrite inject_Z_mult, <- bpow_Z by exact H.
  rewrite <- Qmult_assoc, <- bpow_add.
  replace (k + (e - k))%Z with e by lia. reflexivity.
Qed.

Lemma round_pos_compat s v w : 0 < v -> v == w -> round_pos s v = round_pos s w.
Proof.
  intros Hv E. unfold round_pos, cexp. cbv zeta.
  rewrite (mag_compat Hv E).
  assert (Er : rne (v / bpow (fexp prec emax (mag w)))
               = rne (w / bpow (fexp prec emax (mag w)))).
  { apply rne_compat. now rewrite E. }
  rewrite Er. reflexivity.
Qed.

Lemma digits_shift m k mz :
  (0 <= k)%Z -> Zpos mz = (Zpos m * 2 ^ k)%Z ->
  Zpos (digits2_pos mz) = (Zpos (digits2_pos m) + k)%Z.
Proof.
  intros Hk E. apply digits_unique. rewrite E.
  pose proof (digits2_bounds m) as [D1 D2].
  pose proof (Pos2Z.is_pos (digits2_pos m)) as Dp.
  set (d := Zpos (digits2_pos m)) in *.
  replace (d + k - 1)%Z with ((d - 1) + k)%Z by lia.
  rewrite !Z.pow_add_r by lia.
  assert (0 < 2 ^ k)%Z by (apply Z.pow_pos_nonneg; lia).
  split; nia.
Qed.

Lemma binary_round_correct s m e :
  binary_round prec emax s m e = round_pos s (F2Q (Zpos m) e).
Proof.
  unfold binary_round.
  pose proof (shl_align_spec m e
                (fexp prec emax (Zpos (digits2_pos m) + e))) as H.
  destruct (shl_align m e _) as [mz ez]. destruct H as [Hez Hmz].
  assert (Hk : (0 <= e - ez)%Z) by lia.
  assert (Ev : F2Q (Zpos mz) ez == F2Q (Zpos m) e).
  { rewrite Hmz. replace ez with (e - (e - ez))%Z at 2 by lia.
    now apply F2Q_shift. }
  assert (Hv : 0 < F2Q (Zpos mz) ez) by (apply F2Q_pos; lia).
  rewrite <- (round_pos_compat s Hv Ev).
  apply binary_round_aux_correct.
  - exact Hv.
  - apply located_exact; [lia|]. apply F2Q_div.
  - rewrite Zdigits2_pos_eq, (digits_shift _ Hk Hmz).
    replace (Zpos (digits2_pos m) + (e - ez) + ez)%Z
      with (Zpos (digits2_pos m) + e)%Z by lia.
    lia.
Qed.

Lemma binary_normalize_correct z e :
  binary_normalize prec emax z e false = round false (F2Q z e).
Proof.
  unfold binary_normalize, round. destruct z as [|m|m].
  - assert (E : F2Q 0 e == 0) by (unfold F2Q; ring).
    rewrite (Qcompare_comp _ _ E 0 0 (Qeq_refl 0)). reflexivity.
  - rewrite (Qcompare_Gt (@F2Q_pos (Zpos m) e ltac:(lia))).
    apply binary_round_correct.
  - assert (E : F2Q (Zneg m) e == - F2Q (Zpos m) e).
    { change (Zneg m) with (- Zpos m)%Z. apply F2Q_opp. }
    pose proof (@F2Q_pos (Zpos m) e ltac:(lia)) as P.
    assert (L : F2Q (Zneg m) e < 0) by lra.
    rewrite (Qcompare_Lt L). rewrite binary_round_correct.
    apply round_pos_compat; [exact P|]. rewrite E. ring.
Qed.

(** ** Addition *)

Lemma shl_align_value m e ez :
  (ez <= e)%Z ->
  F2Q (Zpos (fst (shl_align m e ez))) ez == F2Q (Zpos m) e.
Proof.
  intros H. pose proof (shl_align_spec m e ez) as S.
  destruct (shl_align m e ez) as [mz ez']. destruct S as [S1 S2].
  cbn [fst]. rewrite S2. replace ez' with ez by lia.
  replace ez with (e - (e - ez))%Z at 2 by lia.
  apply F2Q_shift. lia.
Qed.

Lemma F2Q_add a b e : F2Q (a + b) e == F2Q a e + F2Q b e.
Proof. unfold F2Q. rewrite inject_Z_plus. ring. Qed.

Lemma F2Q_cond_Zopp s m e :
  F2Q (cond_Zopp s m) e == if s then - F2Q m e else F2Q m e.
Proof. destruct s; simpl; [apply F2Q_opp|reflexivity]. Qed.

Lemma SF2Q_finite s m e :
  SF2Q (S754_finite s m e)
  == if s then - F2Q (Zpos m) e else F2Q (Zpos m) e.
Proof. cbn [SF2Q]. apply F2Q_cond_Zopp. Qed.

Lemma SFadd_finite sx mx ex sy my ey :
  SFadd prec emax (S754_finite sx mx ex) (S754_finite sy my ey)
  = round false (SF2Q (S754_finite sx mx ex) + SF2Q (S754_finite sy my ey)).
Proof.
  cbn [SFadd]. cbv zeta. rewrite binary_normalize_correct.
  unfold round.
  match goal with
  | |- match Qcompare ?a 0 with _ => _ end = match Qcompare ?b 0 with _ => _ end =>
      assert (E : a == b)
  end.
  { rewrite F2Q_add. cbn [SF2Q].
    destruct sx, sy; cbn [cond_Zopp];
      rewrite ?F2Q_opp, !shl_align_value by lia; reflexivity. }
  rewrite (Qcompare_comp _ _ E 0 0 (Qeq_refl 0)).
  destruct (Qcompare_spec
              (SF2Q (S754_finite sx mx ex) + SF2Q (S754_finite sy my ey)) 0)
    as [H|H|H]; try reflexivity.
  - apply round_pos_compat; [lra|]. now rewrite E.
  - apply round_pos_compat; [lra|]. exact E.
Qed.

Lemma SFsub_add x y : SFsub prec emax x y = SFadd prec emax x (SFopp y).
Proof.
  destruct x as [sx|sx| |sx mx ex], y as [sy|sy| |sy my ey];
    try reflexivity;
    try (destruct sx, sy; reflexivity).
Qed.

Lemma SF2Q_opp x : SF2Q (SFopp x) == - SF2Q x.
Proof.
  destruct x as [s|s| |s m e]; cbn [SFopp SF2Q]; try reflexivity.
  rewrite !F2Q_cond_Zopp. destruct s; cbn [negb]; ring.
Qed.

(** ** Multiplication *)

Lemma digits_mul mx my :
  (Zpos (digits2_pos mx) + Zpos (digits2_pos my) - 1
   <= Zpos (digits2_pos (mx * my)))%Z.
Proof.
  pose proof (digits2_bounds mx) as [X1 X2].
  pose proof (digits2_bounds my) as [Y1 Y2].
  pose proof (digits2_bounds (mx * my)) as [P1 P2].
  pose proof (Pos2Z.is_pos (digits2_pos mx)).
  pose proof (Pos2Z.is_pos (digits2_pos my)).
  pose proof (Pos2Z.is_pos (digits2_pos (mx * my))).
  set (dx := Zpos (digits2_pos mx)) in *.
  set (dy := Zpos (digits2_pos my)) in *.
  set (d := Zpos (digits2_pos (mx * my))) in *.
  rewrite Pos2Z.inj_mul in P1, P2.
  destruct (Z.le_gt_cases (dx + dy - 1) d) as [L|G]; [exact L|exfalso].
  assert (A : (2 ^ d <= 2 ^ (dx - 1 + (dy - 1)))%Z)
    by (apply Z.pow_le_mono_r; lia).
  rewrite Z.pow_add_r in A by lia.
  assert (0 < 2 ^ (dx - 1))%Z by (apply Z.pow_pos_nonneg; lia).
  assert (0 < 2 ^ (dy - 1))%Z by (apply Z.pow_pos_nonneg; lia).
  nia.
Qed.

Lemma canonical_digits m e :
  canonical m e ->
  (Zpos (digits2_pos m) = 53 \/ e = -1074)%Z /\
  (Zpos (digits2_pos m) <= 53)%Z.
Proof.
  intros (A1 & A2 & A3).
  pose proof (digits2_bounds m) as [D1 D2].
  pose proof (Pos2Z.is_pos (digits2_pos m)) as Dp.
  set (d := Zpos (digits2_pos m)) in *.
  assert (Hd : (d <= 53)%Z).
  { destruct (Z.le_gt_cases d 53) as [H|H]; [exact H|exfalso].
    assert (2 ^ 53 <= 2 ^ (d - 1))%Z by (apply Z.pow_le_mono_r; lia). lia. }
  split; [|exact Hd]. destruct A3 as [A3|A3]; [left|now right].
  destruct (Z.le_gt_cases 53 d) as [H|H]; [lia|exfalso].
  assert (2 ^ d <= 2 ^ 52)%Z by (apply Z.pow_le_mono_r; lia). lia.
Qed.

Lemma SFmul_finite sx mx ex sy my ey :
  canonical mx ex -> canonical my ey ->
  SFmul prec emax (S754_finite sx mx ex) (S754_finite sy my ey)
  = round_pos (xorb sx sy) (F2Q (Zpos mx) ex * F2Q (Zpos my) ey).
Proof.
  intros Cx Cy. cbn [SFmul].
  assert (Ev : F2Q (Zpos (mx * my)) (ex + ey)
               == F2Q (Zpos mx) ex * F2Q (Zpos my) ey).
  { unfold F2Q. rewrite Pos2Z.inj_mul, inject_Z_mult, bpow_add. ring. }
  assert (Hv : 0 < F2Q (Zpos (mx * my)) (ex + ey)) by (apply F2Q_pos; lia).
  rewrite <- (round_pos_compat _ Hv Ev).
  apply binary_round_aux_correct.
  - exact Hv.
  - apply located_exact; [lia|]. apply F2Q_div.
  - rewrite Zdigits2_pos_eq, fexp_eq.
    pose proof (digits_mul mx my) as Hd.
    pose proof (Pos2Z.is_pos (digits2_pos mx)).
    pose proof (Pos2Z.is_pos (digits2_pos my)).
    destruct (canonical_digits Cx) as [Dx Lx].
    destruct (canonical_digits Cy) as [Dy Ly].
    destruct Cx as (_ & Bx & _), Cy as (_ & By & _).
    lia.
Qed.

Lemma Qcompare_ratio (r n : Z) :
  (0 < n)%Z ->
  Qcompare (inject_Z r / inject_Z n) (1 # 2) = Z.compare (2 * r) n.
Proof.
  intros Hn.
  assert (Pn : 0 < inject_Z n) by (now rewrite <- (Zlt_Qlt 0)).
  assert (Nn : ~ inject_Z n == 0) by lra.
  destruct (Z.compare_spec (2 * r) n) as [H|H|H].
  - apply Qeq_alt. subst n. rewrite inject_Z_mult in *.
    change (inject_Z 2) with 2 in *. field. lra.
  - apply Qcompare_Lt. apply Qlt_shift_div_r; [exact Pn|].
    rewrite Zlt_Qlt, inject_Z_mult in H. change (inject_Z 2) with 2 in H. lra.
  - apply Qcompare_Gt. apply Qlt_shift_div_l; [exact Pn|].
    rewrite Zlt_Qlt, inject_Z_mult in H. change (inject_Z 2) with 2 in H. lra.
Qed.

Lemma new_location_correct (n r : Z) :
  (0 < n)%Z -> (0 <= r < n)%Z ->
  new_location n r = loc_of (inject_Z r / inject_Z n).
Proof.
  intros Hn [R0 R1].
  assert (Pn : 0 < inject_Z n) by (now rewrite <- (Zlt_Qlt 0)).
  unfold new_location.
  assert (Hodd : Z.even n = false ->
                 match Z.compare (2 * r + 1) n with
                 | Lt => Lt | Eq => Lt | Gt => Gt
                 end = Z.compare (2 * r) n).
  { intros Ev.
    assert (Ho : Z.odd n = true) by (rewrite <- Z.negb_even, Ev; reflexivity).
    apply Z.odd_spec in Ho. destruct Ho as [k Hk].
    destruct (Z.compare_spec (2 * r + 1) n);
      destruct (Z.compare_spec (2 * r) n); try reflexivity; lia. }
  destruct (Z.even n) eqn:Ev;
    unfold new_location_even, new_location_odd;
    (destruct (Z.eqb_spec r 0) as [E|N];
     [ subst r; rewrite loc_of_zero; [reflexivity|unfold Qdiv; ring]
     | assert (Pr : 0 < inject_Z r) by (rewrite <- (Zlt_Qlt 0); lia);
       rewrite loc_of_pos by (apply Qlt_shift_div_l; [exact Pn|lra]);
       rewrite Qcompare_ratio by exact Hn ]).
  - reflexivity.
  - f_equal. now apply Hodd.
Qed.

Lemma SFdiv_finite sx mx ex sy my ey :
  SFdiv prec emax (S754_finite sx mx ex) (S754_finite sy my ey)
  = round_pos (xorb sx sy) (F2Q (Zpos mx) ex / F2Q (Zpos my) ey).
Proof.
  cbn [SFdiv]. unfold SFdiv_core_binary. cbv zeta.
  rewrite !Zdigits2_pos_eq.
  pose proof (digits2_bounds mx) as [X1 X2].
  pose proof (digits2_bounds my) as [Y1 Y2].
  pose proof (Pos2Z.is_pos (digits2_pos mx)) as Px.
  pose proof (Pos2Z.is_pos (digits2_pos my)) as Py.
  set (d1 := Zpos (digits2_pos mx)) in *.
  set (d2 := Zpos (digits2_pos my)) in *.
  rewrite fexp_eq.
  set (e' := Z.min (Z.max (d1 + ex - (d2 + ey) - 53) (-1074)) (ex - ey)).
  set (s := (ex - ey - e')%Z).
  assert (Hs : (0 <= s)%Z) by (unfold s, e'; lia).
  set (m' := match s with
             | Zpos _ => Z.shiftl (Zpos mx) s
             | Z0 => Zpos mx
             | Zneg _ => 0%Z
             end).
  assert (Hm' : m' = (Zpos mx * 2 ^ s)%Z).
  { unfold m'. destruct s as [|p|p] eqn:Es; [simpl; lia| |lia].
    apply Z.shiftl_mul_pow2. lia. }
  clearbody m'.
  pose proof (Z_div_mod m' (Zpos my) ltac:(lia)) as Hdiv.
  destruct (Z.div_eucl m' (Zpos my)) as [q r]. destruct Hdiv as [Hq Hr].
  assert (P2 : (0 < 2 ^ s)%Z) by (apply Z.pow_pos_nonneg; lia).
  assert (Q0 : (0 <= q)%Z) by nia.
  assert (Pmy : 0 < inject_Z (Zpos my)) by reflexivity.
  assert (Py' : 0 < F2Q (Zpos my) ey) by (apply F2Q_pos; lia).
  assert (Px' : 0 < F2Q (Zpos mx) ex) by (apply F2Q_pos; lia).
  set (v := F2Q (Zpos mx) ex / F2Q (Zpos my) ey).
  assert (Hv : 0 < v).
  { unfold v. apply Qlt_shift_div_l; [exact Py'|lra]. }
  assert (Ev : v / bpow e'
               == inject_Z q + inject_Z r / inject_Z (Zpos my)).
  { assert (E1 : inject_Z m' == inject_Z (Zpos mx) * bpow s).
    { rewrite Hm', inject_Z_mult, <- bpow_Z by exact Hs. reflexivity. }
    assert (E2 : inject_Z m'
                 == inject_Z (Zpos my) * inject_Z q + inject_Z r).
    { rewrite Hq, inject_Z_plus, inject_Z_mult. reflexivity. }
    assert (E3 : bpow ex == bpow s * bpow ey * bpow e').
    { rewrite <- !bpow_add. unfold s. apply Qeq_alt.
      replace (ex - ey - e' + ey + e')%Z with ex by lia.
      now apply Qeq_alt. }
    unfold v, F2Q. rewrite E3.
    transitivity (inject_Z m' / inject_Z (Zpos my)).
    - rewrite E1. field. repeat split; try apply bpow_nonzero.
      apply Qnot_eq_sym, Qlt_not_eq, Pmy.
    - rewrite E2. field. apply Qnot_eq_sym, Qlt_not_eq, Pmy. }
  apply binary_round_aux_correct.
  - exact Hv.
  - apply located_of_loc.
    + exact Q0.
    + rewrite Ev.
      assert (0 <= inject_Z r / inject_Z (Zpos my)).
      { apply Qle_shift_div_l; [exact Pmy|].
        rewrite Qmult_0_l, <- (Zle_Qle 0). lia. }
      lra.
    + rewrite Ev.
      assert (inject_Z r / inject_Z (Zpos my) < 1).
      { apply Qlt_shift_div_r; [exact Pmy|].
        rewrite Qmult_1_l, <- Zlt_Qlt. lia. }
      lra.
    + rewrite (@new_location_correct (Zpos my) r ltac:(lia) Hr).
      apply loc_of_compat. rewrite Ev. ring.
  - rewrite fexp_eq.
    destruct (Z.le_gt_cases e' (-1074)) as [L|G]; [lia|].
    assert (S53 : (d2 - d1 + 53 <= s)%Z) by (unfold s, e' in *; lia).
    assert (Hq52 : (2 ^ 52 <= q)%Z).
    { assert (A : (2 ^ d2 * 2 ^ 52 <= m')%Z).
      { rewrite Hm', <- Z.pow_add_r by lia.
        apply Z.le_trans with (2 ^ (d1 - 1) * 2 ^ s)%Z; [|nia].
        rewrite <- Z.pow_add_r by lia. apply Z.pow_le_mono_r; lia. }
      assert (B : (Zpos my * 2 ^ 52 <= m')%Z) by nia.
      destruct (Z.le_gt_cases (2 ^ 52) q) as [H|H]; [exact H|exfalso].
      nia. }
    destruct q as [|pq|pq]; [discriminate Hq52 + lia| |lia].
    rewrite Zdigits2_pos_eq.
    pose proof (digits2_bounds pq) as [Q1 Q2].
    assert (Hd : (53 <= Zpos (digits2_pos pq))%Z).
    { destruct (Z.le_gt_cases 53 (Zpos (digits2_pos pq))) as [H|H];
        [exact H|exfalso].
      assert (2 ^ Zpos (digits2_pos pq) <= 2 ^ 52)%Z
        by (apply Z.pow_le_mono_r; lia).
      lia. }
    lia.
Qed.

Lemma ext_finite x : finite x = true -> ext x = SF2Q x.
Proof. destruct x; try discriminate; reflexivity. Qed.

Lemma SF2Q_range x :
  valid x -> finite x = true -> - bpow 1024 < SF2Q x /\ SF2Q x < bpow 1024.
Proof.
  intros V F. pose proof (bpow_pos 1024) as P.
  destruct x as [s|s| |s m e]; try discriminate; cbn [SF2Q]; [lra|].
  apply bounded_canonical in V. pose proof (canonical_below V) as B.
  pose proof (@F2Q_pos (Zpos m) e ltac:(lia)) as Pm.
  destruct s; cbn [cond_Zopp]; [rewrite F2Q_opp|]; lra.
Qed.

Lemma Qcompare_refl a : Qcompare a a = Eq.
Proof. apply Qeq_alt. reflexivity. Qed.

Lemma SFcompare_ext x y :
  valid x -> valid y -> is_nan x = false -> is_nan y = false ->
  SFcompare x y = Some (Qcompare (ext x) (ext y)).
Proof.
  intros Vx Vy Nx Ny. pose proof (bpow_pos 1024) as P.
  destruct (finite x) eqn:Fx, (finite y) eqn:Fy.
  - rewrite !ext_finite by assumption. now apply SFcompare_Q.
  - destruct y as [sy|sy| |sy my ey]; try discriminate.
    destruct (SF2Q_range Vx Fx) as [R1 R2].
    rewrite (ext_finite _ Fx). cbn [ext].
    destruct x as [sx|sx| |sx mx ex]; try discriminate; cbn [SFcompare];
      f_equal; symmetry; destruct sy;
      (apply Qcompare_Gt; assumption) || (apply Qcompare_Lt; assumption).
  - destruct x as [sx|sx| |sx mx ex]; try discriminate.
    destruct (SF2Q_range Vy Fy) as [R1 R2].
    rewrite (ext_finite _ Fy). cbn [ext].
    destruct y as [sy|sy| |sy my ey]; try discriminate; cbn [SFcompare];
      f_equal; symmetry; destruct sx;
      (apply Qcompare_Gt; assumption) || (apply Qcompare_Lt; assumption).
  - destruct x as [sx|sx| |sx mx ex], y as [sy|sy| |sy my ey];
      try discriminate. cbn [SFcompare ext]. f_equal. symmetry.
    destruct sx, sy; try apply Qcompare_refl;
      (apply Qcompare_Gt; lra) || (apply Qcompare_Lt; lra).
Qed.

Lemma SFleb_ext x y :
  valid x -> valid y -> is_nan x = false -> is_nan y = false ->
  (SFleb x y = true <-> ext x <= ext y).
Proof.
  intros Vx Vy Nx Ny. unfold SFleb. rewrite SFcompare_ext by assumption.
  destruct (Qcompare_spec (ext x) (ext y)) as [H|H|H]; split; intros G;
    try reflexivity; try discriminate; lra.
Qed.

Lemma SFltb_ext x y :
  valid x -> valid y -> is_nan x = false -> is_nan y = false ->
  (SFltb x y = true <-> ext x < ext y).
Proof.
  intros Vx Vy Nx Ny. unfold SFltb. rewrite SFcompare_ext by assumption.
  destruct (Qcompare_spec (ext x) (ext y)) as [H|H|H]; split; intros G;
    try reflexivity; try discriminate; lra.
Qed.

Lemma SFeqb_ext x y :
  valid x -> valid y -> is_nan x = false -> is_nan y = false ->
  (SFeqb x y = true <-> ext x == ext y).
Proof.
  intros Vx Vy Nx Ny. unfold SFeqb. rewrite SFcompare_ext by assumption.
  destruct (Qcompare_spec (ext x) (ext y)) as [H|H|H]; split; intros G;
    try reflexivity; try discriminate; lra.
Qed.

(** ** The rounding *)

Lemma round_compat zs v w : v == w -> round zs v = round zs w.
Proof.
  intros E. unfold round. rewrite (Qcompare_comp _ _ E 0 0 (Qeq_refl 0)).
  destruct (Qcompare_spec w 0) as [H|H|H]; try reflexivity.
  - apply round_pos_compat; [lra|]. now rewrite E.
  - apply round_pos_compat; [lra|exact E].
Qed.

Lemma round_pos_not_nan s v : 0 < v -> is_nan (round_pos s v) = false.
Proof.
  intros Hv.
  destruct (round_pos_cases s Hv) as [[-> _]|[(m & e & -> & _)|[-> _]]];
    reflexivity.
Qed.

Lemma round_valid zs v : valid (round zs v).
Proof.
  unfold round. destruct (Qcompare_spec v 0) as [H|H|H];
    [reflexivity|apply round_pos_valid; lra|now apply round_pos_valid].
Qed.

Lemma round_not_nan zs v : is_nan (round zs v) = false.
Proof.
  unfold round. destruct (Qcompare_spec v 0) as [H|H|H];
    [reflexivity|apply round_pos_not_nan; lra|now apply round_pos_not_nan].
Qed.

Lemma round_pos_sign v :
  0 < v -> ext (round_pos true v) == - ext (round_pos false v).
Proof.
  intros _. unfold round_pos. cbv zeta.
  destruct (rne (v / bpow (cexp v))) as [|m|m]; cbn [ext SF2Q]; try ring.
  destruct (m =? 9007199254740992)%positive; cbv beta iota zeta;
    match goal with
    | |- context [Z.leb ?a ?b] => destruct (Z.leb a b)
    end; cbn [ext SF2Q cond_Zopp]; first [ring | apply F2Q_opp].
Qed.

Lemma round_pos_ext_pos v : 0 < v -> 0 <= ext (round_pos false v).
Proof.
  intros Hv.
  destruct (round_pos_cases false Hv)
    as [[E1 Z1]|[(m1 & e1 & E1 & C1 & V1)|[E1 I1]]];
    rewrite E1; cbn [ext SF2Q cond_Zopp].
  - lra.
  - apply Qlt_le_weak, F2Q_pos. lia.
  - apply Qlt_le_weak, bpow_pos.
Qed.

Lemma round_zero_sign zs v : ext (round zs v) == rndE v.
Proof.
  unfold rndE, round.
  destruct (Qcompare v 0); reflexivity.
Qed.

Lemma rndE_nonneg v : 0 <= v -> 0 <= rndE v.
Proof.
  intros H. unfold rndE, round.
  destruct (Qcompare_spec v 0) as [E|E|E]; [cbn; lra|exfalso; lra|].
  now apply round_pos_ext_pos.
Qed.

Lemma rndE_nonpos v : v <= 0 -> rndE v <= 0.
Proof.
  intros H. unfold rndE, round.
  destruct (Qcompare_spec v 0) as [E|E|E]; [cbn; lra| |exfalso; lra].
  rewrite round_pos_sign by lra.
  pose proof (@round_pos_ext_pos (- v) ltac:(lra)). lra.
Qed.

(** Rounding is monotone. *)
Lemma rndE_le v w : v <= w -> rndE v <= rndE w.
Proof.
  intros H.
  destruct (Qlt_le_dec 0 v) as [Pv|Nv].
  - assert (Pw : 0 < w) by lra.
    unfold rndE, round.
    rewrite (Qcompare_Gt Pv), (Qcompare_Gt Pw).
    apply SFleb_ext;
      try (apply round_pos_valid; assumption);
      try (apply round_pos_not_nan; assumption).
    now apply round_pos_le.
  - destruct (Qlt_le_dec 0 w) as [Pw|Nw].
    + pose proof (rndE_nonpos Nv). pose proof (@rndE_nonneg w ltac:(lra)). lra.
    + destruct (Qeq_dec w 0) as [Zw|Zw].
      * pose proof (rndE_nonpos Nv). pose proof (@rndE_nonneg w ltac:(lra)).
        lra.
      * assert (Lw : w < 0) by lra. assert (Lv : v < 0) by lra.
        unfold rndE, round.
        rewrite (Qcompare_Lt Lv), (Qcompare_Lt Lw).
        rewrite !round_pos_sign by lra.
        assert (G : ext (round_pos false (- w)) <= ext (round_pos false (- v))).
        { apply SFleb_ext;
            try (apply round_pos_valid; lra);
            try (apply round_pos_not_nan; lra).
          apply round_pos_le; lra. }
        lra.
Qed.

Lemma rndE_compat v w : v == w -> rndE v == rndE w.
Proof. intros E. unfold rndE. now rewrite (round_compat false E). Qed.

(** Rounding leaves a binary64 value as it is. *)
Lemma round_exact zs s m e :
  canonical m e -> round zs (SF2Q (S754_finite s m e)) = S754_finite s m e.
Proof.
  intros C. pose proof (@F2Q_pos (Zpos m) e ltac:(lia)) as P.
  unfold round. cbn [SF2Q]. destruct s; cbn [cond_Zopp].
  - change (Zneg m) with (- Zpos m)%Z.
    assert (L : F2Q (- Zpos m) e < 0) by (rewrite F2Q_opp; lra).
    rewrite (Qcompare_Lt L).
    assert (E : - F2Q (- Zpos m) e == F2Q (Zpos m) e)
      by (rewrite F2Q_opp; ring).
    assert (Pn : 0 < - F2Q (- Zpos m) e) by lra.
    rewrite (round_pos_compat true Pn E). now apply round_pos_exact.
  - rewrite (Qcompare_Gt P). now apply round_pos_exact.
Qed.

Lemma rndE_exact x : valid x -> finite x = true -> rndE (SF2Q x) == SF2Q x.
Proof.
  intros V F. destruct x as [s|s| |s m e]; try discriminate.
  - reflexivity.
  - unfold rndE. rewrite round_exact by (now apply bounded_canonical).
    reflexivity.
Qed.

Lemma rndE_range v : - bpow 1024 <= rndE v /\ rndE v <= bpow 1024.
Proof.
  unfold rndE. pose proof (round_valid false v) as V.
  pose proof (round_not_nan false v) as N. pose proof (bpow_pos 1024).
  destruct (round false v) as [s|s| |s m e] eqn:E; try discriminate.
  - cbn. lra.
  - cbn. destruct s; lra.
  - destruct (@SF2Q_range (S754_finite s m e) V eq_refl). cbn [ext]. lra.
Qed.

(** ** The operations on finite values *)

Lemma rndE_round_pos s v :
  0 < v -> ext (round_pos s v) == rndE (if s then - v else v).
Proof.
  intros Hv. unfold rndE, round. destruct s.
  - assert (L : - v < 0) by lra. rewrite (Qcompare_Lt L).
    assert (P : 0 < - - v) by lra.
    assert (E : - - v == v) by ring.
    now rewrite (round_pos_compat true P E).
  - now rewrite (Qcompare_Gt Hv).
Qed.

Lemma SFopp_valid x : valid x -> valid (SFopp x).
Proof. destruct x; auto. Qed.

Lemma SFadd_ext x y :
  valid x -> valid y -> finite x = true -> finite y = true ->
  valid (SFadd prec emax x y) /\ is_nan (SFadd prec emax x y) = false /\
  ext (SFadd prec emax x y) == rndE (SF2Q x + SF2Q y).
Proof.
  intros Vx Vy Fx Fy.
  destruct x as [sx|sx| |sx mx ex], y as [sy|sy| |sy my ey];
    try discriminate.
  - split; [|split]; [destruct sx, sy; reflexivity ..|].
    destruct sx, sy; reflexivity.
  - split; [exact Vy|]. split; [reflexivity|].
    cbn [SFadd]. rewrite ext_finite by reflexivity.
    rewrite <- (rndE_exact Vy eq_refl) at 1. apply rndE_compat.
    cbn [SF2Q]. ring.
  - split; [exact Vx|]. split; [reflexivity|].
    cbn [SFadd]. rewrite ext_finite by reflexivity.
    rewrite <- (rndE_exact Vx eq_refl) at 1. apply rndE_compat.
    cbn [SF2Q]. ring.
  - rewrite SFadd_finite.
    split; [apply round_valid|]. split; [apply round_not_nan|reflexivity].
Qed.

Lemma SFmul_ext x y :
  valid x -> valid y -> finite x = true -> finite y = true ->
  valid (SFmul prec emax x y) /\ is_nan (SFmul prec emax x y) = false /\
  ext (SFmul prec emax x y) == rndE (SF2Q x * SF2Q y).
Proof.
  intros Vx Vy Fx Fy.
  destruct x as [sx|sx| |sx mx ex], y as [sy|sy| |sy my ey];
    try discriminate;
    try (split; [reflexivity|]; split; [reflexivity|];
         cbn [SFmul ext SF2Q]; symmetry;
         transitivity (rndE 0); [apply rndE_compat; ring|reflexivity]).
  pose proof Vx as Cx. pose proof Vy as Cy.
  apply bounded_canonical in Cx, Cy.
  rewrite SFmul_finite by assumption.
  pose proof (@F2Q_pos (Zpos mx) ex ltac:(lia)) as Px.
  pose proof (@F2Q_pos (Zpos my) ey ltac:(lia)) as Py.
  assert (Pxy : 0 < F2Q (Zpos mx) ex * F2Q (Zpos my) ey)
    by (now apply Qmult_lt_0_compat).
  split; [now apply round_pos_valid|].
  split; [now apply round_pos_not_nan|].
  rewrite rndE_round_pos by exact Pxy. apply rndE_compat. cbn [SF2Q].
  rewrite !F2Q_cond_Zopp. destruct sx, sy; cbn [xorb]; ring.
Qed.

Lemma SFdiv_ext x sy my ey :
  valid x -> finite x = true ->
  let y := S754_finite sy my ey in
  valid (SFdiv prec emax x y) /\ is_nan (SFdiv prec emax x y) = false /\
  ext (SFdiv prec emax x y) == rndE (SF2Q x / SF2Q y).
Proof.
  intros Vx Fx y. subst y.
  pose proof (@F2Q_pos (Zpos my) ey ltac:(lia)) as Py.
  destruct x as [sx|sx| |sx mx ex]; try discriminate.
  - split; [reflexivity|]. split; [reflexivity|].
    cbn [SFdiv ext SF2Q]. symmetry.
    transitivity (rndE 0); [apply rndE_compat|reflexivity].
    unfold Qdiv. ring.
  - rewrite SFdiv_finite.
    pose proof (@F2Q_pos (Zpos mx) ex ltac:(lia)) as Px.
    assert (Pxy : 0 < F2Q (Zpos mx) ex / F2Q (Zpos my) ey).
    { apply Qlt_shift_div_l; [exact Py|lra]. }
    assert (Ny : ~ F2Q (Zpos my) ey == 0) by lra.
    split; [now apply round_pos_valid|].
    split; [now apply round_pos_not_nan|].
    rewrite rndE_round_pos by exact Pxy. apply rndE_compat. cbn [SF2Q].
    rewrite !F2Q_cond_Zopp. destruct sx, sy; cbn [xorb]; field; exact Ny.
Qed.

End Binary64Facts.

(* ================================================================== *)
(** * Numbers: what the operations of [float] compute *)

Module NumberFacts.
Import Binary64 Binary64Facts Number.
Local Open Scope Q_scope.

Lemma SFcompare_refl x : is_nan x = false -> SFcompare x x = Some Eq.
Proof.
  destruct x as [s|s| |s m e]; try discriminate; intros _; cbn.
  - reflexivity.
  - now destruct s.
  - destruct s; rewrite Z.compare_refl, Pos.compare_cont_refl; reflexivity.
Qed.

Lemma prim_is_nan x : PrimFloat.is_nan x = isNaN x.
Proof.
  unfold PrimFloat.is_nan, isNaN. rewrite eqb_spec. unfold SFeqb.
  destruct (is_nan (Prim2SF x)) eqn:E.
  - destruct (Prim2SF x); try discriminate. reflexivity.
  - now rewrite SFcompare_refl.
Qed.

Lemma isNaN_eq x : isNaN x = true <-> x = nan.
Proof.
  unfold isNaN. split.
  - intros H. apply Prim2SF_inj.
    destruct (Prim2SF x); try discriminate. reflexivity.
  - intros ->. reflexivity.
Qed.

Lemma finite_not_nan x : isFinite x = true -> isNaN x = false.
Proof. unfold isFinite, isNaN. destruct (Prim2SF x); auto. Qed.

Lemma valid_prim x : valid (Prim2SF x).
Proof. apply Prim2SF_valid. Qed.

Lemma leb_R x y :
  isNaN x = false -> isNaN y = false ->
  ((x <=? y)%float = true <-> R x <= R y).
Proof. intros. rewrite leb_spec. apply SFleb_ext; auto using valid_prim. Qed.

Lemma ltb_R x y :
  isNaN x = false -> isNaN y = false ->
  ((x <? y)%float = true <-> R x < R y).
Proof. intros. rewrite ltb_spec. apply SFltb_ext; auto using valid_prim. Qed.

Lemma eqb_R x y :
  isNaN x = false -> isNaN y = false ->
  ((x =? y)%float = true <-> R x == R y).
Proof. intros. rewrite eqb_spec. apply SFeqb_ext; auto using valid_prim. Qed.

Lemma SFcompare_nan x y :
  is_nan x = true \/ is_nan y = true -> SFcompare x y = None.
Proof.
  intros [H|H]; destruct x, y; try discriminate; reflexivity.
Qed.

Lemma leb_not_nan x y :
  (x <=? y)%float = true -> isNaN x = false /\ isNaN y = false.
Proof.
  rewrite leb_spec. unfold SFleb, isNaN. intros H.
  destruct (is_nan (Prim2SF x)) eqn:Ex;
    [rewrite SFcompare_nan in H by auto; discriminate|].
  destruct (is_nan (Prim2SF y)) eqn:Ey;
    [rewrite SFcompare_nan in H by auto; discriminate|].
  auto.
Qed.

Lemma ltb_not_nan x y :
  (x <? y)%float = true -> isNaN x = false /\ isNaN y = false.
Proof.
  rewrite ltb_spec. unfold SFltb, isNaN. intros H.
  destruct (is_nan (Prim2SF x)) eqn:Ex;
    [rewrite SFcompare_nan in H by auto; discriminate|].
  destruct (is_nan (Prim2SF y)) eqn:Ey;
    [rewrite SFcompare_nan in H by auto; discriminate|].
  auto.
Qed.

Lemma eqb_not_nan x y :
  (x =? y)%float = true -> isNaN x = false /\ isNaN y = false.
Proof.
  rewrite eqb_spec. unfold SFeqb, isNaN. intros H.
  destruct (is_nan (Prim2SF x)) eqn:Ex;
    [rewrite SFcompare_nan in H by auto; discriminate|].
  destruct (is_nan (Prim2SF y)) eqn:Ey;
    [rewrite SFcompare_nan in H by auto; discriminate|].
  auto.
Qed.

Lemma R_finite x : isFinite x = true -> R x = SF2Q (Prim2SF x).
Proof. intros H. unfold R. now apply ext_finite. Qed.

Lemma R_range x :
  isFinite x = true -> - bpow 1024 < R x /\ R x < bpow 1024.
Proof.
  intros H. rewrite (R_finite _ H). apply SF2Q_range; [apply valid_prim|exact H].
Qed.

Lemma finite_of_R x :
  isNaN x = false -> - bpow 1024 < R x -> R x < bpow 1024 ->
  isFinite x = true.
Proof.
  unfold isNaN, isFinite, R. destruct (Prim2SF x) as [s|s| |s m e];
    try discriminate; try reflexivity.
  cbn. intros _ H1 H2. destruct s; lra.
Qed.

Lemma R_exact x : isFinite x = true -> rndE (R x) == R x.
Proof.
  intros H. rewrite (R_finite _ H).
  apply rndE_exact; [apply valid_prim|exact H].
Qed.

Lemma add_R x y :
  isFinite x = true -> isFinite y = true ->
  isNaN (x + y) = false /\ R (x + y) == rndE (R x + R y).
Proof.
  intros Fx Fy. unfold isNaN, R at 1. rewrite add_spec.
  rewrite (R_finite _ Fx), (R_finite _ Fy).
  destruct (SFadd_ext (valid_prim x) (valid_prim y) Fx Fy) as (_ & N & E).
  split; assumption.
Qed.

Lemma sub_R x y :
  isFinite x = true -> isFinite y = true ->
  isNaN (x - y) = false /\ R (x - y) == rndE (R x - R y).
Proof.
  intros Fx Fy. unfold isNaN, R at 1. rewrite sub_spec.
  unfold SF64sub. rewrite SFsub_add.
  rewrite (R_finite _ Fx), (R_finite _ Fy).
  assert (Fy' : finite (SFopp (Prim2SF y)) = true).
  { unfold isFinite in Fy. destruct (Prim2SF y); auto. }
  destruct (SFadd_ext (valid_prim x) (SFopp_valid (valid_prim y)) Fx Fy')
    as (_ & N & E).
  split; [exact N|]. rewrite E. apply rndE_compat. rewrite SF2Q_opp. ring.
Qed.

Lemma mul_R x y :
  isFinite x = true -> isFinite y = true ->
  isNaN (x * y) = false /\ R (x * y) == rndE (R x * R y).
Proof.
  intros Fx Fy. unfold isNaN, R at 1. rewrite mul_spec.
  rewrite (R_finite _ Fx), (R_finite _ Fy).
  destruct (SFmul_ext (valid_prim x) (valid_prim y) Fx Fy) as (_ & N & E).
  split; assumption.
Qed.

Lemma div_R x y :
  isFinite x = true -> isFinite y = true -> ~ R y == 0 ->
  isNaN (x / y) = false /\ R (x / y) == rndE (R x / R y).
Proof.
  intros Fx Fy Ny. unfold isNaN, R at 1. rewrite div_spec.
  rewrite (R_finite _ Fx). rewrite (R_finite _ Fy) in *.
  unfold isFinite in Fy.
  destruct (Prim2SF y) as [sy|sy| |sy my ey] eqn:Ey; try discriminate.
  - exfalso. apply Ny. reflexivity.
  - destruct (@SFdiv_ext (Prim2SF x) sy my ey (valid_prim x) Fx)
      as (_ & N & E).
    split; assumption.
Qed.

End NumberFacts.

(* ================================================================== *)
(** * Numbers: order, monotony and the functions of [Math] *)

Module MathFacts.
Import Binary64 Binary64Facts Number NumberFacts.
Local Open Scope Q_scope.

Lemma SFmul_comm x y : SFmul prec emax x y = SFmul prec emax y x.
Proof.
  destruct x as [sx|sx| |sx mx ex], y as [sy|sy| |sy my ey];
    cbn [SFmul]; rewrite ?(xorb_comm sx sy); try reflexivity.
  now rewrite Pos.mul_comm, Z.add_comm.
Qed.

Lemma mul_comm (x y : float) : (x * y = y * x)%float.
Proof.
  apply Prim2SF_inj. rewrite !mul_spec. apply SFmul_comm.
Qed.

(** ** The order of numbers *)

Lemma ltb_leb (x y : float) : (x <? y)%float = true -> (x <=? y)%float = true.
Proof.
  intros H. destruct (ltb_not_nan H) as [Nx Ny].
  apply (leb_R _ _ Nx Ny). apply (ltb_R _ _ Nx Ny) in H. lra.
Qed.

Lemma leb_trans (x y z : float) :
  (x <=? y)%float = true -> (y <=? z)%float = true -> (x <=? z)%float = true.
Proof.
  intros H1 H2. destruct (leb_not_nan H1) as [Nx Ny].
  destruct (leb_not_nan H2) as [_ Nz].
  apply (leb_R _ _ Nx Nz). apply (leb_R _ _ Nx Ny) in H1. apply (leb_R _ _ Ny Nz) in H2.
  lra.
Qed.

Lemma ltb_leb_trans (x y z : float) :
  (x <? y)%float = true -> (y <=? z)%float = true -> (x <? z)%float = true.
Proof.
  intros H1 H2. destruct (ltb_not_nan H1) as [Nx Ny].
  destruct (leb_not_nan H2) as [_ Nz].
  apply (ltb_R _ _ Nx Nz). apply (ltb_R _ _ Nx Ny) in H1. apply (leb_R _ _ Ny Nz) in H2.
  lra.
Qed.

Lemma leb_ltb_trans (x y z : float) :
  (x <=? y)%float = true -> (y <? z)%float = true -> (x <? z)%float = true.
Proof.
  intros H1 H2. destruct (leb_not_nan H1) as [Nx Ny].
  destruct (ltb_not_nan H2) as [_ Nz].
  apply (ltb_R _ _ Nx Nz). apply (leb_R _ _ Nx Ny) in H1. apply (ltb_R _ _ Ny Nz) in H2.
  lra.
Qed.

Lemma leb_refl (x : float) : isNaN x = false -> (x <=? x)%float = true.
Proof. intros N. apply (leb_R _ _ N N). lra. Qed.

(** Two numbers, neither NaN, are comparable. *)
Lemma leb_false_ltb (x y : float) :
  isNaN x = false -> isNaN y = false ->
  ((x <=? y)%float = false <-> (y <? x)%float = true).
Proof.
  intros Nx Ny. rewrite (ltb_R _ _ Ny Nx). split.
  - intros H. destruct (Qlt_le_dec (R y) (R x)) as [L|L]; [exact L|].
    apply (leb_R _ _ Nx Ny) in L. congruence.
  - intros H. destruct (x <=? y)%float eqn:E; [|reflexivity].
    apply (leb_R _ _ Nx Ny) in E. lra.
Qed.

Lemma ltb_false_leb (x y : float) :
  isNaN x = false -> isNaN y = false ->
  ((x <? y)%float = false <-> (y <=? x)%float = true).
Proof.
  intros Nx Ny. rewrite (leb_R _ _ Ny Nx). split.
  - intros H. destruct (Qlt_le_dec (R x) (R y)) as [L|L]; [|exact L].
    apply (ltb_R _ _ Nx Ny) in L. congruence.
  - intros H. destruct (x <? y)%float eqn:E; [|reflexivity].
    apply (ltb_R _ _ Nx Ny) in E. lra.
Qed.

Lemma leb_nan_r (x : float) : (x <=? nan)%float = false.
Proof.
  destruct (x <=? nan)%float eqn:E; [|reflexivity].
  apply leb_not_nan in E. destruct E as [_ E]. discriminate.
Qed.

Lemma ltb_nan_r (x : float) : (x <? nan)%float = false.
Proof.
  destruct (x <? nan)%float eqn:E; [|reflexivity].
  apply ltb_not_nan in E. destruct E as [_ E]. discriminate.
Qed.

Lemma ltb_nan_l (x : float) : (nan <? x)%float = false.
Proof.
  destruct (nan <? x)%float eqn:E; [|reflexivity].
  apply ltb_not_nan in E. destruct E as [E _]. discriminate.
Qed.

(** A number is NaN, an infinity, or finite. *)
Lemma number_cases (x : float) :
  x = nan \/ x = infinity \/ x = neg_infinity \/ isFinite x = true.
Proof.
  unfold isFinite. destruct (Prim2SF x) as [s|s| |s m e] eqn:E.
  - now right; right; right.
  - destruct s; [right; right; left|right; left];
      apply Prim2SF_inj; rewrite E; reflexivity.
  - left. apply Prim2SF_inj. rewrite E. reflexivity.
  - now right; right; right.
Qed.

(** ** [Math.max] and [Math.min] of two numbers *)

Lemma Math_max_pair (a x : float) :
  PrimFloat.is_nan a = false -> isNegativeZero a = false ->
  (neg_infinity <? a)%float = true ->
  Math_max [a; x]
  = if PrimFloat.is_nan x then nan
    else if (a <? x)%float then x else a.
Proof.
  intros Na Za La. unfold Math_max. cbn [existsb fold_left].
  rewrite Na, orb_false_r. cbn [orb].
  change (isNegativeZero neg_infinity) with false.
  rewrite andb_false_r, La, Za, andb_false_r. reflexivity.
Qed.

Lemma Math_min_pair (a x : float) :
  PrimFloat.is_nan a = false -> isPositiveZero a = false ->
  (a <? infinity)%float = true ->
  Math_min [a; x]
  = if PrimFloat.is_nan x then nan
    else if (x <? a)%float then x else a.
Proof.
  intros Na Za La. unfold Math_min. cbn [existsb fold_left].
  rewrite Na, orb_false_r. cbn [orb].
  change (isPositiveZero infinity) with false.
  rewrite andb_false_r, La, Za, andb_false_r. reflexivity.
Qed.

(** [Math.min(100, Math.max(0, x))]. *)
Lemma clamp_cases (x : float) :
  Math_min [100; Math_max [0; x]]%float
  = if PrimFloat.is_nan x then nan
    else if (0 <? x)%float
         then (if (x <? 100)%float then x else 100%float)
         else 0%float.
Proof.
  rewrite (@Math_max_pair 0%float x) by reflexivity.
  destruct (PrimFloat.is_nan x) eqn:Nx.
  - reflexivity.
  - rewrite Math_min_pair by reflexivity.
    destruct (0 <? x)%float eqn:Px; [now rewrite Nx|reflexivity].
Qed.

Lemma clamp_range (x : float) :
  let r := Math_min [100; Math_max [0; x]]%float in
  r = nan \/ ((0 <=? r)%float = true /\ (r <=? 100)%float = true).
Proof.
  cbv zeta. rewrite clamp_cases.
  destruct (PrimFloat.is_nan x) eqn:Nx; [now left|right].
  destruct (0 <? x)%float eqn:Px; [|split; reflexivity].
  destruct (x <? 100)%float eqn:Lx; [|split; reflexivity].
  split; now apply ltb_leb.
Qed.

#[local] Instance rndE_proper : Proper (Qeq ==> Qeq) rndE.
Proof. intros v w E. now apply rndE_compat. Qed.

(** ** Operations on an infinity *)

Lemma positive_finite (a : float) :
  isFinite a = true -> (0 <? a)%float = true ->
  exists m e, Prim2SF a = S754_finite false m e.
Proof.
  unfold isFinite. rewrite ltb_spec. change (Prim2SF 0) with (S754_zero false).
  destruct (Prim2SF a) as [s|s| |s m e]; cbn; try discriminate.
  destruct s; [discriminate|]. intros _ _. now exists m, e.
Qed.

Lemma add_inf (s : bool) (a : float) :
  isFinite a = true ->
  (inf s + a = inf s /\ a + inf s = inf s /\ inf s - a = inf s)%float.
Proof.
  unfold isFinite. intros F.
  repeat split; apply Prim2SF_inj; rewrite ?add_spec, ?sub_spec;
    destruct s; cbn [inf];
    change (Prim2SF infinity) with (S754_infinity false);
    change (Prim2SF neg_infinity) with (S754_infinity true);
    destruct (Prim2SF a) as [sa|sa| |sa ma ea]; try discriminate;
    reflexivity.
Qed.

Lemma mul_inf (s : bool) (a : float) :
  isFinite a = true -> (0 <? a)%float = true ->
  (inf s * a = inf s /\ a * inf s = inf s /\ inf s / a = inf s)%float.
Proof.
  intros F P. destruct (positive_finite F P) as (m & e & E).
  repeat split; apply Prim2SF_inj; rewrite ?mul_spec, ?div_spec, E;
    destruct s; cbn [inf];
    change (Prim2SF infinity) with (S754_infinity false);
    change (Prim2SF neg_infinity) with (S754_infinity true);
    reflexivity.
Qed.

(** ** The infinities in the order *)

Lemma R_bounds (x : float) :
  isNaN x = false -> - bpow 1024 <= R x /\ R x <= bpow 1024.
Proof.
  intros N. destruct (number_cases x) as [->|[->|[->|F]]].
  - discriminate.
  - split; [|apply Qle_refl]. vm_compute. discriminate.
  - split; [apply Qle_refl|]. vm_compute. discriminate.
  - destruct (R_range _ F). split; now apply Qlt_le_weak.
Qed.

Lemma leb_infinity (x : float) :
  isNaN x = false -> (x <=? infinity)%float = true.
Proof.
  intros N. apply (leb_R _ _ N (eq_refl : isNaN infinity = false)).
  apply (R_bounds _ N).
Qed.

Lemma leb_neg_infinity (x : float) :
  isNaN x = false -> (neg_infinity <=? x)%float = true.
Proof.
  intros N. apply (leb_R _ _ (eq_refl : isNaN neg_infinity = false) N).
  apply (R_bounds _ N).
Qed.

Lemma infinity_leb (x : float) :
  (infinity <=? x)%float = true -> x = infinity.
Proof.
  intros H. destruct (leb_not_nan H) as [_ N].
  apply (leb_R _ _ (eq_refl : isNaN infinity = false) N) in H.
  destruct (number_cases x) as [->|[->|[->|F]]].
  - discriminate.
  - reflexivity.
  - exfalso. revert H. vm_compute. intros H. now apply H.
  - exfalso. destruct (R_range _ F) as [_ U].
    change (R infinity) with (bpow 1024) in H. lra.
Qed.

Lemma leb_neg_infinity_inv (x : float) :
  (x <=? neg_infinity)%float = true -> x = neg_infinity.
Proof.
  intros H. destruct (leb_not_nan H) as [N _].
  apply (leb_R _ _ N (eq_refl : isNaN neg_infinity = false)) in H.
  destruct (number_cases x) as [->|[->|[->|F]]].
  - discriminate.
  - exfalso. revert H. vm_compute. intros H. now apply H.
  - reflexivity.
  - exfalso. destruct (R_range _ F) as [L _].
    change (R neg_infinity) with (- bpow 1024) in H. lra.
Qed.

(** ** Monotone functions *)

(** A function that keeps the infinities and is monotone on the finite
    numbers is monotone. *)
Lemma monotone_of_finite (f : float -> float) :
  f infinity = infinity -> f neg_infinity = neg_infinity ->
  (forall x, isFinite x = true -> isNaN (f x) = false) ->
  (forall x y, isFinite x = true -> isFinite y = true ->
               R x <= R y -> R (f x) <= R (f y)) ->
  forall x y, (x <=? y)%float = true -> (f x <=? f y)%float = true.
Proof.
  intros Fi Fn Nf Mf x y H. destruct (leb_not_nan H) as [Nx Ny].
  assert (Nfx : forall z, isNaN z = false -> isNaN (f z) = false).
  { intros z Nz. destruct (number_cases z) as [->|[->|[->|F]]].
    - discriminate.
    - now rewrite Fi.
    - now rewrite Fn.
    - now apply Nf. }
  destruct (number_cases x) as [->|[->|[->|Fx]]].
  - discriminate.
  - apply infinity_leb in H. subst y. apply leb_refl. now apply Nfx.
  - rewrite Fn. apply leb_neg_infinity. now apply Nfx.
  - destruct (number_cases y) as [->|[->|[->|Fy]]].
    + discriminate.
    + rewrite Fi. apply leb_infinity. now apply Nfx.
    + apply leb_neg_infinity_inv in H. subst x. apply leb_refl. now apply Nfx.
    + apply (leb_R _ _ (Nfx _ Nx) (Nfx _ Ny)). apply Mf; auto.
      now apply (leb_R _ _ Nx Ny).
Qed.

Lemma positive_R (a : float) :
  isFinite a = true -> (0 <? a)%float = true -> 0 < R a.
Proof.
  intros F P.
  now apply (ltb_R _ _ (eq_refl : isNaN 0 = false) (finite_not_nan _ F)) in P.
Qed.

Lemma sub_mono (a x y : float) :
  isFinite a = true ->
  (x <=? y)%float = true -> (x - a <=? y - a)%float = true.
Proof.
  intros F. apply (monotone_of_finite (fun x => x - a)%float).
  - apply (add_inf false _ F).
  - apply (add_inf true _ F).
  - intros z Fz. apply (sub_R _ _ Fz F).
  - intros u v Fu Fv H.
    destruct (sub_R _ _ Fu F) as [_ ->]. destruct (sub_R _ _ Fv F) as [_ ->].
    apply rndE_le. lra.
Qed.

Lemma add_mono_r (a x y : float) :
  isFinite a = true ->
  (x <=? y)%float = true -> (a + x <=? a + y)%float = true.
Proof.
  intros F. apply (monotone_of_finite (fun x => a + x)%float).
  - apply (add_inf false _ F).
  - apply (add_inf true _ F).
  - intros z Fz. apply (add_R _ _ F Fz).
  - intros u v Fu Fv H.
    destruct (add_R _ _ F Fu) as [_ ->]. destruct (add_R _ _ F Fv) as [_ ->].
    apply rndE_le. lra.
Qed.

Lemma mul_mono (a x y : float) :
  isFinite a = true -> (0 <? a)%float = true ->
  (x <=? y)%float = true -> (x * a <=? y * a)%float = true.
Proof.
  intros F P. pose proof (positive_R F P) as Pa.
  apply (monotone_of_finite (fun x => x * a)%float).
  - apply (mul_inf false F P).
  - apply (mul_inf true F P).
  - intros z Fz. apply (mul_R _ _ Fz F).
  - intros u v Fu Fv H.
    destruct (mul_R _ _ Fu F) as [_ ->]. destruct (mul_R _ _ Fv F) as [_ ->].
    apply rndE_le. apply Qmult_le_compat_r; lra.
Qed.

Lemma div_mono (a x y : float) :
  isFinite a = true -> (0 <? a)%float = true ->
  (x <=? y)%float = true -> (x / a <=? y / a)%float = true.
Proof.
  intros F P. pose proof (positive_R F P) as Pa.
  assert (Na : ~ R a == 0) by lra.
  apply (monotone_of_finite (fun x => x / a)%float).
  - apply (mul_inf false F P).
  - apply (mul_inf true F P).
  - intros z Fz. apply (div_R _ _ Fz F Na).
  - intros u v Fu Fv H.
    destruct (div_R _ _ Fu F Na) as [_ ->]. destruct (div_R _ _ Fv F Na) as [_ ->].
    apply rndE_le. unfold Qdiv. apply Qmult_le_compat_r; [exact H|].
    apply Qinv_le_0_compat. lra.
Qed.

(** A number that is not negative, times a factor: the larger the factor,
    the larger the product. *)
Lemma mul_mono_factor (x a b : float) :
  (0 <=? x)%float = true ->
  isFinite a = true -> isFinite b = true -> (0 <? a)%float = true ->
  (a <=? b)%float = true -> (x * a <=? x * b)%float = true.
Proof.
  intros Px Fa Fb Pa Hab.
  assert (Pb : (0 <? b)%float = true) by (eapply ltb_leb_trans; eassumption).
  destruct (leb_not_nan Px) as [_ Nx].
  destruct (number_cases x) as [->|[->|[->|Fx]]].
  - discriminate.
  - destruct (mul_inf false Fa Pa) as (E1 & _).
    destruct (mul_inf false Fb Pb) as (E2 & _).
    cbn [inf] in E1, E2. rewrite E1, E2. reflexivity.
  - discriminate.
  - destruct (mul_R _ _ Fx Fa) as [N1 E1]. destruct (mul_R _ _ Fx Fb) as [N2 E2].
    apply (leb_R _ _ N1 N2). rewrite E1, E2. apply rndE_le.
    apply (leb_R _ _ (eq_refl : isNaN 0 = false) Nx) in Px.
    apply (leb_R _ _ (finite_not_nan _ Fa) (finite_not_nan _ Fb)) in Hab.
    change (R 0) with 0 in Px. rewrite !(Qmult_comm (R x)).
    apply Qmult_le_compat_r; assumption.
Qed.

(** ** Integers as numbers *)

Lemma representable_Z (z : Z) :
  (0 < z <= 2 ^ 53)%Z ->
  exists m e, canonical m e /\ (-52 <= e <= 1)%Z /\
              F2Q (Zpos m) e == inject_Z z.
Proof.
  intros [Hp Hz]. destruct (Z.eq_dec z (2 ^ 53)) as [->|Hn].
  - exists 4503599627370496%positive, 1%Z. split; [|split].
    + unfold canonical. lia.
    + lia.
    + reflexivity.
  - pose proof (Z.log2_spec z Hp) as [L1 L2].
    pose proof (Z.log2_nonneg z) as L0.
    set (d := Z.log2 z) in *.
    assert (Hd : (d <= 52)%Z).
    { assert (d < 53)%Z; [|lia]. apply Z.log2_lt_pow2; lia. }
    assert (P2 : (0 < 2 ^ (52 - d))%Z) by (apply Z.pow_pos_nonneg; lia).
    assert (E2 : (2 ^ d * 2 ^ (52 - d) = 2 ^ 52)%Z).
    { rewrite <- Z.pow_add_r by lia. f_equal. lia. }
    assert (E3 : (2 ^ Z.succ d * 2 ^ (52 - d) = 2 ^ 53)%Z).
    { rewrite <- Z.pow_add_r by lia. f_equal. lia. }
    assert (B1 : (2 ^ 52 <= z * 2 ^ (52 - d))%Z) by nia.
    assert (B2 : (z * 2 ^ (52 - d) < 2 ^ 53)%Z) by nia.
    exists (Z.to_pos (z * 2 ^ (52 - d))), (d - 52)%Z.
    rewrite Z2Pos.id by lia. split; [|split].
    + unfold canonical. lia.
    + lia.
    + unfold F2Q. rewrite inject_Z_mult, <- bpow_Z by lia.
      rewrite <- Qmult_assoc, <- bpow_add.
      replace (52 - d + (d - 52))%Z with 0%Z by lia.
      rewrite bpow_0. ring.
Qed.

(** An integer of at most 53 bits times a power of two is a number. *)
Lemma rndE_scaled (z s : Z) :
  (- 2 ^ 53 <= z <= 2 ^ 53)%Z -> (-1000 <= s <= 900)%Z ->
  rndE (inject_Z z * bpow s) == inject_Z z * bpow s.
Proof.
  intros Hz Hs.
  assert (P : forall p, (0 < p <= 2 ^ 53)%Z ->
                        exists m e, canonical m e /\
                                    F2Q (Zpos m) e == inject_Z p * bpow s).
  { intros p Hp. destruct (representable_Z Hp) as (m & e & C & Be & E).
    exists m, (e + s)%Z. split.
    - destruct C as (C1 & C2 & C3). unfold canonical. lia.
    - unfold F2Q in *. rewrite bpow_add, Qmult_assoc, E. reflexivity. }
  destruct (Z.lt_trichotomy z 0) as [Hn|[->|Hp]].
  - destruct (P (- z)%Z) as (m & e & C & E); [lia|].
    assert (Ez : inject_Z z * bpow s == SF2Q (S754_finite true m e)).
    { cbn [SF2Q cond_Zopp]. rewrite F2Q_opp, E, inject_Z_opp. ring. }
    rewrite (rndE_compat Ez), Ez.
    apply rndE_exact; [now apply canonical_valid|reflexivity].
  - assert (E0 : inject_Z 0 * bpow s == 0) by ring.
    rewrite (rndE_compat E0), E0. reflexivity.
  - destruct (P z) as (m & e & C & E); [lia|].
    assert (Ez : inject_Z z * bpow s == SF2Q (S754_finite false m e)).
    { cbn [SF2Q cond_Zopp]. now rewrite E. }
    rewrite (rndE_compat Ez), Ez.
    apply rndE_exact; [now apply canonical_valid|reflexivity].
Qed.

Lemma rndE_Z (z : Z) :
  (- 2 ^ 53 <= z <= 2 ^ 53)%Z -> rndE (inject_Z z) == inject_Z z.
Proof.
  intros Hz.
  assert (E : inject_Z z == inject_Z z * bpow 0) by (rewrite bpow_0; ring).
  rewrite (rndE_compat E). rewrite E at 2.
  apply rndE_scaled; lia.
Qed.

Lemma of_Z_R (z : Z) :
  isNaN (of_Z z) = false /\ R (of_Z z) == rndE (inject_Z z).
Proof.
  unfold isNaN, R, of_Z. rewrite binary_normalize_correct.
  rewrite Prim2SF_SF2Prim by apply round_valid.
  split; [apply round_not_nan|].
  change (ext (round false (F2Q z 0))) with (rndE (F2Q z 0)).
  apply rndE_compat. unfold F2Q. rewrite bpow_0. ring.
Qed.

Lemma of_Z_small (z : Z) :
  (- 2 ^ 53 <= z <= 2 ^ 53)%Z ->
  isFinite (of_Z z) = true /\ R (of_Z z) == inject_Z z.
Proof.
  intros Hz. destruct (of_Z_R z) as [N E].
  rewrite (rndE_Z Hz) in E. split; [|exact E].
  apply finite_of_R; [exact N| |]; rewrite E.
  - apply Qlt_le_trans with (inject_Z (- 2 ^ 53)); [reflexivity|].
    rewrite <- Zle_Qle. lia.
  - apply Qle_lt_trans with (inject_Z (2 ^ 53)); [|reflexivity].
    rewrite <- Zle_Qle. lia.
Qed.

Lemma of_Z_mono (a b : Z) :
  (a <= b)%Z -> (of_Z a <=? of_Z b)%float = true.
Proof.
  intros H. destruct (of_Z_R a) as [Na Ea]. destruct (of_Z_R b) as [Nb Eb].
  apply (leb_R _ _ Na Nb). rewrite Ea, Eb. apply rndE_le.
  now rewrite <- Zle_Qle.
Qed.

(** ** [Math.round] *)

Lemma Qfloor_div (a b : Z) :
  (0 < b)%Z -> Qfloor (inject_Z a / inject_Z b) = (a / b)%Z.
Proof.
  intros Hb.
  assert (Pb : 0 < inject_Z b) by (now rewrite <- (Zlt_Qlt 0)).
  pose proof (Z.mul_div_le a b Hb) as L.
  pose proof (Z.mul_succ_div_gt a b Hb) as U.
  apply Qfloor_unique.
  - apply Qle_shift_div_l; [exact Pb|].
    rewrite <- inject_Z_mult, <- Zle_Qle. lia.
  - apply Qlt_shift_div_r; [exact Pb|].
    change 1 with (inject_Z 1).
    rewrite <- inject_Z_plus, <- inject_Z_mult, <- Zlt_Qlt. lia.
Qed.

Lemma Qfloor_half (z : Z) : Qfloor (inject_Z z + (1 # 2)) = z.
Proof. apply Qfloor_unique; lra. Qed.

(** [Math.round] of a finite number is the integer [floor(x + 1/2)]. *)
Lemma Math_round_R (x : float) :
  isFinite x = true ->
  isFinite (Math_round x) = true /\
  R (Math_round x) == inject_Z (Qfloor (R x + (1 # 2))).
Proof.
  intros F. pose proof (valid_prim x) as V. pose proof (R_exact _ F) as X.
  pose proof (R_range _ F) as Rg.
  rewrite (R_finite _ F) in *. unfold Math_round.
  unfold isFinite in F.
  destruct (Prim2SF x) as [s|s| |s m e] eqn:E; try discriminate.
  - split; [unfold isFinite; now rewrite E|].
    unfold R. rewrite E. reflexivity.
  - cbn [SF2Q] in *. cbv zeta.
    assert (C : canonical m e) by (now apply bounded_canonical).
    destruct C as (C1 & C2 & C3).
    set (n := cond_Zopp s (Zpos m)) in *.
    assert (Hn : (- 2 ^ 53 < n < 2 ^ 53)%Z /\ n <> 0%Z).
    { subst n. destruct s; cbn [cond_Zopp]; lia. }
    destruct (0 <=? e)%Z eqn:Le.
    + apply Z.leb_le in Le.
      assert (Ez : F2Q n e == inject_Z (n * 2 ^ e)).
      { unfold F2Q. now rewrite inject_Z_mult, bpow_Z. }
      assert (P2 : (0 < 2 ^ e)%Z) by (apply Z.pow_pos_nonneg; lia).
      assert (Nz : (n * 2 ^ e =? 0)%Z = false) by (apply Z.eqb_neq; nia).
      rewrite Nz. destruct (of_Z_R (n * 2 ^ e)) as [N Ef].
      assert (Ev : R (of_Z (n * 2 ^ e)) == inject_Z (n * 2 ^ e)).
      { rewrite Ef, <- Ez. exact X. }
      split.
      * apply finite_of_R; [exact N| |]; rewrite Ev, <- Ez; apply Rg.
      * rewrite Ev.
        assert (Q : Qfloor (F2Q n e + (1 # 2)) = (n * 2 ^ e)%Z).
        { apply Qfloor_unique; rewrite Ez; lra. }
        now rewrite Q.
    + apply Z.leb_gt in Le.
      set (h := (2 ^ (- e - 1))%Z).
      assert (Ph : (0 < h)%Z) by (apply Z.pow_pos_nonneg; lia).
      assert (Eh : (2 ^ (- e) = 2 * h)%Z).
      { unfold h. rewrite <- (Z.pow_succ_r 2) by lia. f_equal. lia. }
      rewrite Eh.
      assert (Q : Qfloor (F2Q n e + (1 # 2)) = ((n + h) / (2 * h))%Z).
      { rewrite <- Qfloor_div by lia.
        assert (Ev : F2Q n e + (1 # 2)
                     == inject_Z (n + h) / inject_Z (2 * h)).
        { unfold F2Q.
          assert (Eb : bpow e == / inject_Z (2 * h)).
          { rewrite <- Eh, <- bpow_Z by lia. rewrite <- bpow_opp.
            now rewrite Z.opp_involutive. }
          rewrite Eb, inject_Z_plus, inject_Z_mult.
          assert (Qh : 0 < inject_Z h) by (now rewrite <- (Zlt_Qlt 0)).
          change (inject_Z 2) with 2. field. lra. }
        apply Z.le_antisymm; apply Qfloor_resp_le; rewrite Ev;
          apply Qle_refl. }
      rewrite Q.
      assert (Bz : (- 2 ^ 53 <= (n + h) / (2 * h) <= 2 ^ 53)%Z).
      { split.
        - apply Z.div_le_lower_bound; [lia|nia].
        - apply Z.div_le_upper_bound; [lia|nia]. }
      destruct ((n + h) / (2 * h) =? 0)%Z eqn:Z0.
      * apply Z.eqb_eq in Z0. rewrite Z0. destruct s; split; reflexivity.
      * now apply of_Z_small.
Qed.

Lemma Math_round_mono (x y : float) :
  (x <=? y)%float = true -> (Math_round x <=? Math_round y)%float = true.
Proof.
  apply (monotone_of_finite Math_round); try reflexivity.
  - intros z Fz. apply finite_not_nan. now apply Math_round_R.
  - intros u v Fu Fv H.
    destruct (Math_round_R _ Fu) as [_ ->]. destruct (Math_round_R _ Fv) as [_ ->].
    rewrite <- Zle_Qle. apply Qfloor_resp_le. lra.
Qed.

(** [Math.round] gives a positive number from one half on. *)
Lemma Math_round_positive (x : float) :
  isFinite x = true ->
  ((0 <? Math_round x)%float = true <-> (1 # 2) <= R x).
Proof.
  intros F. destruct (Math_round_R _ F) as [Fr Er].
  rewrite (ltb_R _ _ (eq_refl : isNaN 0 = false) (finite_not_nan _ Fr)).
  change (R 0) with 0. rewrite Er.
  pose proof (Qfloor_le (R x + (1 # 2))) as L.
  pose proof (Qlt_floor (R x + (1 # 2))) as U.
  rewrite inject_Z_plus in U. change (inject_Z 1) with 1 in U.
  split; intros H.
  - rewrite <- (Zlt_Qlt 0) in H.
    assert (H1 : 1 <= inject_Z (Qfloor (R x + (1 # 2)))).
    { rewrite <- (Zle_Qle 1). lia. }
    lra.
  - rewrite <- (Zlt_Qlt 0).
    assert (H1 : (1 <= Qfloor (R x + (1 # 2)))%Z); [|lia].
    apply (Qfloor_resp_le 1 (R x + (1 # 2))). lra.
Qed.

(** ** The sign of a difference *)

(** A finite number is a multiple of [2^-1074]. *)
Lemma R_grid (x : float) :
  isFinite x = true -> exists k : Z, R x == inject_Z k * bpow (-1074).
Proof.
  intros F. pose proof (valid_prim x) as V. rewrite (R_finite _ F).
  unfold isFinite in F.
  destruct (Prim2SF x) as [s|s| |s m e] eqn:E; try discriminate.
  - exists 0%Z. cbn. ring.
  - assert (C : canonical m e) by (now apply bounded_canonical).
    destruct C as (C1 & C2 & C3).
    exists (cond_Zopp s (Zpos m) * 2 ^ (e + 1074))%Z.
    cbn [SF2Q]. unfold F2Q. rewrite inject_Z_mult, <- bpow_Z by lia.
    rewrite <- Qmult_assoc, <- bpow_add.
    replace (e + 1074 + -1074)%Z with e by lia. reflexivity.
Qed.

Lemma rndE_positive (a b : float) :
  isFinite a = true -> isFinite b = true ->
  R a < R b -> 0 < rndE (R b - R a).
Proof.
  intros Fa Fb H.
  destruct (R_grid _ Fa) as [ka Ea]. destruct (R_grid _ Fb) as [kb Eb].
  pose proof (bpow_pos (-1074)) as P.
  assert (K : (ka < kb)%Z).
  { rewrite Ea, Eb in H. rewrite Zlt_Qlt.
    apply Qmult_lt_r with (bpow (-1074)); assumption. }
  assert (L : bpow (-1074) <= R b - R a).
  { rewrite Ea, Eb.
    assert (K1 : 1 <= inject_Z kb - inject_Z ka).
    { change 1 with (inject_Z 1). unfold Qminus.
      rewrite <- inject_Z_opp, <- inject_Z_plus, <- Zle_Qle. lia. }
    nra. }
  apply rndE_le in L.
  assert (X : rndE (bpow (-1074)) == bpow (-1074)) by reflexivity.
  rewrite X in L. lra.
Qed.

(** The comparator [b - a] is positive exactly when [a < b]. *)
Lemma sub_positive (a b : float) :
  isFinite a = true -> isFinite b = true ->
  (0 <? b - a)%float = (a <? b)%float.
Proof.
  intros Fa Fb. destruct (sub_R _ _ Fb Fa) as [N E].
  pose proof (finite_not_nan _ Fa) as Na.
  pose proof (finite_not_nan _ Fb) as Nb.
  apply eq_true_iff_eq.
  rewrite (ltb_R _ _ (eq_refl : isNaN 0 = false) N), (ltb_R _ _ Na Nb).
  change (R 0) with 0. rewrite E. split; intros H.
  - destruct (Qlt_le_dec (R a) (R b)) as [L|L]; [exact L|].
    assert (L' : R b - R a <= 0) by lra.
    apply rndE_nonpos in L'. lra.
  - now apply rndE_positive.
Qed.

(** ** The confidence of a match *)

(** From three matching keywords on, [0.6 + totalMatches * 0.15] is above
    0.95. *)
Lemma confidence_of_three (n : nat) :
  (3 <= n)%nat ->
  Math_min [0.95; 0.6 + Number_of_nat n * 0.15]%float = 0.95%float.
Proof.
  intros H. unfold Number_of_nat.
  assert (A : (of_Z 3 <=? of_Z (Z.of_nat n))%float = true)
    by (apply of_Z_mono; lia).
  apply (@mul_mono 0.15%float _ _ eq_refl eq_refl) in A.
  apply (@add_mono_r 0.6%float _ _ eq_refl) in A.
  set (y := (0.6 + of_Z (Z.of_nat n) * 0.15)%float) in *.
  assert (B : (0.95 <=? y)%float = true).
  { exact (@leb_trans 0.95%float (0.6 + of_Z 3 * 0.15)%float y eq_refl A). }
  destruct (leb_not_nan B) as [_ Ny].
  rewrite Math_min_pair by reflexivity. rewrite prim_is_nan, Ny.
  apply (ltb_false_leb _ _ Ny (eq_refl : isNaN 0.95 = false)) in B.
  now rewrite B.
Qed.

(** ** Truthy numbers *)

Lemma truthy_spec (x : float) :
  truthy x = true <-> isNaN x = false /\ (x =? 0)%float = false.
Proof.
  unfold truthy, is_zero. rewrite prim_is_nan.
  change zero with 0%float.
  destruct (isNaN x), (x =? 0)%float; cbn [orb negb];
    split; try discriminate; try (intros [? ?]; discriminate); auto.
Qed.

Lemma truthy_R (x : float) :
  truthy x = true -> isNaN x = false /\ ~ R x == 0.
Proof.
  intros H. apply truthy_spec in H. destruct H as [N Z]. split; [exact N|].
  intros E. apply (eqb_R _ _ N (eq_refl : isNaN 0 = false)) in E. congruence.
Qed.

Lemma truthy_positive (x : float) :
  truthy x = true -> (0 <=? x)%float = true -> (0 <? x)%float = true.
Proof.
  intros T P. destruct (truthy_R _ T) as [N Z].
  apply (ltb_R _ _ (eq_refl : isNaN 0 = false) N).
  apply (leb_R _ _ (eq_refl : isNaN 0 = false) N) in P.
  change (R 0) with 0 in *. lra.
Qed.

(** ** Numbers between 0 and 1, and their sums *)

Lemma finite_between (x : float) (lo hi : Q) :
  isNaN x = false -> lo <= R x -> R x <= hi ->
  - bpow 1024 < lo -> hi < bpow 1024 -> isFinite x = true.
Proof. intros N L U Bl Bu. apply finite_of_R; [exact N| |]; lra. Qed.

Lemma unit_of_leb (x : float) :
  (0 <=? x)%float = true -> (x <=? 1)%float = true ->
  isFinite x = true /\ 0 <= R x <= 1.
Proof.
  intros L U. destruct (leb_not_nan L) as [_ N].
  apply (leb_R _ _ (eq_refl : isNaN 0 = false) N) in L.
  apply (leb_R _ _ N (eq_refl : isNaN 1 = false)) in U.
  assert (E1 : R 1 == 1) by reflexivity.
  change (R 0) with 0 in L. rewrite E1 in U.
  split; [|split; assumption].
  apply (@finite_between x 0 1); try assumption; reflexivity.
Qed.

(** The product of a number of [[0, 1]] with a number that is not
    negative is at most that number. *)
Lemma mul_unit (s c : float) (hi : Q) :
  isFinite s = true -> 0 <= R s <= 1 ->
  isFinite c = true -> 0 <= R c <= hi -> hi < bpow 1024 ->
  isFinite (s * c) = true /\ 0 <= R (s * c) <= R c.
Proof.
  intros Fs [Ls Us] Fc [Lc Uc] B. destruct (mul_R _ _ Fs Fc) as [N E].
  assert (L : 0 <= R (s * c)).
  { rewrite E. apply rndE_nonneg. nra. }
  assert (U : R (s * c) <= R c).
  { rewrite E. apply Qle_trans with (rndE (R c)); [apply rndE_le; nra|].
    rewrite (R_exact _ Fc). apply Qle_refl. }
  split; [|split; assumption].
  apply (@finite_between _ 0 hi); try assumption; [lra|reflexivity].
Qed.

(** One step of the two sums of [calculateRiskScore]. *)
Lemma weighted_sums_step (W T s c : float) :
  isFinite W = true -> isFinite T = true ->
  0 <= R W -> R W <= R T -> R T <= bpow 60 ->
  isFinite s = true -> 0 <= R s <= 1 ->
  isFinite c = true -> 0 <= R c <= 1 ->
  isFinite (W + s * c) = true /\ isFinite (T + c) = true /\
  0 <= R (W + s * c) /\ R (W + s * c) <= R (T + c) /\
  R (T + c) <= bpow 60.
Proof.
  intros FW FT LW WT TB Fs Hs Fc Hc.
  destruct (@mul_unit s c 1 Fs Hs Fc Hc eq_refl) as (Fw & Lw & Uw).
  destruct (add_R _ _ FW Fw) as [NW EW]. destruct (add_R _ _ FT Fc) as [NT ET].
  assert (B : rndE (bpow 60 + 1) == bpow 60) by reflexivity.
  assert (A1 : 0 <= R (W + s * c)).
  { rewrite EW. apply rndE_nonneg. lra. }
  assert (A2 : R (W + s * c) <= R (T + c)).
  { rewrite EW, ET. apply rndE_le. lra. }
  assert (A3 : R (T + c) <= bpow 60).
  { rewrite ET. apply Qle_trans with (rndE (bpow 60 + 1));
      [apply rndE_le; lra|]. rewrite B. apply Qle_refl. }
  repeat split; try assumption.
  - apply (@finite_between _ 0 (bpow 60)); try assumption;
      [lra|reflexivity|reflexivity].
  - apply (@finite_between _ 0 (bpow 60)); try assumption;
      [lra|reflexivity|reflexivity].
Qed.

(** [(totalWeightedScore / totalWeight) * 100]. *)
Lemma ratio_times_100 (W T : float) :
  isFinite W = true -> isFinite T = true ->
  0 <= R W -> R W <= R T -> (T =? 0)%float = false ->
  isFinite (W / T * 100) = true /\ 0 <= R (W / T * 100) <= 100.
Proof.
  intros FW FT LW WT Z.
  assert (NT : ~ R T == 0).
  { intros E.
    apply (eqb_R _ _ (finite_not_nan _ FT) (eq_refl : isNaN 0 = false)) in E.
    congruence. }
  assert (PT : 0 < R T) by lra.
  destruct (div_R _ _ FW FT NT) as [Nq Eq].
  assert (Lq : 0 <= R (W / T)).
  { rewrite Eq. apply rndE_nonneg. apply Qle_shift_div_l; lra. }
  assert (Uq : R (W / T) <= 1).
  { rewrite Eq. assert (X : rndE 1 == 1) by reflexivity.
    apply Qle_trans with (rndE 1); [|rewrite X; apply Qle_refl].
    apply rndE_le. apply Qle_shift_div_r; lra. }
  assert (Fq : isFinite (W / T) = true).
  { apply (@finite_between _ 0 1); try assumption; reflexivity. }
  destruct (mul_R _ _ Fq (eq_refl : isFinite 100 = true)) as [Nr Er].
  assert (E100 : R 100 == 100) by reflexivity.
  rewrite E100 in Er.
  assert (Lr : 0 <= R (W / T * 100)).
  { rewrite Er. apply rndE_nonneg. nra. }
  assert (Ur : R (W / T * 100) <= 100).
  { rewrite Er. assert (X : rndE 100 == 100) by reflexivity.
    apply Qle_trans with (rndE 100); [|rewrite X; apply Qle_refl].
    apply rndE_le. lra. }
  split; [|split; assumption].
  apply (@finite_between _ 0 100); try assumption; reflexivity.
Qed.

Lemma clamp_in_range (x : float) :
  isNaN x = false ->
  let r := Math_min [100; Math_max [0; x]]%float in
  (0 <=? r)%float = true /\ (r <=? 100)%float = true.
Proof.
  intros N. cbv zeta. rewrite clamp_cases, prim_is_nan, N.
  destruct (0 <? x)%float eqn:Px; [|split; reflexivity].
  destruct (x <? 100)%float eqn:Lx; [|split; reflexivity].
  split; now apply ltb_leb.
Qed.

(** ** The mean of numbers between 3/4 and 1 *)

Lemma inject_Z_below (z : Z) :
  (z <= 2 ^ 53)%Z -> inject_Z z < bpow 1024.
Proof.
  intros H. apply Qle_lt_trans with (inject_Z (2 ^ 53)); [|reflexivity].
  now rewrite <- Zle_Qle.
Qed.

Lemma sum_between (values : list float) :
  (forall v, In v values -> isFinite v = true /\ (3 # 4) <= R v <= 1) ->
  forall (k : nat) (start : float),
    (Z.of_nat (k + length values) < 2 ^ 51)%Z ->
    isFinite start = true ->
    (3 # 4) * inject_Z (Z.of_nat k) <= R start <= inject_Z (Z.of_nat k) ->
    let sum := fold_left (fun sum conf => sum + conf)%float values start in
    isFinite sum = true /\
    (3 # 4) * inject_Z (Z.of_nat (k + length values)) <= R sum
      <= inject_Z (Z.of_nat (k + length values)).
Proof.
  induction values as [|v values IH]; intros Hv k start Hk Fs Hs.
  - cbn [fold_left length]. rewrite Nat.add_0_r. split; assumption.
  - cbn [fold_left length] in *.
    destruct (Hv v (or_introl eq_refl)) as [Fv [Lv Uv]].
    destruct (add_R _ _ Fs Fv) as [N E].
    set (k1 := Z.of_nat (S k)).
    assert (Ek : inject_Z k1 == inject_Z (Z.of_nat k) + 1).
    { unfold k1. rewrite Nat2Z.inj_succ, <- Z.add_1_r, inject_Z_plus.
      reflexivity. }
    assert (P1 : 0 <= inject_Z k1).
    { rewrite <- (Zle_Qle 0). unfold k1. lia. }
    assert (B4 : bpow (-2) == 1 # 4) by reflexivity.
    assert (X : (3 # 4) * inject_Z k1 == inject_Z (3 * k1) * bpow (-2)).
    { rewrite inject_Z_mult, B4. change (inject_Z 3) with 3. ring. }
    assert (L : (3 # 4) * inject_Z k1 <= R (start + v)).
    { rewrite E. apply Qle_trans with (rndE ((3 # 4) * inject_Z k1)).
      - rewrite (rndE_compat X), rndE_scaled by (unfold k1; lia).
        rewrite X. apply Qle_refl.
      - apply rndE_le. lra. }
    assert (U : R (start + v) <= inject_Z k1).
    { rewrite E. apply Qle_trans with (rndE (inject_Z k1)).
      - apply rndE_le. lra.
      - rewrite rndE_Z by (unfold k1; lia). apply Qle_refl. }
    assert (F : isFinite (start + v) = true).
    { apply (@finite_between _ 0 (inject_Z k1)); try assumption.
      - lra.
      - reflexivity.
      - apply inject_Z_below. unfold k1. lia. }
    replace (k + S (length values))%nat with (S k + length values)%nat
      by lia.
    apply IH.
    + intros v' Hv'. apply Hv. now right.
    + lia.
    + exact F.
    + split; assumption.
Qed.

(** The mean [calculateConfidence] takes. *)
Lemma mean_between (values : list float) :
  values <> [] -> (Z.of_nat (length values) < 2 ^ 51)%Z ->
  (forall v, In v values -> isFinite v = true /\ (3 # 4) <= R v <= 1) ->
  let mean :=
    (fold_left (fun sum conf => sum + conf) values 0
     / Number_of_nat (length values))%float in
  (0.75 <=? mean)%float = true /\ (mean <=? 1)%float = true.
Proof.
  intros Hne Hlen Hv. cbv zeta.
  destruct (@sum_between values Hv O 0%float) as (Fs & Ls & Us).
  { exact Hlen. }
  { reflexivity. }
  { split; discriminate. }
  cbn [Nat.add] in Ls, Us.
  set (sum := fold_left (fun sum conf => (sum + conf)%float) values 0%float)
    in *.
  set (n := Z.of_nat (length values)) in *.
  assert (Pn : (1 <= n)%Z).
  { unfold n. destruct values; [congruence|simpl; lia]. }
  assert (Qn : 0 < inject_Z n) by (rewrite <- (Zlt_Qlt 0); lia).
  unfold Number_of_nat. fold n.
  destruct (@of_Z_small n) as [Fn En]; [lia|].
  assert (Nn : ~ R (of_Z n) == 0) by (rewrite En; lra).
  destruct (div_R _ _ Fs Fn Nn) as [Nm Em]. rewrite En in Em.
  assert (X34 : rndE (3 # 4) == 3 # 4) by reflexivity.
  assert (X1 : rndE 1 == 1) by reflexivity.
  assert (R34 : R 0.75 == 3 # 4) by reflexivity.
  assert (R1 : R 1 == 1) by reflexivity.
  split.
  - apply (leb_R _ _ (eq_refl : isNaN 0.75 = false) Nm).
    rewrite R34, Em. apply Qle_trans with (rndE (3 # 4));
      [rewrite X34; apply Qle_refl|].
    apply rndE_le. apply Qle_shift_div_l; [exact Qn|exact Ls].
  - apply (leb_R _ _ Nm (eq_refl : isNaN 1 = false)).
    rewrite R1, Em. apply Qle_trans with (rndE 1);
      [|rewrite X1; apply Qle_refl].
    apply rndE_le. apply Qle_shift_div_r; [exact Qn|]. lra.
Qed.

(** ** Neighbouring numbers *)

Lemma R_SF2Prim (s : bool) (m : positive) (e : Z) :
  canonical m e ->
  isFinite (SF2Prim (S754_finite s m e)) = true /\
  R (SF2Prim (S754_finite s m e)) = SF2Q (S754_finite s m e).
Proof.
  intros C. unfold isFinite, R.
  rewrite Prim2SF_SF2Prim by (now apply canonical_valid).
  split; reflexivity.
Qed.

(** No number lies between two numbers of mantissas [m] and [m + 1]. *)
Lemma adjacent (m : positive) (e : Z) (x : float) :
  canonical m e -> canonical (m + 1) e -> isFinite x = true ->
  R x <= F2Q (Zpos m) e \/ F2Q (Zpos (m + 1)) e <= R x.
Proof.
  intros C C1 F. pose proof (valid_prim x) as V. rewrite (R_finite _ F).
  pose proof (@F2Q_pos (Zpos m) e eq_refl) as Pm.
  unfold isFinite in F.
  destruct (Prim2SF x) as [s|s| |s mx ex] eqn:E; try discriminate.
  - left. cbn [SF2Q]. lra.
  - assert (Cx : canonical mx ex) by (now apply bounded_canonical).
    destruct s.
    + left. cbn [SF2Q cond_Zopp]. rewrite F2Q_opp.
      pose proof (@F2Q_pos (Zpos mx) ex eq_refl). lra.
    + cbn [SF2Q cond_Zopp].
      destruct (Z.lt_trichotomy ex e) as [L|[->|G]].
      * left. apply Qlt_le_weak. now apply canonical_exp_lt.
      * destruct (Z_le_gt_dec (Zpos mx) (Zpos m)) as [Le|Gt].
        -- left. now apply F2Q_le.
        -- right. apply F2Q_le. lia.
      * right. apply Qlt_le_weak. apply canonical_exp_lt; auto; lia.
Qed.

Lemma zero_cases (x : float) :
  (x =? 0)%float = true -> x = 0%float \/ x = (-0)%float.
Proof.
  rewrite eqb_spec. change (Prim2SF 0) with (S754_zero false).
  destruct (Prim2SF x) as [s|s| |s m e] eqn:E; cbn; try discriminate.
  - intros _. destruct s; [right|left]; apply Prim2SF_inj; rewrite E;
      reflexivity.
  - destruct s; discriminate.
  - destruct s; discriminate.
Qed.

End MathFacts.

(* ================================================================== *)
(** * Loops as folds *)

Section FoldLemmas.
Variables A B : Type.

(** A loop that pushes to an array. *)
Lemma fold_left_push (f : list B -> A -> list B) (g : A -> list B) :
  (forall acc x, f acc x = acc ++ g x) ->
  forall l acc, fold_left f l acc = acc ++ flat_map g l.
Proof.
  intros Hf l; induction l as [|x l IH]; intros acc; simpl.
  - now rewrite app_nil_r.
  - rewrite IH, Hf, <- app_assoc. reflexivity.
Qed.

(** A loop that keeps an invariant. *)
Lemma fold_left_invariant (Inv : B -> Prop) (f : B -> A -> B) :
  (forall b x, Inv b -> Inv (f b x)) ->
  forall l b, Inv b -> Inv (fold_left f l b).
Proof.
  intros Hf l; induction l as [|x l IH]; intros b Hb; simpl; auto.
Qed.
End FoldLemmas.

Lemma flat_map_nil (A B : Type) (g : A -> list B) (l : list A) :
  (forall x, In x l -> g x = []) -> flat_map g l = [].
Proof.
  induction l as [|x l IH]; intros H; simpl; [reflexivity|].
  rewrite (H x (or_introl eq_refl)), IH; [reflexivity|].
  intros y Hy; apply H; now right.
Qed.

(* ================================================================== *)
(** * The category matcher *)

Section Matcher.
Context {platform : Platform}.

Lemma keyword_loop (test : jsstring -> bool) (l : list jsstring) :
  forall acc n,
    fold_left
      (fun '(matchedKeywords, totalMatches) keyword =>
         if test keyword
         then (matchedKeywords ++ [keyword], S totalMatches)
         else (matchedKeywords, totalMatches))
      l (acc, n)
    = (acc ++ filter test l, (n + length (filter test l))%nat).
Proof.
  induction l as [|k l IH]; intros acc n; simpl.
  - now rewrite app_nil_r, Nat.add_0_r.
  - destruct (test k); rewrite IH; simpl.
    + now rewrite <- app_assoc, Nat.add_succ_r.
    + reflexivity.
Qed.

Lemma findPatternMatch_eq (clause : jsstring) (pattern : PatternSet.t) :
  findPatternMatch clause pattern =
  let matched := matchingKeywords clause pattern in
  if (length matched =? 0)%nat then None
  else Some {| PatternMatch.severity := PatternSet.severity pattern;
               PatternMatch.confidence :=
                 Math_min
                   [0.95; 0.6 + Number_of_nat (length matched) * 0.15];
               PatternMatch.keywords := matched |}.
Proof.
  unfold findPatternMatch, matchingKeywords.
  rewrite keyword_loop. reflexivity.
Qed.

Lemma analyzeClause_matches (this : ConsentLensAIEngine) (clause : jsstring) :
  Clause.matches (analyzeClause this clause)
  = flat_map (matchOf this clause) categoryKeys.
Proof.
  unfold analyzeClause; cbn [Clause.matches].
  rewrite (fold_left_push _ (matchOf this clause)); [reflexivity|].
  intros acc key; unfold matchOf.
  destruct (findPatternMatch clause (patterns this key)); simpl.
  - reflexivity.
  - now rewrite app_nil_r.
Qed.

Lemma matchOf_category (this : ConsentLensAIEngine) (clause : jsstring)
      (key : CategoryKey) (m : Match.t) :
  In m (matchOf this clause key) -> Match.category m = key.
Proof.
  unfold matchOf.
  destruct (findPatternMatch clause (patterns this key)); simpl.
  - intros [<-|[]]; reflexivity.
  - intros [].
Qed.

Lemma matchOf_none (this : ConsentLensAIEngine) (clause : jsstring)
      (key : CategoryKey) :
  matchCount this clause key = O -> matchOf this clause key = [].
Proof.
  unfold matchOf, matchCount; intros H.
  rewrite findPatternMatch_eq; simpl. now rewrite H.
Qed.

Lemma analyzeClause_no_match (this : ConsentLensAIEngine) (clause : jsstring) :
  (forall key, matchCount this clause key = O) ->
  Clause.matches (analyzeClause this clause) = [] /\
  Clause.is_risky (analyzeClause this clause) = false.
Proof.
  intros H.
  assert (E : Clause.matches (analyzeClause this clause) = []).
  { rewrite analyzeClause_matches. apply flat_map_nil.
    intros key _. now apply matchOf_none. }
  split; [exact E|].
  unfold analyzeClause in *; simpl in *. now rewrite E.
Qed.

End Matcher.

Lemma categoryKeys_complete (key : CategoryKey) : In key categoryKeys.
Proof. destruct key; simpl; tauto. Qed.

Lemma categoryKeys_NoDup : NoDup categoryKeys.
Proof.
  unfold categoryKeys.
  repeat (constructor; [simpl; intuition discriminate|]). constructor.
Qed.

(** Every keyword of the catalog gives a pattern [RegExp_new] reads. *)
Lemma keywords_are_read (key : CategoryKey) (keyword : jsstring) :
  In keyword (PatternSet.keywords (patterns constructor key)) ->
  RegExp_new (keywordSource keyword) <> None.
Proof.
  destruct key; simpl; intros H;
    repeat (destruct H as [<-|H]; [vm_compute; discriminate|]);
    destruct H.
Qed.

(** The builtins on small inputs. *)
Example split_sentences :
  split (RSeq (RPlus (RClass [CChar 46; CChar 33; CChar 63]))
              (RPlus (RClass [CSpace])))
        (lit "One.. two!  three. ")
  = [lit "One"; lit "two"; lit "three"; []].
Proof. reflexivity. Qed.

Example split_needs_space :
  split (RSeq (RPlus (RClass [CChar 46; CChar 33; CChar 63]))
              (RPlus (RClass [CSpace])))
        (lit "v1.2 is out.")
  = [lit "v1.2 is out."].
Proof. reflexivity. Qed.

Example preprocess_blanks_and_quotes :
  preprocessText ([32; 9; 8220] ++ lit "a" ++ [8221; 10; 13; 8217] ++ lit "b  ")%N
  = [34%N] ++ lit "a" ++ [34%N] ++ lit " 'b".
Proof. reflexivity. Qed.

Example short_fragments_dropped :
  extractClauses (lit "Too short. This one is long enough to stay. No.")
  = [lit "This one is long enough to stay"].
Proof. reflexivity. Qed.

Example keyword_blank_or_hyphen :
  keywordSource (lit "data brokers") = lit "data[-\s]brokers" /\
  keywordTest (lit "data brokers") (lit "sold to data-brokers") = true /\
  keywordTest (lit "data brokers") (lit "sold to data brokers") = true /\
  keywordTest (lit "data brokers") (lit "sold to databrokers") = false.
Proof. repeat split. Qed.

Example keyword_with_class :
  RegExp_new (keywordSource (lit "as[-s]is"))
  = Some (RSeq (RChar 97) (RSeq (RChar 115)
           (RSeq (RClass [CChar 91; CChar 45; CSpace])
             (RSeq (RChar 115) (RSeq (RChar 93)
               (RSeq (RChar 105) (RSeq (RChar 115) REmpty))))))).
Proof. reflexivity. Qed.

Example sort_is_stable :
  Array_sort (fun a b : float * nat => fst b - fst a)
             [(1, 0%nat); (3, 1%nat); (1, 2%nat); (3, 3%nat); (2, 4%nat)]
  = [(3, 1%nat); (3, 3%nat); (2, 4%nat); (1, 0%nat); (1, 2%nat)].
Proof. vm_compute. reflexivity. Qed.

Example round_half_up :
  Math_round 2.5 = 3 /\ Math_round (-2.5) = -2 /\
  Math_round 2.4 = 2 /\ Math_round (-100) = -100 /\
  Math_round 0.49999999999999994 = 0 /\ Math_round (-0.2) = neg_zero /\
  Math_round nan = nan /\ Math_round infinity = infinity.
Proof. repeat split. Qed.

Example max_and_min :
  Math_max [0; neg_zero] = 0 /\ Math_min [0; neg_zero] = neg_zero /\
  Math_max [] = neg_infinity /\ Math_min [100; Math_max [0; nan]] = nan.
Proof. repeat split. Qed.

Example rounded_sums :
  0.6 + 2 * 0.15 = 0.8999999999999999 /\
  (0.95 + 0.95 + 0.95) / 3 * 100 = 94.99999999999999 /\
  0.1 + 0.2 = 0.30000000000000004.
Proof. repeat split. Qed.

Example zero_weight_is_replaced :
  getUserAdjustedWeight FORCED_ARBITRATION
    {| UserPreferences.privacy_weight := Some 1;
       UserPreferences.legal_rights_weight := Some 0;
       UserPreferences.convenience_weight := Some 0 |} = 1.0
  /\ getUserAdjustedWeight FORCED_ARBITRATION
       {| UserPreferences.privacy_weight := Some 1;
          UserPreferences.legal_rights_weight := Some nan;
          UserPreferences.convenience_weight := Some 0 |} = 1.0.
Proof. split; reflexivity. Qed.

(** C2. On the constructed engine, for every clause and every category of
    which at least one keyword pattern matches the clause, [analyzeClause]
    produces a match of that category, and only one; its confidence is
    min(0.95, 0.6 + 0.15 x matchCount), where matchCount is the number of
    keyword patterns of the category that match, and its severity is the
    severity the pattern catalog gives the category. *)
Theorem match_confidence_and_severity :
  forall (platform : Platform) (clause : jsstring) (key : CategoryKey),
    (0 < matchCount constructor clause key)%nat ->
    exists m : Match.t,
      In m (Clause.matches (analyzeClause constructor clause)) /\
      Match.category m = key /\
      Match.confidence m
        = Math_min
            [0.95;
             0.6 + 0.15 * Number_of_nat (matchCount constructor clause key)] /\
      Match.severity m = PatternSet.severity (setupPatterns key) /\
      (forall m' : Match.t,
          In m' (Clause.matches (analyzeClause constructor clause)) ->
          Match.category m' = key -> m' = m).
Proof.
  intros platform clause key Hpos.
  pose proof (analyzeClause_matches constructor clause) as Hm.
  assert (Hone : exists m,
             matchOf constructor clause key = [m] /\
             Match.category m = key /\
             Match.confidence m
               = Math_min
                   [0.95;
                    0.6 + Number_of_nat (matchCount constructor clause key)
                          * 0.15] /\
             Match.severity m = PatternSet.severity (setupPatterns key)).
  { unfold matchOf. rewrite findPatternMatch_eq. cbv zeta.
    fold (matchCount constructor clause key).
    destruct (matchCount constructor clause key =? 0)%nat eqn:E.
    - apply Nat.eqb_eq in E. lia.
    - eexists; split; [reflexivity|]. simpl. auto. }
  destruct Hone as (m & Hof & Hcat & Hconf & Hsev).
  exists m. rewrite Hm. repeat split.
  - apply in_flat_map. exists key. split; [apply categoryKeys_complete|].
    rewrite Hof. now left.
  - exact Hcat.
  - rewrite Hconf. now rewrite MathFacts.mul_comm.
  - exact Hsev.
  - intros m' Hin Hcat'.
    apply in_flat_map in Hin. destruct Hin as (key' & _ & Hin).
    pose proof (matchOf_category _ _ _ _ Hin) as E.
    rewrite Hcat' in E. subst key'.
    rewrite Hof in Hin. destruct Hin as [<-|[]]. reflexivity.
Qed.

Lemma match_confidence_and_severity_witness :
  (0 < @matchCount basicLatin constructor arbitration_text
         FORCED_ARBITRATION)%nat /\
  exists m : Match.t,
    In m (Clause.matches
            (@analyzeClause basicLatin constructor arbitration_text)) /\
    Match.category m = FORCED_ARBITRATION /\
    Match.confidence m
      = Math_min
          [0.95;
           0.6 + 0.15 * Number_of_nat
                          (@matchCount basicLatin constructor
                             arbitration_text FORCED_ARBITRATION)] /\
    Match.severity m = PatternSet.severity (setupPatterns FORCED_ARBITRATION) /\
    (forall m' : Match.t,
        In m' (Clause.matches
                 (@analyzeClause basicLatin constructor arbitration_text)) ->
        Match.category m' = FORCED_ARBITRATION -> m' = m).
Proof.
  split.
  - vm_compute. lia.
  - apply (@match_confidence_and_severity basicLatin arbitration_text
             FORCED_ARBITRATION).
    vm_compute. lia.
Defined.

(* ================================================================== *)
(** * What [analyze] returns *)

Section Result.
Context {platform : Platform}.

Lemma analyze_fields (this : ConsentLensAIEngine) (text : jsstring)
      (options : Options.t) (r : AnalysisResult.t) :
  analyze this text options = Some r ->
  let user_preferences :=
    match Options.user_preferences options with
    | Some p => p | None => UserPreferences.empty end in
  AnalysisResult.risk_score r
    = calculateRiskScore this (clauseAnalysesOf this text) user_preferences /\
  AnalysisResult.risk_level r = getRiskLevel (AnalysisResult.risk_score r) /\
  AnalysisResult.red_flags r = generateRedFlags (clauseAnalysesOf this text) /\
  AnalysisResult.confidence r
    = calculateConfidence (clauseAnalysesOf this text) /\
  generateBenchmark this (Options.url options) (AnalysisResult.risk_score r)
    = Some (AnalysisResult.benchmark r).
Proof.
  unfold analyze, clauseAnalysesOf. cbv zeta.
  destruct (generateBenchmark this (Options.url options) _) eqn:E;
    [|discriminate].
  intros H; injection H as <-. simpl. auto.
Qed.

(** [analyze] returns unless [new URL] throws. *)
Lemma analyze_returns (this : ConsentLensAIEngine) (text : jsstring)
      (options : Options.t) :
  domainOf (Options.url options) <> None ->
  exists r, analyze this text options = Some r.
Proof.
  intros H. unfold analyze, generateBenchmark. cbv zeta.
  destruct (domainOf (Options.url options)); [|contradiction].
  eexists; reflexivity.
Qed.

(** The score is 0 or has gone through the final
    [Math.min(100, Math.max(0, finalScore))], which NaN goes through. *)
Lemma calculateRiskScore_range (this : ConsentLensAIEngine)
      (clauseAnalyses : list Clause.t) (prefs : UserPreferences.t) :
  let score := calculateRiskScore this clauseAnalyses prefs in
  score = nan \/ ((0 <=? score) = true /\ (score <=? 100) = true).
Proof.
  cbv zeta. unfold calculateRiskScore.
  destruct (length clauseAnalyses =? 0)%nat; [right; split; reflexivity|].
  destruct (length (filter Clause.is_risky clauseAnalyses) =? 0)%nat;
    [right; split; reflexivity|].
  destruct (fold_left _ _ _) as [totalWeightedScore totalWeight].
  destruct (totalWeight =? 0); [right; split; reflexivity|].
  apply MathFacts.clamp_range.
Qed.

Lemma getRiskLevel_thresholds (score : float) :
  (getRiskLevel score = HIGH <-> (70 <=? score) = true) /\
  (getRiskLevel score = MEDIUM
   <-> (40 <=? score) = true /\ (score <? 70) = true) /\
  (getRiskLevel score = LOW <-> (40 <=? score) = false) /\
  (score <> nan -> (getRiskLevel score = LOW <-> (score <? 40) = true)).
Proof.
  unfold getRiskLevel.
  assert (N40 : Number.isNaN 40 = false) by reflexivity.
  assert (N70 : Number.isNaN 70 = false) by reflexivity.
  assert (L : (40 <=? 70) = true) by reflexivity.
  destruct (70 <=? score) eqn:E70.
  - pose proof (@MathFacts.leb_trans 40 70 score L E70) as E40.
    destruct (NumberFacts.leb_not_nan E70) as [_ Ns].
    assert (G70 : (score <? 70) = false)
      by (now apply MathFacts.ltb_false_leb).
    assert (G40 : (score <? 40) = false)
      by (now apply MathFacts.ltb_false_leb).
    rewrite E40, G70, G40. intuition discriminate.
  - destruct (40 <=? score) eqn:E40.
    + destruct (NumberFacts.leb_not_nan E40) as [_ Ns].
      assert (G70 : (score <? 70) = true)
        by (now apply MathFacts.leb_false_ltb).
      assert (G40 : (score <? 40) = false)
        by (now apply MathFacts.ltb_false_leb).
      rewrite G70, G40. intuition discriminate.
    + repeat split; try discriminate; try (intros [? ?]; discriminate).
      * intros _.
        assert (Ns : Number.isNaN score = false).
        { destruct (Number.isNaN score) eqn:Es; [|reflexivity].
          apply NumberFacts.isNaN_eq in Es. contradiction. }
        now apply MathFacts.leb_false_ltb.
Qed.

Lemma takeRedFlag_invariant (state : list CategoryKey * list RedFlag.t)
      (m : MatchOfClause) :
  redFlagsInvariant state -> redFlagsInvariant (takeRedFlag state m).
Proof.
  destruct state as [used flags]. unfold redFlagsInvariant, takeRedFlag.
  simpl. intros (Hlen & Hnd & Hused).
  destruct (existsb _ used) eqn:Ex; simpl; [auto|].
  destruct (length flags <? 3)%nat eqn:El; simpl; [|auto].
  apply Nat.ltb_lt in El.
  assert (Hfresh : ~ In (Match.category (fst m)) used).
  { intros Hin.
    assert (existsb (CategoryKey_eqb (Match.category (fst m))) used = true).
    { apply existsb_exists. eexists; split; [exact Hin|].
      unfold CategoryKey_eqb.
      destruct (CategoryKey_eq_dec _ _); congruence. }
    congruence. }
  repeat split.
  - rewrite length_app. simpl. lia.
  - rewrite map_app. simpl.
    apply NoDup_app; [exact Hnd| |].
    + constructor; [intros []|constructor].
    + intros c Hc [<-|[]]. apply Hfresh.
      apply in_map_iff in Hc. destruct Hc as (flag & <- & Hflag).
      now apply Hused.
  - intros flag Hin. apply in_app_or in Hin.
    destruct Hin as [Hin|[<-|[]]]; simpl; auto.
Qed.

Lemma generateRedFlags_invariant (clauseAnalyses : list Clause.t) :
  (length (generateRedFlags clauseAnalyses) <= 3)%nat /\
  NoDup (map RedFlag.category (generateRedFlags clauseAnalyses)).
Proof.
  unfold generateRedFlags. cbv zeta.
  pose proof (fold_left_invariant redFlagsInvariant takeRedFlag
                takeRedFlag_invariant
                (Array_sort compareMatches (collectMatches clauseAnalyses))
                ([], [])) as H.
  destruct H as (Hlen & Hnd & _).
  - unfold redFlagsInvariant; simpl. repeat split; [lia|constructor|tauto].
  - auto.
Qed.

End Result.

(* ================================================================== *)
(** * Properties of the result *)

(** C4. Whatever the text and the options, the [red_flags] of the result
    [analyze] returns has at most three entries, and no two of them have
    the same [category]. *)
Theorem red_flags_at_most_three_distinct :
  forall (platform : Platform) (this : ConsentLensAIEngine)
         (text : jsstring) (options : Options.t) (r : AnalysisResult.t),
    analyze this text options = Some r ->
    (length (AnalysisResult.red_flags r) <= 3)%nat /\
    NoDup (map RedFlag.category (AnalysisResult.red_flags r)).
Proof.
  intros platform this text options r H.
  apply analyze_fields in H. destruct H as (_ & _ & -> & _).
  apply generateRedFlags_invariant.
Qed.

Lemma red_flags_at_most_three_distinct_witness :
  exists r : AnalysisResult.t,
    @analyze basicLatin constructor four_categories_text Options.empty
      = Some r /\
    (length (AnalysisResult.red_flags r) <= 3)%nat /\
    NoDup (map RedFlag.category (AnalysisResult.red_flags r)).
Proof.
  eexists. split.
  - vm_compute. reflexivity.
  - apply (@red_flags_at_most_three_distinct basicLatin constructor
             four_categories_text Options.empty).
    vm_compute. reflexivity.
Defined.

(* ================================================================== *)
(** * The catalog *)

(** Added from left to right, as a [reduce] over the catalog would, the
    weights give the number just below 1. *)
Example weights_added_from_the_left :
  forall platform : Platform,
    fold_left PrimFloat.add
      (map (fun entry => Category.weight (snd entry))
           (getCategories constructor)) 0
    = 0.9999999999999999.
Proof. intros platform. reflexivity. Qed.

(** C8. The catalog has eight categories, of weights 0.18, 0.16, 0.14,
    0.15, 0.12, 0.08, 0.09 and 0.08; the eight numbers stored for them sum
    to 1 exactly, and their binary64 sum, taken from the last weight to the
    first, is 1 as well.  No input enters the catalog. *)
Theorem category_weights_sum_to_one :
  forall platform : Platform,
    let weights :=
      map (fun entry => Category.weight (snd entry))
          (getCategories constructor) in
    weights = [0.18; 0.16; 0.14; 0.15; 0.12; 0.08; 0.09; 0.08] /\
    fold_right PrimFloat.add 0 weights = 1 /\
    (fold_right Qplus 0 (map Number.R weights) == 1)%Q.
Proof.
  intros platform weights. subst weights.
  split; [reflexivity|]. split; [reflexivity|]. vm_compute. reflexivity.
Qed.

(* ================================================================== *)
(** * The benchmark *)

(** The percentage grows with the score. *)
Lemma percentage_monotone (average x y : float) :
  Number.isFinite average = true -> (0 <? average) = true ->
  (x <=? y) = true ->
  (Math_round (((x - average) / average) * 100)
   <=? Math_round (((y - average) / average) * 100)) = true.
Proof.
  intros F P H.
  apply MathFacts.Math_round_mono.
  apply (@MathFacts.mul_mono 100 _ _ eq_refl eq_refl).
  apply (MathFacts.div_mono F P).
  now apply MathFacts.sub_mono.
Qed.

Lemma average_is_positive (bucket : BenchmarkKey) :
  let average := Benchmark.average_risk_score (setupBenchmarks bucket) in
  Number.isFinite average = true /\ (0 <? average) = true /\
  Math_round (((average - average) / average) * 100) = 0 /\
  Math_round (((nan - average) / average) * 100) = nan.
Proof. destruct bucket; repeat split; reflexivity. Qed.

Lemma above_average (bucket : BenchmarkKey) (riskScore : float) :
  let average := Benchmark.average_risk_score (setupBenchmarks bucket) in
  (0 <? Math_round (((riskScore - average) / average) * 100)) = true ->
  (average <? riskScore) = true.
Proof.
  cbv zeta. destruct (average_is_positive bucket) as (F & P & Z0 & Zn).
  cbv zeta in F, P, Z0, Zn.
  set (average := Benchmark.average_risk_score (setupBenchmarks bucket)) in *.
  intros H.
  destruct (riskScore <=? average) eqn:E.
  - pose proof (percentage_monotone F P E) as M. rewrite Z0 in M.
    pose proof (MathFacts.ltb_leb_trans H M) as A. discriminate A.
  - destruct (Number.isNaN riskScore) eqn:N.
    + apply NumberFacts.isNaN_eq in N. subst riskScore.
      rewrite Zn in H. discriminate H.
    + apply MathFacts.leb_false_ltb in E;
        [exact E|exact N|now apply NumberFacts.finite_not_nan].
Qed.

Example benchmark_of_a_social_media_page :
  option_map
    (fun b => (BenchmarkResult.percentage b, BenchmarkResult.comparison b))
    (@generateBenchmark basicLatin constructor
       (Some (lit "https://www.facebook.com/terms")) 78)
  = Some (20, worse).
Proof. reflexivity. Qed.

Example benchmark_just_above_average :
  option_map
    (fun b => (BenchmarkResult.percentage b, BenchmarkResult.comparison b))
    (@generateBenchmark basicLatin constructor None 50.2)
  = Some (0, better).
Proof. reflexivity. Qed.

Example benchmark_refused_url :
  @generateBenchmark basicLatin constructor (Some (lit "facebook.com")) 78
  = None.
Proof. reflexivity. Qed.

(** C9. The benchmark of the constructed engine compares the score with
    the average of the bucket chosen from the domain: the percentage is
    round(((riskScore - average) / average) x 100), a positive percentage
    is reported as [worse] and occurs only when the score is above the
    average, and without a URL the bucket is TECHNOLOGY, of average 50. *)
Theorem benchmark_percentage :
  forall (platform : Platform) (url : option jsstring) (riskScore : float)
         (b : BenchmarkResult.t),
    generateBenchmark constructor url riskScore = Some b ->
    exists domain : jsstring,
      domainOf url = Some domain /\
      let bucket := benchmarkCategory domain in
      let average := Benchmark.average_risk_score (setupBenchmarks bucket) in
      BenchmarkResult.category b = Benchmark.name (setupBenchmarks bucket) /\
      BenchmarkResult.average_score b = average /\
      BenchmarkResult.percentage b
        = Math_round (((riskScore - average) / average) * 100) /\
      ((0 <? BenchmarkResult.percentage b) = true ->
       (average <? riskScore) = true) /\
      (BenchmarkResult.comparison b = worse
         <-> (0 <? BenchmarkResult.percentage b) = true) /\
      (url = None -> bucket = TECHNOLOGY /\ average = 50).
Proof.
  intros platform url riskScore b H.
  unfold generateBenchmark in H.
  destruct (domainOf url) as [domain|] eqn:Hd; [|discriminate].
  exists domain. split; [reflexivity|].
  injection H as <-. cbv zeta. cbn [BenchmarkResult.category
    BenchmarkResult.average_score BenchmarkResult.percentage
    BenchmarkResult.comparison benchmarks constructor].
  repeat split.
  - apply above_average.
  - destruct (0 <? Math_round _) eqn:E; [|discriminate]. reflexivity.
  - intros Hpos. now rewrite Hpos.
  - subst url. simpl in Hd. injection Hd as <-. reflexivity.
  - subst url. simpl in Hd. injection Hd as <-. reflexivity.
Qed.

Lemma benchmark_percentage_witness :
  exists b : BenchmarkResult.t,
    @generateBenchmark basicLatin constructor None 100 = Some b /\
    exists domain : jsstring,
      @domainOf basicLatin None = Some domain /\
      let bucket := benchmarkCategory domain in
      let average := Benchmark.average_risk_score (setupBenchmarks bucket) in
      BenchmarkResult.category b = Benchmark.name (setupBenchmarks bucket) /\
      BenchmarkResult.average_score b = average /\
      BenchmarkResult.percentage b
        = Math_round (((100 - average) / average) * 100) /\
      ((0 <? BenchmarkResult.percentage b) = true ->
       (average <? 100) = true) /\
      (BenchmarkResult.comparison b = worse
         <-> (0 <? BenchmarkResult.percentage b) = true) /\
      (@None jsstring = None -> bucket = TECHNOLOGY /\ average = 50).
Proof.
  eexists. split.
  - vm_compute. reflexivity.
  - apply (@benchmark_percentage basicLatin None 100).
    vm_compute. reflexivity.
Defined.

(* ================================================================== *)
(** * Text without a clause *)

Lemma whiteSpace_run (step : jsstring -> list jsstring) :
  step [] = [] ->
  (forall c s, isWhiteSpace c = true -> step (c :: s) = [s]) ->
  forall s fuel,
    forallb isWhiteSpace s = true -> s <> [] -> (length s <= S fuel)%nat ->
    exists others, repeat1 step fuel s = [] :: others.
Proof.
  intros Hnil Hstep.
  induction s as [|c s IH]; intros fuel Hws Hne Hlen; [congruence|].
  simpl in Hws. apply andb_true_iff in Hws. destruct Hws as [Hc Hs].
  destruct fuel as [|fuel]; cbn [repeat1]; rewrite (Hstep _ _ Hc);
    cbn [flat_map app].
  - destruct s; [eauto|simpl in Hlen; lia].
  - replace (length s <? length (c :: s))%nat with true
      by (symmetry; apply Nat.ltb_lt; simpl; lia).
    destruct s as [|c' s'].
    + destruct fuel; cbn [repeat1]; rewrite Hnil; simpl; eauto.
    + destruct (IH fuel Hs) as [others E];
        [discriminate|simpl in *; lia|].
      rewrite E. simpl. eauto.
Qed.

Lemma whiteSpace_matchAt (s : jsstring) :
  forallb isWhiteSpace s = true -> s <> [] ->
  matchAt false (RPlus (RClass [CSpace])) s = Some [].
Proof.
  intros Hws Hne. unfold matchAt.
  change (matches false (RPlus (RClass [CSpace])) s)
    with (repeat1 (matches false (RClass [CSpace])) (length s) s).
  destruct (@whiteSpace_run (matches false (RClass [CSpace])) eq_refl)
    with (s := s) (fuel := length s) as [others E]; auto.
  { intros c s0 Hc. simpl. now rewrite Hc. }
  now rewrite E.
Qed.

Lemma whiteSpace_collapses (s : jsstring) :
  forallb isWhiteSpace s = true -> s <> [] ->
  replaceAll (RPlus (RClass [CSpace])) (lit " ") s = lit " ".
Proof.
  intros Hws Hne. unfold replaceAll. cbn [replace_go].
  rewrite (whiteSpace_matchAt Hws Hne).
  replace (length (@nil N) <? length s)%nat with true
    by (symmetry; apply Nat.ltb_lt; destruct s; simpl; [congruence|lia]).
  destruct s as [|c s]; [congruence|]. reflexivity.
Qed.

(** A text of white space only, the empty text included, has no clause. *)
Lemma whiteSpace_has_no_clause (text : jsstring) :
  forallb isWhiteSpace text = true ->
  extractClauses (preprocessText text) = [].
Proof.
  intros Hws. unfold preprocessText.
  destruct text as [|c text]; [reflexivity|].
  rewrite whiteSpace_collapses by (auto; discriminate).
  reflexivity.
Qed.

(* ================================================================== *)
(** * Text without a match *)

Section NoMatch.
Context {platform : Platform}.

Lemma collectMatches_none (clauseAnalyses : list Clause.t) :
  (forall c, In c clauseAnalyses -> Clause.matches c = []) ->
  collectMatches clauseAnalyses = [].
Proof.
  intros H. unfold collectMatches.
  assert (G : forall acc,
             fold_left
               (fun allMatches clause =>
                  fold_left
                    (fun allMatches match_ =>
                       allMatches ++ [(match_, Clause.text clause)])
                    (Clause.matches clause) allMatches)
               clauseAnalyses acc = acc).
  { induction clauseAnalyses as [|c l IH]; intros acc; simpl.
    - reflexivity.
    - rewrite (H c (or_introl eq_refl)). simpl.
      apply IH. intros c' Hc'. apply H. now right. }
  apply G.
Qed.

Lemma no_risky_clause (clauseAnalyses : list Clause.t) :
  (forall c, In c clauseAnalyses -> Clause.is_risky c = false) ->
  filter Clause.is_risky clauseAnalyses = [].
Proof.
  induction clauseAnalyses as [|c l IH]; intros H; simpl; [reflexivity|].
  rewrite (H c (or_introl eq_refl)). apply IH.
  intros c' Hc'. apply H. now right.
Qed.

Lemma clauseAnalysesOf_no_match (this : ConsentLensAIEngine)
      (text : jsstring) :
  (forall clause, In clause (extractClauses (preprocessText text)) ->
                  forall key, matchCount this clause key = O) ->
  forall c, In c (clauseAnalysesOf this text) ->
            Clause.matches c = [] /\ Clause.is_risky c = false.
Proof.
  intros H c Hc. unfold clauseAnalysesOf in Hc.
  apply in_map_iff in Hc. destruct Hc as (clause & <- & Hin).
  apply analyzeClause_no_match. now apply H.
Qed.

End NoMatch.

(** C5. When no clause of the text matches a keyword pattern of any
    category, and in particular when the text is empty or white space
    only, [analyze] returns (unless [new URL] throws on the [url] option)
    a result with [risk_score] 0, [risk_level] LOW, no red flag and
    [confidence] 1. *)
Theorem no_match_gives_zero_risk :
  forall (platform : Platform) (this : ConsentLensAIEngine)
         (text : jsstring) (options : Options.t),
    (forallb isWhiteSpace text = true \/
     forall clause, In clause (extractClauses (preprocessText text)) ->
                    forall key, matchCount this clause key = O) ->
    domainOf (Options.url options) <> None ->
    exists r : AnalysisResult.t,
      analyze this text options = Some r /\
      AnalysisResult.risk_score r = 0 /\
      AnalysisResult.risk_level r = LOW /\
      AnalysisResult.red_flags r = [] /\
      AnalysisResult.confidence r = 1.
Proof.
  intros platform this text options Hno Hurl.
  assert (Hclauses :
            forall c, In c (clauseAnalysesOf this text) ->
                      Clause.matches c = [] /\ Clause.is_risky c = false).
  { destruct Hno as [Hws|Hno].
    - unfold clauseAnalysesOf. rewrite (whiteSpace_has_no_clause _ Hws).
      intros c [].
    - now apply clauseAnalysesOf_no_match. }
  destruct (analyze_returns this text options Hurl) as [r Hr].
  exists r. split; [exact Hr|].
  apply analyze_fields in Hr. cbv zeta in Hr.
  destruct Hr as (Hscore & Hlevel & Hflags & Hconf & _).
  assert (Hrisky : filter Clause.is_risky (clauseAnalysesOf this text) = []).
  { apply no_risky_clause. intros c Hc. now apply Hclauses. }
  assert (Hzero : AnalysisResult.risk_score r = 0).
  { rewrite Hscore. unfold calculateRiskScore. rewrite Hrisky.
    destruct (length (clauseAnalysesOf this text) =? 0)%nat; reflexivity. }
  repeat split.
  - exact Hzero.
  - rewrite Hlevel, Hzero. reflexivity.
  - rewrite Hflags. unfold generateRedFlags. cbv zeta.
    rewrite collectMatches_none; [reflexivity|].
    intros c Hc. now apply Hclauses.
  - rewrite Hconf. unfold calculateConfidence. rewrite Hrisky.
    destruct (length (clauseAnalysesOf this text) =? 0)%nat; reflexivity.
Qed.

Lemma no_match_gives_zero_risk_witness :
  (forallb isWhiteSpace sharing_text = true \/
   forall clause,
     In clause (extractClauses (preprocessText sharing_text)) ->
     forall key,
       @matchCount basicLatin constructor clause key = O) /\
  @domainOf basicLatin (Options.url Options.empty) <> None /\
  exists r : AnalysisResult.t,
    @analyze basicLatin constructor sharing_text Options.empty = Some r /\
    AnalysisResult.risk_score r = 0 /\
    AnalysisResult.risk_level r = LOW /\
    AnalysisResult.red_flags r = [] /\
    AnalysisResult.confidence r = 1.
Proof.
  assert (Hno : forall clause,
             In clause (extractClauses (preprocessText sharing_text)) ->
             forall key,
               @matchCount basicLatin constructor clause key = O).
  { replace (extractClauses (preprocessText sharing_text))
      with [sharing_text] by (vm_compute; reflexivity).
    intros clause [<-|[]] key. destruct key; vm_compute; reflexivity. }
  assert (Hurl : @domainOf basicLatin (Options.url Options.empty) <> None).
  { simpl. discriminate. }
  split; [right; exact Hno|]. split; [exact Hurl|].
  apply (@no_match_gives_zero_risk basicLatin constructor sharing_text
           Options.empty); [right; exact Hno|exact Hurl].
Defined.

(* ================================================================== *)
(** * Basic Latin text: the engine does not depend on the platform *)

Section BasicLatinText.
Context {platform : Platform}.

Lemma findPatternMatch_basic_latin (clause : jsstring)
      (pattern : PatternSet.t) :
  forallb isAscii clause = true ->
  findPatternMatch clause pattern
  = @findPatternMatch basicLatin clause pattern.
Proof.
  intros H. unfold findPatternMatch.
  rewrite toLowerCase_basic_latin by exact H. reflexivity.
Qed.

Lemma analyzeClause_basic_latin (this : ConsentLensAIEngine)
      (clause : jsstring) :
  forallb isAscii clause = true ->
  analyzeClause this clause = @analyzeClause basicLatin this clause.
Proof.
  intros H. unfold analyzeClause, categoryKeys. cbn [fold_left].
  rewrite !findPatternMatch_basic_latin by exact H. reflexivity.
Qed.

Lemma applyLinguisticModifiers_basic_latin (score : float) (text : jsstring) :
  forallb isAscii text = true ->
  applyLinguisticModifiers score text
  = @applyLinguisticModifiers basicLatin score text.
Proof.
  intros H. unfold applyLinguisticModifiers.
  rewrite toLowerCase_basic_latin by exact H. reflexivity.
Qed.

Lemma calculateRiskScore_basic_latin (this : ConsentLensAIEngine)
      (clauseAnalyses : list Clause.t) (prefs : UserPreferences.t) :
  forallb isAscii (join (lit " ") (map Clause.text clauseAnalyses)) = true ->
  calculateRiskScore this clauseAnalyses prefs
  = @calculateRiskScore basicLatin this clauseAnalyses prefs.
Proof.
  intros H. unfold calculateRiskScore.
  destruct (length clauseAnalyses =? 0)%nat; [reflexivity|].
  destruct (length (filter Clause.is_risky clauseAnalyses) =? 0)%nat;
    [reflexivity|].
  destruct (fold_left _ _ _) as [totalWeightedScore totalWeight].
  destruct (totalWeight =? 0); [reflexivity|].
  cbv zeta. rewrite applyLinguisticModifiers_basic_latin by exact H.
  reflexivity.
Qed.

Lemma clauseAnalysesOf_basic_latin (this : ConsentLensAIEngine)
      (text : jsstring) :
  forallb (forallb isAscii) (extractClauses (preprocessText text)) = true ->
  clauseAnalysesOf this text = @clauseAnalysesOf basicLatin this text.
Proof.
  intros H. unfold clauseAnalysesOf. apply map_ext_in.
  intros clause Hin. apply analyzeClause_basic_latin.
  rewrite forallb_forall in H. now apply H.
Qed.

(** Without a URL and on a text whose clauses are Basic Latin, the result
    is the one computed with the case mapping of Basic Latin. *)
Lemma analyze_basic_latin (this : ConsentLensAIEngine) (text : jsstring)
      (options : Options.t) :
  Options.url options = None ->
  forallb (forallb isAscii) (extractClauses (preprocessText text)) = true ->
  forallb isAscii
    (join (lit " ")
          (map Clause.text (@clauseAnalysesOf basicLatin this text))) = true ->
  analyze this text options = @analyze basicLatin this text options.
Proof.
  intros Hurl Hclauses Hjoin. unfold analyze. cbv zeta.
  fold (clauseAnalysesOf this text).
  fold (@clauseAnalysesOf basicLatin this text).
  rewrite clauseAnalysesOf_basic_latin by exact Hclauses.
  rewrite calculateRiskScore_basic_latin by exact Hjoin.
  rewrite Hurl. reflexivity.
Qed.

End BasicLatinText.

(* ================================================================== *)
(** * The two scenarios *)

Ltac by_evaluation := vm_compute; reflexivity.

(** Replaces the platform by the case mapping of Basic Latin in a goal
    about [analyze] and [clauseAnalysesOf] on a Basic Latin text. *)
Ltac to_basic_latin :=
  repeat rewrite analyze_basic_latin by by_evaluation;
  repeat rewrite clauseAnalysesOf_basic_latin by by_evaluation.

(** C6. On the arbitration text with the default options, the clause
    analysis holds a match of FORCED_ARBITRATION and a match of
    CLASS_ACTION_WAIVER, the modifier applied to the raw score is the
    obligation one alone (the score is multiplied by 1.1), and the result
    has [risk_level] HIGH. *)
Theorem arbitration_scenario :
  forall platform : Platform,
  exists r : AnalysisResult.t,
    analyze constructor arbitration_text Options.empty = Some r /\
    map Match.category
        (flat_map Clause.matches
                  (clauseAnalysesOf constructor arbitration_text))
      = [FORCED_ARBITRATION; CLASS_ACTION_WAIVER] /\
    (forall score : float,
        applyLinguisticModifiers score
          (join (lit " ")
                (map Clause.text
                     (clauseAnalysesOf constructor arbitration_text)))
        = score * 1.1) /\
    AnalysisResult.risk_score r
      = Math_min [100; Math_max [0; arbitration_rawScore * 1.1]] /\
    AnalysisResult.risk_score r = 100 /\
    AnalysisResult.risk_level r = HIGH.
Proof.
  intros platform. to_basic_latin.
  eexists. split; [by_evaluation|].
  split; [by_evaluation|].
  split; [|repeat split; by_evaluation].
  intros score.
  rewrite applyLinguisticModifiers_basic_latin by by_evaluation.
  unfold applyLinguisticModifiers.
  repeat match goal with
         | |- context [if ?b then _ else _] =>
             let v := eval vm_compute in b in
             replace b with v by by_evaluation; cbv iota
         end.
  cbv zeta. reflexivity.
Qed.

Lemma arbitration_scenario_witness :
  exists r : AnalysisResult.t,
    @analyze basicLatin constructor arbitration_text Options.empty = Some r /\
    map Match.category
        (flat_map Clause.matches
                  (@clauseAnalysesOf basicLatin constructor arbitration_text))
      = [FORCED_ARBITRATION; CLASS_ACTION_WAIVER] /\
    (forall score : float,
        @applyLinguisticModifiers basicLatin score
          (join (lit " ")
                (map Clause.text
                     (@clauseAnalysesOf basicLatin constructor
                        arbitration_text)))
        = score * 1.1) /\
    AnalysisResult.risk_score r
      = Math_min [100; Math_max [0; arbitration_rawScore * 1.1]] /\
    AnalysisResult.risk_score r = 100 /\
    AnalysisResult.risk_level r = HIGH.
Proof.
  exact (arbitration_scenario basicLatin).
Defined.

(** C1, on the code.  The keyword written [third[-\s]party advertisers]
    becomes the pattern [third[[-\s]s]party[-\s]advertisers], which asks
    for the characters [s]] after the class and matches neither
    [third party advertisers] nor [third-party advertisers]; on the
    sharing text with the
    default options no keyword of DATA_SHARING_RESALE matches, the clause
    analysis holds no match, and [analyze] returns [risk_score] 0 without
    red flag and without category, the permissive modifier that the text
    would trigger (a factor 0.9) being applied to nothing. *)
Theorem sharing_scenario_no_match :
  forall platform : Platform,
    keywordSource (lit "third[-s]party advertisers")
      = lit "third[[-\s]s]party[-\s]advertisers" /\
    keywordTest (lit "third[-s]party advertisers")
                (lit "third party advertisers") = false /\
    keywordTest (lit "third[-s]party advertisers")
                (lit "third-party advertisers") = false /\
    keywordTest (lit "third[-s]party advertisers")
                (lit "third-s]party advertisers") = true /\
    extractClauses (preprocessText sharing_text) = [sharing_text] /\
    findPatternMatch sharing_text (patterns constructor DATA_SHARING_RESALE)
      = None /\
    flat_map Clause.matches (clauseAnalysesOf constructor sharing_text) = [] /\
    (forall score : float,
        applyLinguisticModifiers score sharing_text = score * 0.9) /\
    exists r : AnalysisResult.t,
      analyze constructor sharing_text Options.empty = Some r /\
      AnalysisResult.risk_score r = 0 /\
      AnalysisResult.risk_level r = LOW /\
      AnalysisResult.red_flags r = [] /\
      AnalysisResult.categories r = [].
Proof.
  intros platform. to_basic_latin.
  rewrite findPatternMatch_basic_latin by by_evaluation.
  split; [by_evaluation|]. split; [by_evaluation|].
  split; [by_evaluation|]. split; [by_evaluation|].
  split; [by_evaluation|]. split; [by_evaluation|].
  split; [by_evaluation|].
  split.
  - intros score.
    rewrite applyLinguisticModifiers_basic_latin by by_evaluation.
    unfold applyLinguisticModifiers.
    repeat match goal with
           | |- context [if ?b then _ else _] =>
               let v := eval vm_compute in b in
               replace b with v by by_evaluation; cbv iota
           end.
    cbv zeta. reflexivity.
  - eexists. split; [by_evaluation|]. repeat split.
Qed.

(* ================================================================== *)
(** * A score that is not a number *)

(** C3, on the code.  With a privacy weight near the largest number, the
    seven matches of the text make both sums of [calculateRiskScore]
    infinite; their quotient is NaN, which goes through
    [Math.min(100, Math.max(0, finalScore))] unchanged: the [risk_score]
    that [analyze] returns is NaN, which is neither at least 0 nor at
    most 100. *)
Theorem risk_score_nan_on_overflow :
  forall platform : Platform,
  exists r : AnalysisResult.t,
    analyze constructor seven_sales_text huge_privacy_weight = Some r /\
    map Match.category
        (flat_map Clause.matches
                  (clauseAnalysesOf constructor seven_sales_text))
      = repeat DATA_SHARING_RESALE 7 /\
    AnalysisResult.risk_score r = nan /\
    (0 <=? AnalysisResult.risk_score r) = false /\
    (AnalysisResult.risk_score r <=? 100) = false.
Proof.
  intros platform. to_basic_latin.
  eexists. split; [by_evaluation|]. repeat split; by_evaluation.
Qed.

(** C10, on the code.  On the same input the [risk_score] is NaN, both
    comparisons of [getRiskLevel] fail and the [risk_level] is LOW,
    although the score is not below 40. *)
Theorem risk_level_low_on_nan_score :
  forall platform : Platform,
  exists r : AnalysisResult.t,
    analyze constructor seven_sales_text huge_privacy_weight = Some r /\
    AnalysisResult.risk_score r = nan /\
    AnalysisResult.risk_level r = LOW /\
    (AnalysisResult.risk_score r <? 40) = false.
Proof.
  intros platform. to_basic_latin.
  eexists. split; [by_evaluation|]. repeat split; by_evaluation.
Qed.
(* ================================================================== *)
(** * The matcher takes a prefix *)

Lemma repeat1_suffix (step : jsstring -> list jsstring) :
  (forall s rest, In rest (step s) -> exists pre, s = pre ++ rest) ->
  forall fuel s rest,
    In rest (repeat1 step fuel s) -> exists pre, s = pre ++ rest.
Proof.
  intros Hstep. induction fuel as [|fuel IH]; intros s rest Hin;
    cbn [repeat1] in Hin; apply in_flat_map in Hin;
    destruct Hin as (s' & Hs' & Hin); destruct (Hstep _ _ Hs') as [pre E].
  - destruct Hin as [<-|[]]. eauto.
  - apply in_app_or in Hin. destruct Hin as [Hin|[<-|[]]]; [|eauto].
    destruct (length s' <? length s)%nat; [|destruct Hin].
    destruct (IH _ _ Hin) as [pre' E']. exists (pre ++ pre').
    rewrite <- app_assoc, <- E'. exact E.
Qed.

Lemma matches_suffix (ignoreCase : bool) (r : RegExp) :
  forall s rest,
    In rest (matches ignoreCase r s) -> exists pre, s = pre ++ rest.
Proof.
  induction r as [c|items|r IH|r1 IH1 r2 IH2|r1 IH1 r2 IH2|];
    intros s rest Hin; cbn [matches] in Hin.
  - destruct s as [|x s]; [destruct Hin|].
    destruct (_ =? _)%N; [|destruct Hin].
    destruct Hin as [<-|[]]. now exists [x].
  - destruct s as [|x s]; [destruct Hin|].
    destruct (existsb _ _); [|destruct Hin].
    destruct Hin as [<-|[]]. now exists [x].
  - eapply repeat1_suffix; eauto.
  - apply in_flat_map in Hin. destruct Hin as (mid & Hmid & Hin).
    destruct (IH1 _ _ Hmid) as [pre1 E1]. destruct (IH2 _ _ Hin) as [pre2 E2].
    exists (pre1 ++ pre2). rewrite <- app_assoc, <- E2. exact E1.
  - apply in_app_or in Hin. destruct Hin; eauto.
  - destruct Hin as [<-|[]]. now exists [].
Qed.

Lemma repeat1_consumes (step : jsstring -> list jsstring) :
  (forall s rest, In rest (step s) -> (length rest < length s)%nat) ->
  forall fuel s rest,
    In rest (repeat1 step fuel s) -> (length rest < length s)%nat.
Proof.
  intros Hstep. induction fuel as [|fuel IH]; intros s rest Hin;
    cbn [repeat1] in Hin; apply in_flat_map in Hin;
    destruct Hin as (s' & Hs' & Hin); pose proof (Hstep _ _ Hs') as Hlt.
  - destruct Hin as [<-|[]]. exact Hlt.
  - apply in_app_or in Hin. destruct Hin as [Hin|[<-|[]]]; [|exact Hlt].
    destruct (length s' <? length s)%nat; [|destruct Hin].
    pose proof (IH _ _ Hin). lia.
Qed.

Lemma matches_length (ignoreCase : bool) (r : RegExp) (s rest : jsstring) :
  In rest (matches ignoreCase r s) -> (length rest <= length s)%nat.
Proof.
  intros Hin. destruct (matches_suffix _ _ _ _ Hin) as [pre ->].
  rewrite length_app. lia.
Qed.

Lemma matches_consumes (ignoreCase : bool) (r : RegExp) :
  consumes r = true ->
  forall s rest,
    In rest (matches ignoreCase r s) -> (length rest < length s)%nat.
Proof.
  induction r as [c|items|r IH|r1 IH1 r2 IH2|r1 IH1 r2 IH2|];
    intros Hc s rest Hin; cbn [matches] in Hin; cbn [consumes] in Hc.
  - destruct s as [|x s]; [destruct Hin|].
    destruct (_ =? _)%N; [|destruct Hin].
    destruct Hin as [<-|[]]. simpl. lia.
  - destruct s as [|x s]; [destruct Hin|].
    destruct (existsb _ _); [|destruct Hin].
    destruct Hin as [<-|[]]. simpl. lia.
  - eapply repeat1_consumes; eauto.
  - apply in_flat_map in Hin. destruct Hin as (mid & Hmid & Hin).
    pose proof (matches_length _ _ _ _ Hmid) as L1.
    pose proof (matches_length _ _ _ _ Hin) as L2.
    apply orb_true_iff in Hc. destruct Hc as [Hc|Hc].
    + pose proof (IH1 Hc _ _ Hmid). lia.
    + pose proof (IH2 Hc _ _ Hin). lia.
  - apply andb_true_iff in Hc. destruct Hc as [Hc1 Hc2].
    apply in_app_or in Hin. destruct Hin; eauto.
  - discriminate.
Qed.

Lemma matchAt_suffix (ignoreCase : bool) (r : RegExp) (s rest : jsstring) :
  matchAt ignoreCase r s = Some rest -> exists pre, s = pre ++ rest.
Proof.
  unfold matchAt. destruct (matches ignoreCase r s) as [|x l] eqn:E;
    [discriminate|].
  intros H; injection H as <-. apply (matches_suffix ignoreCase r).
  rewrite E. now left.
Qed.

Lemma matchAt_consumes (ignoreCase : bool) (r : RegExp) (s rest : jsstring) :
  consumes r = true ->
  matchAt ignoreCase r s = Some rest -> (length rest < length s)%nat.
Proof.
  unfold matchAt. intros Hc.
  destruct (matches ignoreCase r s) as [|x l] eqn:E; [discriminate|].
  intros H; injection H as <-. apply (matches_consumes ignoreCase r Hc).
  rewrite E. now left.
Qed.

(* ================================================================== *)
(** * White space runs and [trim] *)

Lemma repeat1_no_step (step : jsstring -> list jsstring) (fuel : nat)
      (s : jsstring) :
  step s = [] -> repeat1 step fuel s = [].
Proof. intros H. destruct fuel; cbn [repeat1]; rewrite H; reflexivity. Qed.

Lemma whiteSpace_run_rest (step : jsstring -> list jsstring) :
  step [] = [] ->
  (forall c s, isWhiteSpace c = true -> step (c :: s) = [s]) ->
  (forall c s, isWhiteSpace c = false -> step (c :: s) = []) ->
  forall s fuel,
    startsWithSpace s = true -> (length s <= S fuel)%nat ->
    exists others, repeat1 step fuel s = trimStart s :: others.
Proof.
  intros Hnil Hyes Hno.
  induction s as [|c s IH]; intros fuel Hws Hlen; [discriminate|].
  simpl in Hws. cbn [trimStart]. rewrite Hws.
  destruct fuel as [|fuel]; cbn [repeat1]; rewrite (Hyes _ _ Hws);
    cbn [flat_map app].
  - destruct s; [eauto|simpl in Hlen; lia].
  - replace (length s <? length (c :: s))%nat with true
      by (symmetry; apply Nat.ltb_lt; simpl; lia).
    destruct s as [|c' s'].
    + rewrite repeat1_no_step by exact Hnil. simpl. eauto.
    + destruct (isWhiteSpace c') eqn:Hc'.
      * destruct (IH fuel) as [others E]; [exact Hc'|simpl in *; lia|].
        rewrite E. simpl. eauto.
      * rewrite repeat1_no_step by (now apply Hno).
        cbn [trimStart]. rewrite Hc'. simpl. eauto.
Qed.

(** The pattern [\s+] at the head of a text takes the whole run of white
    space that starts there. *)
Lemma whiteSpace_matchAt_rest (s : jsstring) :
  matchAt false (RPlus (RClass [CSpace])) s
  = if startsWithSpace s then Some (trimStart s) else None.
Proof.
  unfold matchAt.
  change (matches false (RPlus (RClass [CSpace])) s)
    with (repeat1 (matches false (RClass [CSpace])) (length s) s).
  destruct (startsWithSpace s) eqn:Hs.
  - destruct (@whiteSpace_run_rest (matches false (RClass [CSpace])) eq_refl)
      with (s := s) (fuel := length s) as [others E]; auto.
    + intros c s0 Hc. simpl. now rewrite Hc.
    + intros c s0 Hc. simpl. now rewrite Hc.
    + now rewrite E.
  - rewrite repeat1_no_step; [reflexivity|].
    destruct s as [|c s]; [reflexivity|]. simpl in *. now rewrite Hs.
Qed.

Lemma trimStart_length (s : jsstring) : (length (trimStart s) <= length s)%nat.
Proof.
  induction s as [|c s IH]; simpl; [lia|].
  destruct (isWhiteSpace c); simpl; lia.
Qed.

Lemma trimStart_starts (s : jsstring) : startsWithSpace (trimStart s) = false.
Proof.
  induction s as [|c s IH]; simpl; [reflexivity|].
  destruct (isWhiteSpace c) eqn:E; [exact IH|]. simpl. exact E.
Qed.

Lemma trimStart_id (s : jsstring) :
  startsWithSpace s = false -> trimStart s = s.
Proof. destruct s as [|c s]; simpl; [reflexivity|]. now intros ->. Qed.

Lemma trimStart_snoc (s : jsstring) (x : N) :
  isWhiteSpace x = false -> trimStart (s ++ [x]) = trimStart s ++ [x].
Proof.
  intros Hx. induction s as [|c s IH]; simpl.
  - now rewrite Hx.
  - destruct (isWhiteSpace c); [exact IH|reflexivity].
Qed.

Lemma trimEnd_cons (x : N) (s : jsstring) :
  isWhiteSpace x = false -> trimEnd (x :: s) = x :: trimEnd s.
Proof.
  intros Hx. unfold trimEnd. simpl.
  rewrite trimStart_snoc by exact Hx. rewrite rev_app_distr. reflexivity.
Qed.

Lemma trimEnd_ends (s : jsstring) : endsWithSpace (trimEnd s) = false.
Proof.
  unfold endsWithSpace, trimEnd. rewrite rev_involutive.
  apply trimStart_starts.
Qed.

Lemma trimEnd_id (s : jsstring) : endsWithSpace s = false -> trimEnd s = s.
Proof.
  unfold endsWithSpace, trimEnd. intros H.
  rewrite trimStart_id by exact H. apply rev_involutive.
Qed.

Lemma trimEnd_length (s : jsstring) : (length (trimEnd s) <= length s)%nat.
Proof.
  unfold trimEnd. rewrite length_rev.
  pose proof (trimStart_length (rev s)) as H. now rewrite length_rev in H.
Qed.

Lemma trim_length (s : jsstring) : (length (trim s) <= length s)%nat.
Proof.
  unfold trim. pose proof (trimEnd_length (trimStart s)).
  pose proof (trimStart_length s). lia.
Qed.

Lemma trimEnd_starts (s : jsstring) :
  startsWithSpace s = false -> startsWithSpace (trimEnd s) = false.
Proof.
  destruct s as [|c s]; [reflexivity|]. simpl. intros Hc.
  rewrite trimEnd_cons by exact Hc. simpl. exact Hc.
Qed.

(** [trim] leaves no white space at either end. *)
Lemma trim_trimmed (s : jsstring) :
  startsWithSpace (trim s) = false /\ endsWithSpace (trim s) = false.
Proof.
  unfold trim. split.
  - apply trimEnd_starts, trimStart_starts.
  - apply trimEnd_ends.
Qed.

Lemma trim_id (s : jsstring) :
  startsWithSpace s = false -> endsWithSpace s = false -> trim s = s.
Proof.
  intros H1 H2. unfold trim. rewrite trimStart_id by exact H1.
  now apply trimEnd_id.
Qed.

Lemma trimStart_suffix (s : jsstring) : exists pre, s = pre ++ trimStart s.
Proof.
  induction s as [|c s [pre IH]]; simpl.
  - now exists [].
  - destruct (isWhiteSpace c).
    + exists (c :: pre). simpl. now rewrite <- IH.
    + now exists [].
Qed.

Lemma trimEnd_prefix (s : jsstring) : exists post, s = trimEnd s ++ post.
Proof.
  unfold trimEnd. destruct (trimStart_suffix (rev s)) as [pre E].
  exists (rev pre).
  rewrite <- rev_app_distr, <- E. symmetry. apply rev_involutive.
Qed.

Lemma trim_infix (s : jsstring) : exists pre post, s = pre ++ trim s ++ post.
Proof.
  unfold trim. destruct (trimStart_suffix s) as [pre E].
  destruct (trimEnd_prefix (trimStart s)) as [post E'].
  exists pre, post. rewrite <- E'. exact E.
Qed.

(* ================================================================== *)
(** * The three replacements of [preprocessText] *)

Lemma collapse_step (fuel : nat) (s : jsstring) :
  replace_go (RPlus (RClass [CSpace])) (lit " ") (S fuel) s
  = if startsWithSpace s
    then 32%N :: replace_go (RPlus (RClass [CSpace])) (lit " ") fuel
                            (trimStart s)
    else match s with
         | [] => []
         | c :: s' =>
             c :: replace_go (RPlus (RClass [CSpace])) (lit " ") fuel s'
         end.
Proof.
  cbn [replace_go]. rewrite whiteSpace_matchAt_rest.
  destruct (startsWithSpace s) eqn:Hs; [|reflexivity].
  replace (length (trimStart s) <? length s)%nat with true; [reflexivity|].
  symmetry. apply Nat.ltb_lt.
  destruct s as [|c s]; [discriminate|]. simpl in *. rewrite Hs.
  pose proof (trimStart_length s). lia.
Qed.

Lemma collapse_properties (fuel : nat) :
  forall s,
    (length s < fuel)%nat ->
    let out := replace_go (RPlus (RClass [CSpace])) (lit " ") fuel s in
    singleSpaced out = true /\
    startsWithSpace out = startsWithSpace s /\
    (length out <= length s)%nat /\
    (singleSpaced s = true -> out = s).
Proof.
  induction fuel as [|fuel IH]; intros s Hlen; [lia|].
  cbv zeta. rewrite collapse_step.
  destruct (startsWithSpace s) eqn:Hs.
  - destruct s as [|c s]; [discriminate|]. simpl in Hs.
    assert (Hl : (length (trimStart (c :: s)) < fuel)%nat).
    { cbn [trimStart]. rewrite Hs. pose proof (trimStart_length s).
      simpl in Hlen. lia. }
    destruct (IH _ Hl) as (H1 & H2 & H3 & H4).
    rewrite trimStart_starts in H2.
    cbn [trimStart] in H1, H2, H3, H4 |- *. rewrite Hs in H1, H2, H3, H4 |- *.
    split; [|split; [|split]].
    + cbn [singleSpaced]. rewrite H2, H1. reflexivity.
    + reflexivity.
    + pose proof (trimStart_length s). simpl. lia.
    + cbn [singleSpaced]. rewrite Hs. intros Hss.
      apply andb_true_iff in Hss. destruct Hss as [Hc Hss].
      apply andb_true_iff in Hc. destruct Hc as [Hc Hnext].
      apply N.eqb_eq in Hc. subst c.
      apply negb_true_iff in Hnext.
      rewrite (trimStart_id _ Hnext) in *.
      rewrite (H4 Hss). reflexivity.
  - destruct s as [|c s]; [repeat split; auto|].
    simpl in Hs. simpl in Hlen.
    destruct (IH s) as (H1 & H2 & H3 & H4); [lia|].
    split; [|split; [|split]].
    + cbn [singleSpaced]. rewrite Hs, H1. reflexivity.
    + simpl. now rewrite Hs.
    + simpl. lia.
    + cbn [singleSpaced]. rewrite Hs. simpl. intros Hss.
      now rewrite (H4 Hss).
Qed.

(** Replacing the members of a class one for one is a [map]. *)
Lemma class_replace (items : list ClassAtom) (x : N) (fuel : nat) :
  forall s,
    (length s < fuel)%nat ->
    replace_go (RClass items) [x] fuel s
    = map (fun c => if existsb (classAtomMatches false c) items
                    then x else c) s.
Proof.
  induction fuel as [|fuel IH]; intros s Hlen; [lia|].
  destruct s as [|c s]; [reflexivity|].
  simpl in Hlen. cbn [replace_go]. unfold matchAt. cbn [matches map].
  destruct (existsb (classAtomMatches false c) items).
  - replace (length s <? length (c :: s))%nat with true
      by (symmetry; apply Nat.ltb_lt; simpl; lia).
    rewrite IH by lia. reflexivity.
  - rewrite IH by lia. reflexivity.
Qed.

Section QuoteMap.
Variable f : N -> N.
Hypothesis f_space : forall c, isWhiteSpace (f c) = isWhiteSpace c.
Hypothesis f_blank : forall c, isWhiteSpace c = true -> f c = c.

Lemma map_startsWithSpace (s : jsstring) :
  startsWithSpace (map f s) = startsWithSpace s.
Proof. destruct s; simpl; auto. Qed.

Lemma map_endsWithSpace (s : jsstring) :
  endsWithSpace (map f s) = endsWithSpace s.
Proof.
  unfold endsWithSpace. rewrite <- map_rev. apply map_startsWithSpace.
Qed.

Lemma map_singleSpaced (s : jsstring) :
  singleSpaced (map f s) = singleSpaced s.
Proof.
  induction s as [|c s IH]; [reflexivity|].
  cbn [map singleSpaced]. rewrite IH, map_startsWithSpace, f_space.
  destruct (isWhiteSpace c) eqn:E; [|reflexivity].
  now rewrite (f_blank _ E).
Qed.
End QuoteMap.

Lemma singleSpaced_suffix (pre s : jsstring) :
  singleSpaced (pre ++ s) = true -> singleSpaced s = true.
Proof.
  induction pre as [|c pre IH]; simpl; [auto|].
  intros H. apply andb_true_iff in H. now apply IH.
Qed.

Lemma singleSpaced_prefix (s post : jsstring) :
  singleSpaced (s ++ post) = true -> singleSpaced s = true.
Proof.
  induction s as [|c s IH]; simpl; [auto|].
  intros H. apply andb_true_iff in H. destruct H as [Hc Hs].
  rewrite (IH Hs), andb_true_r.
  destruct (isWhiteSpace c); [|reflexivity].
  apply andb_true_iff in Hc. destruct Hc as [Hc Hn]. rewrite Hc. simpl.
  destruct s as [|d s]; [reflexivity|]. exact Hn.
Qed.

Lemma singleSpaced_trim (s : jsstring) :
  singleSpaced s = true -> singleSpaced (trim s) = true.
Proof.
  intros H. destruct (trim_infix s) as (pre & post & E).
  rewrite E in H. apply singleSpaced_suffix in H.
  now apply singleSpaced_prefix in H.
Qed.

Lemma preprocessText_eq (text : jsstring) :
  preprocessText text
  = trim (map straightenDouble
            (map straightenSingle
               (replaceAll (RPlus (RClass [CSpace])) (lit " ") text))).
Proof.
  unfold preprocessText, replaceAll at 1 2.
  change (lit "'") with [39%N].
  rewrite !class_replace by (rewrite ?length_map; lia).
  reflexivity.
Qed.

Ltac quote_cases c :=
  unfold straightenSingle, straightenDouble, isCurlyQuote;
  cbn [existsb classAtomMatches canonicalize];
  destruct (N.eqb_spec 8216 c); [subst c; reflexivity|];
  destruct (N.eqb_spec 8217 c); [subst c; reflexivity|];
  destruct (N.eqb_spec 8220 c); [subst c; reflexivity|];
  destruct (N.eqb_spec 8221 c); [subst c; reflexivity|].

Lemma straightenSingle_space (c : N) :
  isWhiteSpace (straightenSingle c) = isWhiteSpace c.
Proof. quote_cases c. reflexivity. Qed.

Lemma straightenDouble_space (c : N) :
  isWhiteSpace (straightenDouble c) = isWhiteSpace c.
Proof. quote_cases c. reflexivity. Qed.

Lemma straightenSingle_blank (c : N) :
  isWhiteSpace c = true -> straightenSingle c = c.
Proof.
  intros H. unfold straightenSingle. cbn [existsb classAtomMatches canonicalize].
  destruct (N.eqb_spec 8216 c); [subst c; discriminate|].
  destruct (N.eqb_spec 8217 c); [subst c; discriminate|]. reflexivity.
Qed.

Lemma straightenDouble_blank (c : N) :
  isWhiteSpace c = true -> straightenDouble c = c.
Proof.
  intros H. unfold straightenDouble. cbn [existsb classAtomMatches canonicalize].
  destruct (N.eqb_spec 8220 c); [subst c; discriminate|].
  destruct (N.eqb_spec 8221 c); [subst c; discriminate|]. reflexivity.
Qed.

Lemma straighten_id (c : N) :
  isCurlyQuote c = false ->
  straightenSingle c = c /\ straightenDouble c = c.
Proof.
  unfold isCurlyQuote, straightenSingle, straightenDouble.
  cbn [existsb classAtomMatches canonicalize]. intros H.
  rewrite !orb_false_iff in H. destruct H as (((H1 & H2) & H3) & H4).
  rewrite (N.eqb_sym 8216), (N.eqb_sym 8217), (N.eqb_sym 8220),
    (N.eqb_sym 8221), H1, H2, H3, H4. split; reflexivity.
Qed.

Lemma straighten_no_curly (c : N) :
  isCurlyQuote (straightenDouble (straightenSingle c)) = false.
Proof.
  destruct (N.eq_dec c 8216) as [->|n1]; [reflexivity|].
  destruct (N.eq_dec c 8217) as [->|n2]; [reflexivity|].
  destruct (N.eq_dec c 8220) as [->|n3]; [reflexivity|].
  destruct (N.eq_dec c 8221) as [->|n4]; [reflexivity|].
  assert (Hc : isCurlyQuote c = false).
  { unfold isCurlyQuote.
    now rewrite (proj2 (N.eqb_neq _ _) n1), (proj2 (N.eqb_neq _ _) n2),
      (proj2 (N.eqb_neq _ _) n3), (proj2 (N.eqb_neq _ _) n4). }
  destruct (straighten_id _ Hc) as [E1 E2]. now rewrite E1, E2.
Qed.

Lemma forallb_infix (A : Type) (p : A -> bool) (pre s post : list A) :
  forallb p (pre ++ s ++ post) = true -> forallb p s = true.
Proof.
  rewrite !forallb_app. intros H.
  apply andb_true_iff in H. destruct H as [_ H].
  apply andb_true_iff in H. tauto.
Qed.

Lemma preprocessText_singleSpaced (text : jsstring) :
  singleSpaced (preprocessText text) = true.
Proof.
  rewrite preprocessText_eq.
  destruct (@collapse_properties (S (length text)) text) as (H1 & _);
    [lia|]. fold (replaceAll (RPlus (RClass [CSpace])) (lit " ") text) in H1.
  apply singleSpaced_trim.
  rewrite (@map_singleSpaced straightenDouble straightenDouble_space
             straightenDouble_blank).
  rewrite (@map_singleSpaced straightenSingle straightenSingle_space
             straightenSingle_blank).
  exact H1.
Qed.

Lemma preprocessText_trimmed (text : jsstring) :
  startsWithSpace (preprocessText text) = false /\
  endsWithSpace (preprocessText text) = false.
Proof. unfold preprocessText. apply trim_trimmed. Qed.

Lemma preprocessText_no_curly (text : jsstring) :
  forallb (fun c => negb (isCurlyQuote c)) (preprocessText text) = true.
Proof.
  rewrite preprocessText_eq.
  set (u := replaceAll (RPlus (RClass [CSpace])) (lit " ") text).
  destruct (trim_infix (map straightenDouble (map straightenSingle u)))
    as (pre & post & E).
  apply (forallb_infix _ pre _ post). rewrite <- E.
  rewrite map_map. apply forallb_forall. intros c Hc.
  apply in_map_iff in Hc. destruct Hc as (d & <- & _).
  now rewrite straighten_no_curly.
Qed.

Lemma preprocessText_length (text : jsstring) :
  (length (preprocessText text) <= length text)%nat.
Proof.
  rewrite preprocessText_eq.
  destruct (@collapse_properties (S (length text)) text) as (_ & _ & H3 & _);
    [lia|]. fold (replaceAll (RPlus (RClass [CSpace])) (lit " ") text) in H3.
  set (u := replaceAll (RPlus (RClass [CSpace])) (lit " ") text) in *.
  pose proof (trim_length (map straightenDouble (map straightenSingle u))) as L.
  rewrite !length_map in L. lia.
Qed.

(** X1. The text [preprocessText] returns is in normal form: its only
    white space is single blanks (U+0020), none of them at either end, it
    holds none of the four curly quotes, and it is no longer than the
    text it was given. *)
Theorem preprocessText_normal_form :
  forall text : jsstring,
    singleSpaced (preprocessText text) = true /\
    startsWithSpace (preprocessText text) = false /\
    endsWithSpace (preprocessText text) = false /\
    forallb (fun c => negb (isCurlyQuote c)) (preprocessText text) = true /\
    (length (preprocessText text) <= length text)%nat.
Proof.
  intros text. destruct (preprocessText_trimmed text) as [T1 T2].
  split; [apply preprocessText_singleSpaced|].
  split; [exact T1|]. split; [exact T2|].
  split; [apply preprocessText_no_curly|apply preprocessText_length].
Qed.

(** X2. [preprocessText] is idempotent: a text it has normalized is left
    as it is. *)
Theorem preprocessText_idempotent :
  forall text : jsstring,
    preprocessText (preprocessText text) = preprocessText text.
Proof.
  intros text.
  pose proof (preprocessText_singleSpaced text) as H1.
  destruct (preprocessText_trimmed text) as [H2 H3].
  pose proof (preprocessText_no_curly text) as H4.
  set (t := preprocessText text) in *.
  rewrite preprocessText_eq.
  destruct (@collapse_properties (S (length t)) t) as (_ & _ & _ & Hid); [lia|].
  fold (replaceAll (RPlus (RClass [CSpace])) (lit " ") t) in Hid.
  rewrite (Hid H1). rewrite map_map.
  rewrite (map_ext_in _ (fun c => c)), map_id.
  - now apply trim_id.
  - intros c Hc. rewrite forallb_forall in H4.
    specialize (H4 c Hc). apply negb_true_iff in H4.
    destruct (straighten_id _ H4) as [E1 E2]. now rewrite E1, E2.
Qed.

(* ================================================================== *)
(** * The clause segmenter *)

Lemma split_go_infix (r : RegExp) (fuel : nat) :
  forall cur s piece,
    In piece (split_go r fuel cur s) ->
    exists pre post, cur ++ s = pre ++ piece ++ post.
Proof.
  induction fuel as [|fuel IH]; intros cur s piece Hin; cbn [split_go] in Hin.
  - destruct Hin as [<-|[]]. exists [], []. now rewrite app_nil_r.
  - destruct s as [|c s].
    + destruct Hin as [<-|[]]. exists [], []. reflexivity.
    + assert (Hadv : In piece (split_go r fuel (cur ++ [c]) s) ->
                     exists pre post, cur ++ c :: s = pre ++ piece ++ post).
      { intros H. destruct (IH _ _ _ H) as (pre & post & E).
        exists pre, post. rewrite <- E, <- app_assoc. reflexivity. }
      destruct (matchAt false r (c :: s)) as [rest|] eqn:Em; [|auto].
      destruct ((length rest =? length (c :: s))%nat && (length cur =? 0)%nat);
        [auto|].
      destruct (matchAt_suffix _ _ _ Em) as [sep Esep].
      destruct Hin as [<-|Hin].
      * exists [], (c :: s). reflexivity.
      * destruct (IH _ _ _ Hin) as (pre & post & E). simpl in E.
        exists (cur ++ sep ++ pre), post.
        rewrite Esep, E, <- !app_assoc. reflexivity.
Qed.

Lemma split_infix (r : RegExp) (s piece : jsstring) :
  In piece (split r s) -> exists pre post, s = pre ++ piece ++ post.
Proof.
  unfold split. destruct s as [|c s].
  - destruct (matchAt false r []); intros Hin; [destruct Hin|].
    destruct Hin as [<-|[]]. exists [], []. reflexivity.
  - intros Hin. apply split_go_infix in Hin. exact Hin.
Qed.

Lemma extractClauses_infix (text clause : jsstring) :
  In clause (extractClauses text) ->
  (20 < length clause)%nat /\
  exists pre post, text = pre ++ clause ++ post.
Proof.
  intros Hin. unfold extractClauses in Hin. cbv zeta in Hin.
  apply filter_In in Hin. destruct Hin as [Hin Hlen].
  apply in_map_iff in Hin. destruct Hin as (piece & <- & Hpiece).
  split; [now apply Nat.ltb_lt|].
  destruct (split_infix _ _ _ Hpiece) as (pre & post & E).
  destruct (trim_infix piece) as (pre' & post' & E').
  exists (pre ++ pre'), (post' ++ post).
  rewrite E, E' at 1. now rewrite <- !app_assoc.
Qed.

(** X3. Every clause [extractClauses] returns is longer than 20 code
    units, has no white space at either end, and is a contiguous part of
    the text it was cut from. *)
Theorem extractClauses_clauses :
  forall (text clause : jsstring),
    In clause (extractClauses text) ->
    (20 < length clause)%nat /\
    startsWithSpace clause = false /\
    endsWithSpace clause = false /\
    exists pre post, text = pre ++ clause ++ post.
Proof.
  intros text clause Hin.
  destruct (extractClauses_infix _ _ Hin) as [Hlen Hinfix].
  unfold extractClauses in Hin. cbv zeta in Hin.
  apply filter_In in Hin. destruct Hin as [Hin _].
  apply in_map_iff in Hin. destruct Hin as (piece & <- & _).
  destruct (trim_trimmed piece) as [T1 T2]. auto.
Qed.

Lemma extractClauses_clauses_witness :
  In (lit "This one is long enough to stay")
     (extractClauses
        (lit "Too short. This one is long enough to stay. No.")) /\
  (20 < length (lit "This one is long enough to stay"))%nat /\
  startsWithSpace (lit "This one is long enough to stay") = false /\
  endsWithSpace (lit "This one is long enough to stay") = false /\
  exists pre post,
    lit "Too short. This one is long enough to stay. No."
    = pre ++ lit "This one is long enough to stay" ++ post.
Proof.
  assert (H : In (lit "This one is long enough to stay")
                 (extractClauses
                    (lit "Too short. This one is long enough to stay. No."))).
  { vm_compute. left. reflexivity. }
  split; [exact H|].
  exact (@extractClauses_clauses _ _ H).
Defined.

Lemma short_text_no_clause (text : jsstring) :
  (length text <= 20)%nat -> extractClauses (preprocessText text) = [].
Proof.
  intros Hlen.
  destruct (extractClauses (preprocessText text)) as [|clause l] eqn:E;
    [reflexivity|].
  assert (Hin : In clause (extractClauses (preprocessText text)))
    by (rewrite E; now left).
  pose proof (preprocessText_length text) as Hl.
  apply extractClauses_infix in Hin.
  destruct Hin as (H20 & pre & post & Epp).
  rewrite Epp, !length_app in Hl. lia.
Qed.

(* ================================================================== *)
(** * The matches of a clause *)

Lemma map_flat_map (A B C : Type) (f : B -> C) (g : A -> list B)
      (l : list A) :
  map f (flat_map g l) = flat_map (fun x => map f (g x)) l.
Proof.
  induction l as [|x l IH]; simpl; [reflexivity|].
  now rewrite map_app, IH.
Qed.

Lemma flat_map_filter (A : Type) (p : A -> bool) (l : list A) :
  flat_map (fun x => if p x then [x] else []) l = filter p l.
Proof.
  induction l as [|x l IH]; simpl; [reflexivity|].
  destruct (p x); simpl; now rewrite IH.
Qed.

Lemma existsb_filter_length (A : Type) (p : A -> bool) (l : list A) :
  existsb p l = (0 <? length (filter p l))%nat.
Proof.
  induction l as [|x l IH]; simpl; [reflexivity|].
  destruct (p x); simpl; [reflexivity|exact IH].
Qed.

Section ClauseMatches.
Context {platform : Platform}.

Lemma matchOf_categories (this : ConsentLensAIEngine) (clause : jsstring)
      (key : CategoryKey) :
  map Match.category (matchOf this clause key)
  = if (0 <? matchCount this clause key)%nat then [key] else [].
Proof.
  unfold matchOf. rewrite findPatternMatch_eq. cbv zeta.
  fold (matchCount this clause key).
  destruct (matchCount this clause key); reflexivity.
Qed.

Lemma matchOf_fields (this : ConsentLensAIEngine) (clause : jsstring)
      (key : CategoryKey) (m : Match.t) :
  In m (matchOf this clause key) ->
  Match.category m = key /\
  (0 < matchCount this clause key)%nat /\
  Match.confidence m
    = Math_min [0.95; 0.6 + Number_of_nat (matchCount this clause key) * 0.15] /\
  Match.severity m = PatternSet.severity (patterns this key) /\
  Match.matched_text m = clause /\
  Match.matched_keywords m = matchingKeywords clause (patterns this key) /\
  Match.category_name m = Category.name (categories this key) /\
  Match.irreversible m = Category.irreversible (categories this key).
Proof.
  unfold matchOf. rewrite findPatternMatch_eq. cbv zeta.
  fold (matchCount this clause key).
  destruct (matchCount this clause key =? 0)%nat eqn:E; [intros []|].
  apply Nat.eqb_neq in E. intros [<-|[]]. simpl.
  repeat split. lia.
Qed.

Lemma analyzeClause_match_fields (this : ConsentLensAIEngine)
      (clause : jsstring) (m : Match.t) :
  In m (Clause.matches (analyzeClause this clause)) ->
  In m (matchOf this clause (Match.category m)).
Proof.
  rewrite analyzeClause_matches. intros Hin.
  apply in_flat_map in Hin. destruct Hin as (key & _ & Hin).
  now rewrite (matchOf_category _ _ _ _ Hin).
Qed.

Lemma analyzeClause_is_risky (this : ConsentLensAIEngine) (clause : jsstring) :
  Clause.is_risky (analyzeClause this clause)
  = (0 <? length (Clause.matches (analyzeClause this clause)))%nat.
Proof. reflexivity. Qed.

End ClauseMatches.

(** X4. The matches [analyzeClause] produces for a clause are one per
    category of which a keyword matches, in the order of the catalog: no
    category twice.  Each carries the clause as [matched_text], the
    keywords that matched as [matched_keywords] (at least one), and the
    severity, name and [irreversible] mark of its category; the clause is
    [is_risky] exactly when some category has a matching keyword. *)
Theorem analyzeClause_one_match_per_category :
  forall (platform : Platform) (this : ConsentLensAIEngine)
         (clause : jsstring),
    map Match.category (Clause.matches (analyzeClause this clause))
    = filter (fun key => (0 <? matchCount this clause key)%nat) categoryKeys /\
    NoDup (map Match.category (Clause.matches (analyzeClause this clause))) /\
    Clause.is_risky (analyzeClause this clause)
    = existsb (fun key => (0 <? matchCount this clause key)%nat)
              categoryKeys /\
    forall m : Match.t,
      In m (Clause.matches (analyzeClause this clause)) ->
      Match.matched_text m = clause /\
      Match.matched_keywords m
        = matchingKeywords clause (patterns this (Match.category m)) /\
      Match.matched_keywords m <> [] /\
      Match.severity m
        = PatternSet.severity (patterns this (Match.category m)) /\
      Match.category_name m
        = Category.name (categories this (Match.category m)) /\
      Match.irreversible m
        = Category.irreversible (categories this (Match.category m)).
Proof.
  intros platform this clause.
  assert (E : map Match.category (Clause.matches (analyzeClause this clause))
              = filter (fun key => (0 <? matchCount this clause key)%nat)
                       categoryKeys).
  { rewrite analyzeClause_matches, map_flat_map.
    rewrite <- flat_map_filter. apply flat_map_ext.
    intros key. apply matchOf_categories. }
  split; [exact E|]. split; [|split].
  - rewrite E. apply NoDup_filter, categoryKeys_NoDup.
  - rewrite analyzeClause_is_risky, existsb_filter_length, <- E.
    now rewrite length_map.
  - intros m Hin. apply analyzeClause_match_fields in Hin.
    apply matchOf_fields in Hin.
    destruct Hin as (_ & Hpos & _ & Hsev & Htext & Hkw & Hname & Hirr).
    repeat split; auto.
    rewrite Hkw. unfold matchCount in Hpos.
    destruct (matchingKeywords clause _); [simpl in Hpos; lia|discriminate].
Qed.

(** X5. The confidence of a match takes three values only: 0.75 when one
    keyword of the category matched, 0.8999999999999999 (the binary64 sum
    0.6 + 2 x 0.15, just below 0.9) when two did, and 0.95 when three or
    more did. *)
Theorem match_confidence_steps :
  forall (platform : Platform) (this : ConsentLensAIEngine)
         (clause : jsstring) (m : Match.t),
    In m (Clause.matches (analyzeClause this clause)) ->
    let n := matchCount this clause (Match.category m) in
    (n = 1%nat /\ Match.confidence m = 0.75) \/
    (n = 2%nat /\ Match.confidence m = 0.8999999999999999) \/
    ((3 <= n)%nat /\ Match.confidence m = 0.95).
Proof.
  intros platform this clause m Hin n.
  apply analyzeClause_match_fields in Hin. apply matchOf_fields in Hin.
  destruct Hin as (_ & Hpos & Hconf & _). fold n in Hpos, Hconf.
  rewrite Hconf. clearbody n.
  destruct n as [|[|[|n]]]; [lia| | |].
  - left. split; reflexivity.
  - right; left. split; reflexivity.
  - right; right. split; [lia|].
    apply MathFacts.confidence_of_three. lia.
Qed.

Lemma match_confidence_steps_witness :
  exists m : Match.t,
    In m (Clause.matches
            (@analyzeClause basicLatin constructor arbitration_text)) /\
    let n := @matchCount basicLatin constructor arbitration_text
                         (Match.category m) in
    (n = 1%nat /\ Match.confidence m = 0.75) \/
    (n = 2%nat /\ Match.confidence m = 0.8999999999999999) \/
    ((3 <= n)%nat /\ Match.confidence m = 0.95).
Proof.
  eexists. split.
  - vm_compute. left. reflexivity.
  - apply (@match_confidence_steps basicLatin constructor arbitration_text).
    vm_compute. left. reflexivity.
Defined.

(* ================================================================== *)
(** * Weights and modifiers *)

Lemma getUserAdjustedWeight_cases (category : CategoryKey)
      (prefs : UserPreferences.t) :
  exists w : float,
    (w = match UserPreferences.privacy_weight prefs with
         | Some q => q | None => 0.4 end \/
     w = match UserPreferences.legal_rights_weight prefs with
         | Some q => q | None => 0.4 end \/
     w = match UserPreferences.convenience_weight prefs with
         | Some q => q | None => 0.2 end) /\
    getUserAdjustedWeight category prefs
    = if Number.truthy w then w else 1.0.
Proof.
  unfold getUserAdjustedWeight. cbv zeta.
  destruct category; eexists; (split; [|reflexivity]); auto.
Qed.

Lemma getUserAdjustedWeight_truthy (category : CategoryKey)
      (prefs : UserPreferences.t) :
  Number.truthy (getUserAdjustedWeight category prefs) = true.
Proof.
  destruct (getUserAdjustedWeight_cases category prefs) as (w & _ & ->).
  destruct (Number.truthy w) eqn:E; [exact E|reflexivity].
Qed.

Lemma getUserAdjustedWeight_positive (category : CategoryKey)
      (prefs : UserPreferences.t) :
  nonNegativePreferences prefs ->
  (0 <? getUserAdjustedWeight category prefs) = true.
Proof.
  intros (Hp & Hl & Hc).
  apply MathFacts.truthy_positive; [apply getUserAdjustedWeight_truthy|].
  destruct (getUserAdjustedWeight_cases category prefs) as (w & Hw & ->).
  destruct (Number.truthy w); [|reflexivity].
  unfold nonNegative in *.
  destruct Hw as [-> | [-> | ->]];
    [destruct (UserPreferences.privacy_weight prefs)
    |destruct (UserPreferences.legal_rights_weight prefs)
    |destruct (UserPreferences.convenience_weight prefs)];
    auto; reflexivity.
Qed.

(** X6. A user weight is never zero (nor NaN): a preference set to 0 is
    replaced by 1.0, so it weighs more than any preference below 1 instead
    of silencing its categories; with preferences that are not negative
    every weight is positive. *)
Theorem user_weight_never_zero :
  forall (category : CategoryKey) (prefs : UserPreferences.t),
    ((getUserAdjustedWeight category prefs =? 0) = false /\
     Number.isNaN (getUserAdjustedWeight category prefs) = false) /\
    (nonNegativePreferences prefs ->
     (0 <? getUserAdjustedWeight category prefs) = true) /\
    (UserPreferences.privacy_weight prefs = Some 0 ->
     UserPreferences.legal_rights_weight prefs = Some 0 ->
     UserPreferences.convenience_weight prefs = Some 0 ->
     getUserAdjustedWeight category prefs = 1.0).
Proof.
  intros category prefs. split; [|split].
  - pose proof (getUserAdjustedWeight_truthy category prefs) as T.
    apply MathFacts.truthy_spec in T. tauto.
  - apply getUserAdjustedWeight_positive.
  - intros Hp Hl Hc. unfold getUserAdjustedWeight.
    rewrite Hp, Hl, Hc. destruct category; reflexivity.
Qed.

Lemma user_weight_never_zero_witness :
  let prefs := {| UserPreferences.privacy_weight := Some 0;
                  UserPreferences.legal_rights_weight := Some 0;
                  UserPreferences.convenience_weight := Some 0 |} in
  ((getUserAdjustedWeight FORCED_ARBITRATION prefs =? 0) = false /\
   Number.isNaN (getUserAdjustedWeight FORCED_ARBITRATION prefs) = false) /\
  (nonNegativePreferences prefs ->
   (0 <? getUserAdjustedWeight FORCED_ARBITRATION prefs) = true) /\
  (UserPreferences.privacy_weight prefs = Some 0 ->
   UserPreferences.legal_rights_weight prefs = Some 0 ->
   UserPreferences.convenience_weight prefs = Some 0 ->
   getUserAdjustedWeight FORCED_ARBITRATION prefs = 1.0).
Proof.
  exact (user_weight_never_zero FORCED_ARBITRATION
           {| UserPreferences.privacy_weight := Some 0;
              UserPreferences.legal_rights_weight := Some 0;
              UserPreferences.convenience_weight := Some 0 |}).
Defined.

(** A pattern that is a sequence of characters matches like
    [String.prototype.startsWith], and is found like
    [String.prototype.includes]. *)
Lemma matches_characters (cs : jsstring) :
  forall s,
    matches false (fold_right RSeq REmpty (map RChar cs)) s
    = if startsWith cs s then [skipn (length cs) s] else [].
Proof.
  induction cs as [|a cs IH]; intros s; [reflexivity|].
  cbn [map fold_right matches canonicalize].
  destruct s as [|x s]; [reflexivity|]. cbn [startsWith length skipn].
  destruct (a =? x)%N; [|reflexivity].
  cbn [flat_map andb]. rewrite IH, app_nil_r. reflexivity.
Qed.

Lemma test_word (w : string) (s : jsstring) :
  test false (word w) s = includes s (lit w).
Proof.
  unfold word. induction s as [|x s IH].
  - cbn [test includes]. unfold matchAt. rewrite matches_characters.
    destruct (startsWith (lit w) []); reflexivity.
  - cbn [test includes]. unfold matchAt. rewrite matches_characters.
    destruct (startsWith (lit w) (x :: s)); [reflexivity|exact IH].
Qed.

Lemma test_alternative (ignoreCase : bool) (r1 r2 : RegExp) (s : jsstring) :
  test ignoreCase (RAlt r1 r2) s
  = test ignoreCase r1 s || test ignoreCase r2 s.
Proof.
  induction s as [|x s IH]; cbn [test]; unfold matchAt; cbn [matches].
  - destruct (matches ignoreCase r1 []); [|reflexivity].
    destruct (matches ignoreCase r2 []); reflexivity.
  - destruct (matches ignoreCase r1 (x :: s)); [|reflexivity].
    cbn [app]. destruct (matches ignoreCase r2 (x :: s)).
    + rewrite IH. reflexivity.
    + now rewrite orb_true_r.
Qed.

Section Modifiers.
Context {platform : Platform}.

Lemma applyLinguisticModifiers_eq (score : float) (text : jsstring) :
  applyLinguisticModifiers score text
  = score
    * (let modifier := 1.0 in
       let modifier :=
         if hasObligation (toLowerCase text)
         then modifier + 0.1 else modifier in
       let modifier :=
         if hasAbsolute (toLowerCase text)
         then modifier + 0.15 else modifier in
       if hasPermissive (toLowerCase text)
       then modifier - 0.1 else modifier).
Proof.
  unfold applyLinguisticModifiers, hasObligation, hasAbsolute, hasPermissive.
  cbn [alternation]. rewrite !test_alternative, !test_word, !orb_assoc.
  reflexivity.
Qed.

End Modifiers.

(** X7. The linguistic modifier is triggered by substrings of the
    lower-cased text, not by words: the score is multiplied by 1, plus 0.1
    when it contains an obligation fragment, plus 0.15 when it contains an
    absolute fragment, minus 0.1 when it contains a permissive fragment.
    So a score that is not negative is moved to between 0.9 and 1.25
    times its value. *)
Theorem linguistic_modifier_by_substring :
  forall (platform : Platform) (score : float) (text : jsstring),
    applyLinguisticModifiers score text
    = score
      * (1 + (if hasObligation (toLowerCase text) then 0.1 else 0)
           + (if hasAbsolute (toLowerCase text) then 0.15 else 0)
           - (if hasPermissive (toLowerCase text) then 0.1 else 0)) /\
    ((0 <=? score) = true ->
     (score * 0.9 <=? applyLinguisticModifiers score text) = true /\
     (applyLinguisticModifiers score text <=? score * 1.25) = true).
Proof.
  intros platform score text. rewrite applyLinguisticModifiers_eq. cbv zeta.
  destruct (hasObligation (toLowerCase text)),
    (hasAbsolute (toLowerCase text)), (hasPermissive (toLowerCase text));
    (split;
     [reflexivity
     |intros H; split; apply MathFacts.mul_mono_factor;
      solve [exact H|reflexivity]]).
Qed.

Lemma linguistic_modifier_by_substring_witness :
  @applyLinguisticModifiers basicLatin 80 (lit "Payment is due in May.")
  = 80
    * (1 + (if hasObligation
                 (@toLowerCase basicLatin (lit "Payment is due in May."))
            then 0.1 else 0)
         + (if hasAbsolute
                 (@toLowerCase basicLatin (lit "Payment is due in May."))
            then 0.15 else 0)
         - (if hasPermissive
                 (@toLowerCase basicLatin (lit "Payment is due in May."))
            then 0.1 else 0)) /\
  ((0 <=? 80) = true ->
   (80 * 0.9
    <=? @applyLinguisticModifiers basicLatin 80 (lit "Payment is due in May."))
   = true /\
   (@applyLinguisticModifiers basicLatin 80 (lit "Payment is due in May.")
    <=? 80 * 1.25) = true).
Proof.
  exact (@linguistic_modifier_by_substring basicLatin 80
           (lit "Payment is due in May.")).
Defined.

Example modifier_inside_a_word :
  @applyLinguisticModifiers basicLatin 80 (lit "Our goodwill is shared.")
  = 88 /\
  @applyLinguisticModifiers basicLatin 80 (lit "Payment is due in May.")
  = 72.
Proof. split; reflexivity. Qed.

(* ================================================================== *)
(** * The red flags *)

Lemma flat_map_singleton (A B : Type) (f : A -> B) (l : list A) :
  flat_map (fun x => [f x]) l = map f l.
Proof. induction l as [|x l IH]; simpl; [reflexivity|]. now rewrite IH. Qed.

Lemma fold_left_nested (A B C : Type) (f : C -> B -> C) (g : A -> list B)
      (l : list A) :
  forall acc,
    fold_left (fun acc x => fold_left f (g x) acc) l acc
    = fold_left f (flat_map g l) acc.
Proof.
  induction l as [|x l IH]; intros acc; simpl; [reflexivity|].
  now rewrite IH, fold_left_app.
Qed.

Lemma collectMatches_eq (clauseAnalyses : list Clause.t) :
  collectMatches clauseAnalyses
  = flat_map (fun c => map (fun m => (m, Clause.text c)) (Clause.matches c))
             clauseAnalyses.
Proof.
  unfold collectMatches.
  rewrite (fold_left_push _
             (fun c => map (fun m => (m, Clause.text c)) (Clause.matches c)));
    [reflexivity|].
  intros acc c.
  rewrite (fold_left_push _ (fun m => [(m, Clause.text c)]));
    [|reflexivity].
  now rewrite flat_map_singleton.
Qed.

Lemma collectMatches_matches (clauseAnalyses : list Clause.t) :
  map fst (collectMatches clauseAnalyses) = allMatches clauseAnalyses.
Proof.
  rewrite collectMatches_eq. unfold allMatches. rewrite map_flat_map.
  apply flat_map_ext. intros c. rewrite map_map. simpl. apply map_id.
Qed.

Section SortLemmas.
Variable A : Type.
Variable comparefn : A -> A -> float.

Lemma sort_insert_In (a x : A) (l : list A) :
  In x (sort_insert comparefn a l) <-> x = a \/ In x l.
Proof.
  induction l as [|b l IH]; simpl.
  - intuition.
  - destruct (0 <? comparefn a b); simpl; [|intuition].
    rewrite IH. intuition.
Qed.

Lemma Array_sort_In (x : A) (l : list A) :
  In x (Array_sort comparefn l) <-> In x l.
Proof.
  induction l as [|a l IH]; simpl; [tauto|].
  rewrite sort_insert_In, IH. intuition.
Qed.

Lemma sort_insert_length (a : A) (l : list A) :
  length (sort_insert comparefn a l) = S (length l).
Proof.
  induction l as [|b l IH]; simpl; [reflexivity|].
  destruct (0 <? comparefn a b); simpl; [now rewrite IH|reflexivity].
Qed.

Lemma Array_sort_length (l : list A) :
  length (Array_sort comparefn l) = length l.
Proof.
  induction l as [|a l IH]; simpl; [reflexivity|].
  now rewrite sort_insert_length, IH.
Qed.
End SortLemmas.

(** The first match after the sort has the highest rank, when the ranks
    are finite numbers. *)
Lemma sorted_head_is_top (l : list MatchOfClause) :
  (forall m, In m l -> Number.isFinite (matchScore m) = true) ->
  match Array_sort compareMatches l with
  | [] => l = []
  | top :: _ => forall m, In m l -> (matchScore m <=? matchScore top) = true
  end.
Proof.
  induction l as [|a l IH]; intros Hfin; [reflexivity|].
  assert (Fa : Number.isFinite (matchScore a) = true)
    by (apply Hfin; now left).
  pose proof (NumberFacts.finite_not_nan _ Fa) as Na.
  assert (Hl : forall m, In m l -> Number.isFinite (matchScore m) = true)
    by (intros m Hm; apply Hfin; now right).
  specialize (IH Hl).
  pose proof (Array_sort_In compareMatches) as Hin.
  cbn [Array_sort fold_right]. fold (Array_sort compareMatches l).
  destruct (Array_sort compareMatches l) as [|top rest] eqn:Es.
  - subst l. simpl. intros m [<-|[]]. now apply MathFacts.leb_refl.
  - assert (Ft : Number.isFinite (matchScore top) = true).
    { apply Hl, (Hin top l). rewrite Es. now left. }
    pose proof (NumberFacts.finite_not_nan _ Ft) as Nt.
    cbn [sort_insert]. unfold compareMatches at 1. cbv zeta.
    fold (matchScore a). fold (matchScore top).
    rewrite (MathFacts.sub_positive _ _ Fa Ft).
    destruct (matchScore a <? matchScore top) eqn:E.
    + intros m [<-|Hm]; [now apply MathFacts.ltb_leb|now apply IH].
    + apply (MathFacts.ltb_false_leb _ _ Na Nt) in E.
      intros m [<-|Hm]; [now apply MathFacts.leb_refl|].
      eapply MathFacts.leb_trans; [now apply IH|exact E].
Qed.

Lemma takeRedFlag_eq (used : list CategoryKey) (flags : list RedFlag.t)
      (m : MatchOfClause) :
  takeRedFlag (used, flags) m
  = if negb (existsb (CategoryKey_eqb (Match.category (fst m))) used)
       && (length flags <? 3)%nat
    then (Match.category (fst m) :: used, flags ++ [redFlagOf (fst m)])
    else (used, flags).
Proof. reflexivity. Qed.

Lemma CategoryKey_eqb_true (a b : CategoryKey) :
  CategoryKey_eqb a b = true <-> a = b.
Proof.
  unfold CategoryKey_eqb. destruct (CategoryKey_eq_dec a b);
    split; congruence.
Qed.

Lemma used_membership (k : CategoryKey) (used : list CategoryKey) :
  existsb (CategoryKey_eqb k) used = true <-> In k used.
Proof.
  rewrite existsb_exists. split.
  - intros (x & Hx & E). apply CategoryKey_eqb_true in E. now subst.
  - intros H. exists k. split; [exact H|]. now apply CategoryKey_eqb_true.
Qed.

(** What the selection loop does to a state whose [usedCategories] are
    the categories of its red flags. *)
Lemma takeRedFlags_run (l : list MatchOfClause) :
  forall used flags,
    (forall k, In k used <-> In k (map RedFlag.category flags)) ->
    let final := fold_left takeRedFlag l (used, flags) in
    (exists added, snd final = flags ++ added /\
                   forall f, In f added ->
                             exists m, In m l /\ f = redFlagOf (fst m)) /\
    (forall k, In k (fst final) <-> In k (map RedFlag.category (snd final))) /\
    ((length (snd final) < 3)%nat ->
     forall m, In m l -> In (Match.category (fst m)) (fst final)).
Proof.
  induction l as [|a l IH]; intros used flags Hused; cbn [fold_left].
  - cbv zeta. split; [|split].
    + exists []. split; [now rewrite app_nil_r|intros f []].
    + exact Hused.
    + intros _ m [].
  - rewrite takeRedFlag_eq.
    destruct (negb (existsb (CategoryKey_eqb (Match.category (fst a))) used)
              && (length flags <? 3)%nat) eqn:Etake.
    + apply andb_true_iff in Etake. destruct Etake as [Hnew Hroom].
      specialize (IH (Match.category (fst a) :: used)
                     (flags ++ [redFlagOf (fst a)])).
      destruct IH as ((added & Eadd & Hadd) & Hset & Hall).
      { intros k. rewrite map_app, in_app_iff. simpl. rewrite Hused.
        intuition. }
      cbv zeta. split; [|split].
      * exists (redFlagOf (fst a) :: added). split.
        -- rewrite Eadd, <- app_assoc. reflexivity.
        -- intros f [<-|Hf]; [exists a; split; [now left|reflexivity]|].
           destruct (Hadd f Hf) as (m & Hm & E). exists m. split; [now right|].
           exact E.
      * exact Hset.
      * intros Hlt m [<-|Hm]; [|now apply Hall].
        apply Hset. rewrite Eadd, map_app, in_app_iff. left.
        rewrite map_app, in_app_iff. right. now left.
    + specialize (IH used flags Hused).
      destruct IH as ((added & Eadd & Hadd) & Hset & Hall).
      cbv zeta. split; [|split].
      * exists added. split; [exact Eadd|].
        intros f Hf. destruct (Hadd f Hf) as (m & Hm & E).
        exists m. split; [now right|exact E].
      * exact Hset.
      * intros Hlt m [<-|Hm]; [|now apply Hall].
        apply andb_false_iff in Etake. destruct Etake as [Hold|Hfull].
        -- apply negb_false_iff, used_membership in Hold.
           apply Hset. rewrite Eadd, map_app, in_app_iff. left.
           now apply Hused.
        -- apply Nat.ltb_ge in Hfull.
           rewrite Eadd, length_app in Hlt. lia.
Qed.

Lemma generateRedFlags_run (clauseAnalyses : list Clause.t) :
  (forall f, In f (generateRedFlags clauseAnalyses) ->
             exists m, In m (allMatches clauseAnalyses) /\ f = redFlagOf m) /\
  ((length (generateRedFlags clauseAnalyses) < 3)%nat ->
   forall m, In m (allMatches clauseAnalyses) ->
             In (Match.category m)
                (map RedFlag.category (generateRedFlags clauseAnalyses))).
Proof.
  unfold generateRedFlags. cbv zeta.
  destruct (@takeRedFlags_run
              (Array_sort compareMatches (collectMatches clauseAnalyses))
              [] []) as ((added & Eadd & Hadd) & Hset & Hall);
    [simpl; tauto|].
  cbv zeta in Hall, Hset, Eadd. split.
  - intros f Hf. rewrite Eadd in Hf. simpl in Hf.
    destruct (Hadd f Hf) as (m & Hm & E).
    apply Array_sort_In in Hm. exists (fst m). split; [|exact E].
    rewrite <- collectMatches_matches. now apply in_map.
  - intros Hlt m Hm. apply Hset.
    rewrite <- collectMatches_matches in Hm.
    apply in_map_iff in Hm. destruct Hm as (mc & <- & Hmc).
    apply (Hall Hlt). now apply Array_sort_In.
Qed.

Lemma matchedCategories_In (clauseAnalyses : list Clause.t)
      (k : CategoryKey) :
  In k (matchedCategories clauseAnalyses)
  <-> exists m, In m (allMatches clauseAnalyses) /\ Match.category m = k.
Proof.
  unfold matchedCategories. rewrite filter_In, used_membership, in_map_iff.
  split.
  - intros [_ (m & E & Hm)]. eauto.
  - intros (m & Hm & E). split; [apply categoryKeys_complete|eauto].
Qed.

Lemma matchedCategories_NoDup (clauseAnalyses : list Clause.t) :
  NoDup (matchedCategories clauseAnalyses).
Proof. apply NoDup_filter, categoryKeys_NoDup. Qed.

Lemma redFlags_in_matched (clauseAnalyses : list Clause.t) :
  incl (map RedFlag.category (generateRedFlags clauseAnalyses))
       (matchedCategories clauseAnalyses).
Proof.
  intros k Hk. apply in_map_iff in Hk. destruct Hk as (f & <- & Hf).
  destruct (generateRedFlags_run clauseAnalyses) as [Hsound _].
  destruct (Hsound f Hf) as (m & Hm & ->).
  apply matchedCategories_In. exists m. split; [exact Hm|reflexivity].
Qed.

Lemma redFlags_count (clauseAnalyses : list Clause.t) :
  length (generateRedFlags clauseAnalyses)
  = Nat.min 3 (length (matchedCategories clauseAnalyses)).
Proof.
  destruct (generateRedFlags_invariant clauseAnalyses) as [Hle Hnd].
  pose proof (redFlags_in_matched clauseAnalyses) as Hincl.
  pose proof (NoDup_incl_length Hnd Hincl) as Hlen.
  rewrite length_map in Hlen.
  destruct (Nat.lt_ge_cases (length (generateRedFlags clauseAnalyses)) 3)
    as [Hlt|Hge]; [|lia].
  destruct (generateRedFlags_run clauseAnalyses) as [_ Hcover].
  assert (Hback : incl (matchedCategories clauseAnalyses)
                       (map RedFlag.category
                            (generateRedFlags clauseAnalyses))).
  { intros k Hk. apply matchedCategories_In in Hk.
    destruct Hk as (m & Hm & <-). now apply Hcover. }
  pose proof (NoDup_incl_length (matchedCategories_NoDup clauseAnalyses)
                                Hback) as Hlen'.
  rewrite length_map in Hlen'. lia.
Qed.

(** X8. The red flags are one for each of the categories that have a
    match, up to three: their number is the smaller of 3 and the number of
    matched categories, each is built from a match of the text, and when at
    most three categories are matched every one of them has its flag. *)
Theorem red_flags_cover_matched_categories :
  forall clauseAnalyses : list Clause.t,
    length (generateRedFlags clauseAnalyses)
    = Nat.min 3 (length (matchedCategories clauseAnalyses)) /\
    (forall f, In f (generateRedFlags clauseAnalyses) ->
               exists m, In m (allMatches clauseAnalyses) /\
                         f = redFlagOf m) /\
    ((length (matchedCategories clauseAnalyses) <= 3)%nat ->
     forall k, In k (matchedCategories clauseAnalyses) ->
               In k (map RedFlag.category
                         (generateRedFlags clauseAnalyses))).
Proof.
  intros clauseAnalyses.
  pose proof (redFlags_count clauseAnalyses) as Hcount.
  destruct (generateRedFlags_run clauseAnalyses) as [Hsound Hcover].
  split; [exact Hcount|]. split; [exact Hsound|].
  intros Hle k Hk.
  destruct (generateRedFlags_invariant clauseAnalyses) as [_ Hnd].
  pose proof (redFlags_in_matched clauseAnalyses) as Hincl.
  assert (Hback : incl (matchedCategories clauseAnalyses)
                       (map RedFlag.category
                            (generateRedFlags clauseAnalyses))).
  { apply (@NoDup_length_incl _ _ _ Hnd); [|exact Hincl].
    rewrite length_map, Hcount. lia. }
  now apply Hback.
Qed.

Lemma red_flags_cover_matched_categories_witness :
  let clauseAnalyses :=
    @clauseAnalysesOf basicLatin constructor four_categories_text in
  length (generateRedFlags clauseAnalyses)
  = Nat.min 3 (length (matchedCategories clauseAnalyses)) /\
  (forall f, In f (generateRedFlags clauseAnalyses) ->
             exists m, In m (allMatches clauseAnalyses) /\
                       f = redFlagOf m) /\
  ((length (matchedCategories clauseAnalyses) <= 3)%nat ->
   forall k, In k (matchedCategories clauseAnalyses) ->
             In k (map RedFlag.category
                       (generateRedFlags clauseAnalyses))).
Proof.
  exact (red_flags_cover_matched_categories
           (@clauseAnalysesOf basicLatin constructor four_categories_text)).
Defined.

(** X9. When the text has a match and the rank of every match, its
    severity times its confidence, is a finite number, the first red flag
    is built from a match whose rank is the highest of all. *)
Theorem first_red_flag_is_top_ranked :
  forall clauseAnalyses : list Clause.t,
    allMatches clauseAnalyses <> [] ->
    (forall m, In m (collectMatches clauseAnalyses) ->
               Number.isFinite (matchScore m) = true) ->
    exists (top : MatchOfClause) (others : list RedFlag.t),
      generateRedFlags clauseAnalyses = redFlagOf (fst top) :: others /\
      In top (collectMatches clauseAnalyses) /\
      forall m, In m (collectMatches clauseAnalyses) ->
                (matchScore m <=? matchScore top) = true.
Proof.
  intros clauseAnalyses Hne Hfin. unfold generateRedFlags. cbv zeta.
  pose proof (sorted_head_is_top (collectMatches clauseAnalyses) Hfin)
    as Htop.
  pose proof (Array_sort_In compareMatches) as Hin.
  destruct (Array_sort compareMatches (collectMatches clauseAnalyses))
    as [|top rest] eqn:Es.
  - exfalso. apply Hne. rewrite <- collectMatches_matches, Htop. reflexivity.
  - cbn [fold_left]. rewrite takeRedFlag_eq. cbn [existsb negb length andb].
    destruct (@takeRedFlags_run rest [Match.category (fst top)]
                [redFlagOf (fst top)]) as ((added & Eadd & _) & _).
    { simpl. tauto. }
    cbv zeta in Eadd. simpl in Eadd.
    exists top, added. split; [exact Eadd|]. split; [|exact Htop].
    apply (Hin top (collectMatches clauseAnalyses)). rewrite Es. now left.
Qed.

Lemma first_red_flag_is_top_ranked_witness :
  allMatches (@clauseAnalysesOf basicLatin constructor four_categories_text)
    <> [] /\
  (forall m,
      In m (collectMatches
              (@clauseAnalysesOf basicLatin constructor
                 four_categories_text)) ->
      Number.isFinite (matchScore m) = true) /\
  exists (top : MatchOfClause) (others : list RedFlag.t),
    generateRedFlags
      (@clauseAnalysesOf basicLatin constructor four_categories_text)
    = redFlagOf (fst top) :: others /\
    In top (collectMatches
              (@clauseAnalysesOf basicLatin constructor
                 four_categories_text)) /\
    forall m,
      In m (collectMatches
              (@clauseAnalysesOf basicLatin constructor
                 four_categories_text)) ->
      (matchScore m <=? matchScore top) = true.
Proof.
  assert (H : allMatches
                (@clauseAnalysesOf basicLatin constructor
                   four_categories_text) <> []).
  { vm_compute. discriminate. }
  assert (F : forall m,
             In m (collectMatches
                     (@clauseAnalysesOf basicLatin constructor
                        four_categories_text)) ->
             Number.isFinite (matchScore m) = true).
  { intros m Hm. vm_compute in Hm.
    repeat (destruct Hm as [<-|Hm]; [vm_compute; reflexivity|]).
    destruct Hm. }
  split; [exact H|]. split; [exact F|].
  exact (@first_red_flag_is_top_ranked _ H F).
Defined.

(* ================================================================== *)
(** * The category report *)

Lemma addSeverity_map (key : CategoryKey) (severity : float)
      (entryOf : CategoryKey -> ScoreEntry) (keys : list CategoryKey) :
  NoDup keys ->
  addSeverity key severity (map (fun k => (k, entryOf k)) keys)
  = map (fun k =>
           (k, if CategoryKey_eqb k key
               then {| entry_name := entry_name (entryOf k);
                       entry_severity := entry_severity (entryOf k) + severity;
                       clause_count := S (clause_count (entryOf k)) |}
               else entryOf k))
        keys.
Proof.
  induction keys as [|k keys IH]; intros Hnd; [reflexivity|].
  inversion Hnd as [|? ? Hk Hnd']; subst.
  cbn [map addSeverity].
  destruct (CategoryKey_eqb k key) eqn:E.
  - apply CategoryKey_eqb_true in E. subst key. f_equal.
    apply map_ext_in. intros k' Hk'.
    destruct (CategoryKey_eqb k' k) eqn:E'; [|reflexivity].
    apply CategoryKey_eqb_true in E'. subst k'. contradiction.
  - now rewrite IH.
Qed.

Lemma accumulate_all (matches : list Match.t) :
  forall (entryOf : CategoryKey -> ScoreEntry) (keys : list CategoryKey),
    NoDup keys ->
    fold_left
      (fun categoryScores match_ =>
         addSeverity (Match.category match_) (Match.severity match_)
                     categoryScores)
      matches (map (fun k => (k, entryOf k)) keys)
    = map (fun k => (k, accumulate k matches (entryOf k))) keys.
Proof.
  induction matches as [|m matches IH]; intros entryOf keys Hnd;
    [reflexivity|].
  cbn [fold_left]. rewrite addSeverity_map by exact Hnd.
  rewrite (IH _ keys Hnd). reflexivity.
Qed.

Lemma accumulate_name (key : CategoryKey) (matches : list Match.t) :
  forall entry, entry_name (accumulate key matches entry) = entry_name entry.
Proof.
  unfold accumulate. induction matches as [|m matches IH]; intros entry;
    [reflexivity|].
  cbn [fold_left]. rewrite IH.
  destruct (CategoryKey_eqb key (Match.category m)); reflexivity.
Qed.

Lemma accumulate_count (key : CategoryKey) (matches : list Match.t) :
  forall entry,
    (0 <? clause_count (accumulate key matches entry))%nat
    = (0 <? clause_count entry)%nat
      || existsb (CategoryKey_eqb key) (map Match.category matches).
Proof.
  unfold accumulate. induction matches as [|m matches IH]; intros entry.
  - simpl. now rewrite orb_false_r.
  - cbn [fold_left map existsb]. rewrite IH.
    destruct (CategoryKey_eqb key (Match.category m)); simpl.
    + now rewrite orb_true_r.
    + reflexivity.
Qed.

Lemma accumulate_severity (key : CategoryKey) (baseline : float)
      (matches : list Match.t) :
  (forall m, In m matches -> Match.category m = key ->
             Match.severity m = baseline) ->
  forall entry,
    entry_severity (accumulate key matches entry)
    = fold_left PrimFloat.add (repeat baseline (matchesIn key matches))
                (entry_severity entry) /\
    clause_count (accumulate key matches entry)
    = (clause_count entry + matchesIn key matches)%nat.
Proof.
  unfold accumulate, matchesIn. induction matches as [|m matches IH];
    intros Hsev entry; [now rewrite Nat.add_0_r|].
  cbn [fold_left filter].
  assert (Hrest : forall m', In m' matches -> Match.category m' = key ->
                             Match.severity m' = baseline)
    by (intros m' Hm'; apply Hsev; now right).
  destruct (CategoryKey_eqb key (Match.category m)) eqn:E.
  - apply CategoryKey_eqb_true in E.
    destruct (IH Hrest
                {| entry_name := entry_name entry;
                   entry_severity := entry_severity entry + Match.severity m;
                   clause_count := S (clause_count entry) |}) as [-> ->].
    cbn [entry_severity clause_count length repeat fold_left].
    rewrite (Hsev m (or_introl eq_refl) (eq_sym E)). split; [reflexivity|lia].
  - apply (IH Hrest).
Qed.

Lemma report_of_entries (entryOf : CategoryKey -> ScoreEntry)
      (matched : CategoryKey -> bool) :
  (forall key,
      (0 <? clause_count (entryOf key))%nat = false || matched key) ->
  forall keys,
    map (fun '(key, score) =>
           {| CategoryScore.key := key;
              CategoryScore.name := entry_name score;
              CategoryScore.severity :=
                (entry_severity score / Number_of_nat (clause_count score))
                * 100 |})
        (filter (fun '(_, score) => (0 <? clause_count score)%nat)
                (map (fun key => (key, entryOf key)) keys))
    = map (fun key =>
             let score := entryOf key in
             {| CategoryScore.key := key;
                CategoryScore.name := entry_name score;
                CategoryScore.severity :=
                  (entry_severity score / Number_of_nat (clause_count score))
                  * 100 |})
          (filter matched keys).
Proof.
  intros H keys. induction keys as [|k keys IH]; [reflexivity|].
  simpl. rewrite H. simpl.
  destruct (matched k); simpl; now rewrite IH.
Qed.

Lemma calculateCategoryScores_eq (this : ConsentLensAIEngine)
      (clauseAnalyses : list Clause.t) :
  calculateCategoryScores this clauseAnalyses
  = map (fun key =>
           let score :=
             accumulate key (allMatches clauseAnalyses)
               {| entry_name := Category.name (categories this key);
                  entry_severity := 0;
                  clause_count := O |} in
           {| CategoryScore.key := key;
              CategoryScore.name := entry_name score;
              CategoryScore.severity :=
                (entry_severity score / Number_of_nat (clause_count score))
                * 100 |})
        (matchedCategories clauseAnalyses).
Proof.
  unfold calculateCategoryScores. cbv zeta.
  rewrite fold_left_nested. fold (allMatches clauseAnalyses).
  rewrite (accumulate_all _
             (fun key => {| entry_name := Category.name (categories this key);
                            entry_severity := 0;
                            clause_count := O |})
             categoryKeys_NoDup).
  unfold matchedCategories.
  apply report_of_entries. intros key. apply accumulate_count.
Qed.

Section Report.
Context {platform : Platform}.

Lemma clauseAnalysesOf_severity (this : ConsentLensAIEngine)
      (text : jsstring) (m : Match.t) :
  In m (allMatches (clauseAnalysesOf this text)) ->
  Match.severity m = PatternSet.severity (patterns this (Match.category m)) /\
  (Match.confidence m = 0.75 \/ Match.confidence m = 0.8999999999999999 \/
   Match.confidence m = 0.95).
Proof.
  unfold allMatches, clauseAnalysesOf. intros Hin.
  apply in_flat_map in Hin. destruct Hin as (c & Hc & Hin).
  apply in_map_iff in Hc. destruct Hc as (clause & <- & _).
  apply analyzeClause_match_fields in Hin. apply matchOf_fields in Hin.
  destruct Hin as (_ & Hpos & Hconf & Hsev & _).
  split; [exact Hsev|]. rewrite Hconf.
  destruct (matchCount this clause (Match.category m)) as [|[|[|n]]];
    [lia| | |].
  - left. reflexivity.
  - right; left. reflexivity.
  - right; right. apply MathFacts.confidence_of_three. lia.
Qed.

End Report.

Example severity_shown_for_three_matches :
  (addedTimes 0.95 1 / Number_of_nat 1) * 100 = 95 /\
  (addedTimes 0.95 3 / Number_of_nat 3) * 100 = 94.99999999999999.
Proof. split; reflexivity. Qed.

(** X10. The [categories] report lists exactly the categories that have a
    match, once each and in the order of the catalog, under the name the
    catalog gives them; the severity shown for a category with [n] matches
    is its baseline severity added [n] times, divided by [n], times 100:
    for one match this is 100 times the baseline of the catalog. *)
Theorem categories_report_baseline :
  forall (platform : Platform) (this : ConsentLensAIEngine)
         (text : jsstring),
    let report :=
      calculateCategoryScores this (clauseAnalysesOf this text) in
    map CategoryScore.key report
    = matchedCategories (clauseAnalysesOf this text) /\
    NoDup (map CategoryScore.key report) /\
    forall entry : CategoryScore.t,
      In entry report ->
      let key := CategoryScore.key entry in
      let n := matchesIn key (allMatches (clauseAnalysesOf this text)) in
      let baseline := PatternSet.severity (patterns this key) in
      CategoryScore.name entry = Category.name (categories this key) /\
      (1 <= n)%nat /\
      CategoryScore.severity entry
      = (addedTimes baseline n / Number_of_nat n) * 100 /\
      (n = 1%nat -> this = constructor ->
       CategoryScore.severity entry = baseline * 100).
Proof.
  intros platform this text report. subst report.
  rewrite calculateCategoryScores_eq. cbv zeta.
  split; [|split].
  - rewrite map_map. simpl. apply map_id.
  - rewrite map_map. simpl. rewrite map_id. apply matchedCategories_NoDup.
  - intros entry Hin. apply in_map_iff in Hin.
    destruct Hin as (key & <- & Hkey). cbn [CategoryScore.key
      CategoryScore.name CategoryScore.severity].
    split; [apply accumulate_name|].
    set (entry0 := {| entry_name := Category.name (categories this key);
                      entry_severity := 0; clause_count := O |}).
    set (ms := allMatches (clauseAnalysesOf this text)).
    assert (Hcount : (0 <? clause_count (accumulate key ms entry0))%nat = true).
    { rewrite accumulate_count. unfold matchedCategories in Hkey.
      apply filter_In in Hkey. destruct Hkey as [_ Hex].
      unfold ms. rewrite Hex. apply orb_true_r. }
    apply Nat.ltb_lt in Hcount.
    destruct (@accumulate_severity key
                (PatternSet.severity (patterns this key)) ms) with
      (entry := entry0) as [Esev Ecount].
    { intros m Hm Hcat. subst ms.
      destruct (clauseAnalysesOf_severity _ _ _ Hm) as [-> _].
      now rewrite Hcat. }
    rewrite Esev, Ecount in *. cbn [entry0 entry_severity clause_count] in *.
    cbn [Nat.add] in *. fold (addedTimes (PatternSet.severity (patterns this key))
                                          (matchesIn key ms)).
    split; [lia|]. split; [reflexivity|].
    intros -> ->. destruct key; reflexivity.
Qed.

(* ================================================================== *)
(** * The score and the confidence of a text with a match *)

Lemma risky_matches (clauseAnalyses : list Clause.t) :
  (forall c, In c clauseAnalyses ->
             Clause.is_risky c = (0 <? length (Clause.matches c))%nat) ->
  flat_map Clause.matches (filter Clause.is_risky clauseAnalyses)
  = allMatches clauseAnalyses.
Proof.
  unfold allMatches. induction clauseAnalyses as [|c l IH]; intros H;
    [reflexivity|].
  cbn [filter flat_map]. rewrite (H c (or_introl eq_refl)).
  rewrite <- IH by (intros c' Hc'; apply H; now right).
  destruct (Clause.matches c) eqn:E; cbn [length Nat.ltb Nat.leb app].
  - reflexivity.
  - cbn [flat_map]. now rewrite E.
Qed.

Lemma allMatches_nil_risky (clauseAnalyses : list Clause.t) :
  (forall c, In c clauseAnalyses ->
             Clause.is_risky c = (0 <? length (Clause.matches c))%nat) ->
  allMatches clauseAnalyses = [] ->
  filter Clause.is_risky clauseAnalyses = [].
Proof.
  unfold allMatches. induction clauseAnalyses as [|c l IH]; intros H E;
    [reflexivity|].
  cbn [flat_map] in E. apply app_eq_nil in E. destruct E as [Ec El].
  cbn [filter]. rewrite (H c (or_introl eq_refl)), Ec. simpl.
  apply IH; [|exact El]. intros c' Hc'. apply H. now right.
Qed.

(** The two sums of [calculateRiskScore], when weights and severities lie
    between 0 and 1: they stay finite, and the weighted sum stays below
    the sum of the weights. *)
Lemma weighted_totals (weightOf : Match.t -> float)
      (matches : list Match.t) :
  (forall m, In m matches ->
             (Number.isFinite (weightOf m) = true /\
              (0 <= Number.R (weightOf m) <= 1)%Q) /\
             (Number.isFinite (Match.severity m) = true /\
              (0 <= Number.R (Match.severity m) <= 1)%Q)) ->
  forall totalWeightedScore totalWeight,
    Number.isFinite totalWeightedScore = true ->
    Number.isFinite totalWeight = true ->
    (0 <= Number.R totalWeightedScore)%Q ->
    (Number.R totalWeightedScore <= Number.R totalWeight)%Q ->
    (Number.R totalWeight <= Binary64.bpow 60)%Q ->
    let totals :=
      fold_left
        (fun '(totalWeightedScore, totalWeight) match_ =>
           (totalWeightedScore + Match.severity match_ * weightOf match_,
            totalWeight + weightOf match_))
        matches (totalWeightedScore, totalWeight) in
    Number.isFinite (fst totals) = true /\
    Number.isFinite (snd totals) = true /\
    (0 <= Number.R (fst totals))%Q /\
    (Number.R (fst totals) <= Number.R (snd totals))%Q.
Proof.
  induction matches as [|m matches IH]; intros Hm tws tw Fs Fw L0 Lw Lb.
  - cbv zeta. simpl. auto.
  - cbn [fold_left].
    destruct (Hm m (or_introl eq_refl)) as [[Fc Hc] [Fv Hv]].
    destruct (@MathFacts.weighted_sums_step _ _ _ _ Fs Fw L0 Lw Lb Fv Hv Fc Hc)
      as (F1 & F2 & A1 & A2 & A3).
    apply (IH (fun m' H' => Hm m' (or_intror H'))); assumption.
Qed.

Lemma setupPatterns_severity (key : CategoryKey) :
  Number.isFinite (PatternSet.severity (setupPatterns key)) = true /\
  (0 <= Number.R (PatternSet.severity (setupPatterns key)) <= 1)%Q.
Proof. destruct key; apply MathFacts.unit_of_leb; reflexivity. Qed.

Lemma setupCategories_weight (key : CategoryKey) :
  Number.isFinite (Category.weight (setupCategories key)) = true /\
  (0 <= Number.R (Category.weight (setupCategories key)) <= 1)%Q.
Proof. destruct key; apply MathFacts.unit_of_leb; reflexivity. Qed.

Lemma getUserAdjustedWeight_unit (category : CategoryKey)
      (prefs : UserPreferences.t) :
  unitPreferences prefs ->
  Number.isFinite (getUserAdjustedWeight category prefs) = true /\
  (0 <= Number.R (getUserAdjustedWeight category prefs) <= 1)%Q.
Proof.
  intros (Hp & Hl & Hc).
  destruct (getUserAdjustedWeight_cases category prefs) as (w & Hw & ->).
  destruct (Number.truthy w); [|apply MathFacts.unit_of_leb; reflexivity].
  unfold unitWeight in *.
  destruct Hw as [-> | [-> | ->]];
    [destruct (UserPreferences.privacy_weight prefs)
    |destruct (UserPreferences.legal_rights_weight prefs)
    |destruct (UserPreferences.convenience_weight prefs)];
    apply MathFacts.unit_of_leb; tauto || reflexivity.
Qed.

Section TextWithMatch.
Context {platform : Platform}.

Lemma clauseAnalysesOf_is_risky (this : ConsentLensAIEngine)
      (text : jsstring) (c : Clause.t) :
  In c (clauseAnalysesOf this text) ->
  Clause.is_risky c = (0 <? length (Clause.matches c))%nat.
Proof.
  unfold clauseAnalysesOf. intros Hc. apply in_map_iff in Hc.
  destruct Hc as (clause & <- & _). reflexivity.
Qed.

Lemma allMatches_length (clauseAnalyses : list Clause.t) :
  allMatches clauseAnalyses <> [] ->
  (length clauseAnalyses =? 0)%nat = false.
Proof. destruct clauseAnalyses; [intros H; now elim H|reflexivity]. Qed.

Lemma risky_not_empty (clauseAnalyses : list Clause.t) :
  (forall c, In c clauseAnalyses ->
             Clause.is_risky c = (0 <? length (Clause.matches c))%nat) ->
  allMatches clauseAnalyses <> [] ->
  (length (filter Clause.is_risky clauseAnalyses) =? 0)%nat = false.
Proof.
  intros H Hne.
  destruct (filter Clause.is_risky clauseAnalyses) eqn:E; [|reflexivity].
  exfalso. apply Hne. rewrite <- risky_matches by exact H.
  rewrite E. reflexivity.
Qed.

Lemma modifier_is_finite (score : float) (text : jsstring) :
  Number.isFinite score = true ->
  Number.isNaN (applyLinguisticModifiers score text) = false.
Proof.
  intros F. rewrite applyLinguisticModifiers_eq. cbv zeta.
  destruct (hasObligation _), (hasAbsolute _), (hasPermissive _);
    apply (NumberFacts.mul_R _ _ F); reflexivity.
Qed.

(** With user weights between 0 and 1 the score of the constructed engine
    is a number of [[0, 100]]. *)
Lemma calculateRiskScore_unit (text : jsstring) (prefs : UserPreferences.t) :
  unitPreferences prefs ->
  let score :=
    calculateRiskScore constructor (clauseAnalysesOf constructor text)
                       prefs in
  (0 <=? score) = true /\ (score <=? 100) = true.
Proof.
  intros Hprefs. cbv zeta. unfold calculateRiskScore.
  set (cas := clauseAnalysesOf constructor text) in *.
  pose proof (clauseAnalysesOf_is_risky constructor text) as Hrisky.
  fold cas in Hrisky.
  destruct (length cas =? 0)%nat; [split; reflexivity|].
  destruct (length (filter Clause.is_risky cas) =? 0)%nat;
    [split; reflexivity|].
  rewrite fold_left_nested. rewrite risky_matches by exact Hrisky.
  destruct (@weighted_totals
              (fun m => Category.weight (setupCategories (Match.category m))
                        * getUserAdjustedWeight (Match.category m) prefs)
              (allMatches cas)) with (totalWeightedScore := 0)
                                     (totalWeight := 0)
    as (F1 & F2 & L1 & L2).
  { intros m Hm. split.
    - destruct (setupCategories_weight (Match.category m)) as [Fc Hc].
      destruct (getUserAdjustedWeight_unit (Match.category m) Hprefs)
        as [Fu Hu].
      destruct (@MathFacts.mul_unit _ _ 1%Q Fc Hc Fu Hu eq_refl)
        as (F & L & U).
      split; [exact F|]. split; [exact L|]. lra.
    - destruct (clauseAnalysesOf_severity _ _ _ Hm) as [-> _].
      apply setupPatterns_severity. }
  { reflexivity. }
  { reflexivity. }
  { apply Qle_refl. }
  { apply Qle_refl. }
  { discriminate. }
  cbv zeta in F1, F2, L1, L2.
  cbn [categories constructor].
  destruct (fold_left _ (allMatches cas) (0, 0))
    as [totalWeightedScore totalWeight].
  cbn [fst snd] in F1, F2, L1, L2.
  destruct (totalWeight =? 0) eqn:E; [split; reflexivity|].
  cbv zeta.
  destruct (@MathFacts.ratio_times_100 _ _ F1 F2 L1 L2 E) as [Fr _].
  apply MathFacts.clamp_in_range. now apply modifier_is_finite.
Qed.

Lemma calculateRiskScore_without_match (this : ConsentLensAIEngine)
      (text : jsstring) (prefs : UserPreferences.t) :
  allMatches (clauseAnalysesOf this text) = [] ->
  calculateRiskScore this (clauseAnalysesOf this text) prefs = 0.
Proof.
  intros E. unfold calculateRiskScore.
  rewrite allMatches_nil_risky;
    [|apply clauseAnalysesOf_is_risky|exact E].
  destruct (length (clauseAnalysesOf this text) =? 0)%nat; reflexivity.
Qed.

Lemma calculateConfidence_with_match (this : ConsentLensAIEngine)
      (text : jsstring) :
  allMatches (clauseAnalysesOf this text) <> [] ->
  (Z.of_nat (length (allMatches (clauseAnalysesOf this text))) < 2 ^ 51)%Z ->
  (0.75 <=? calculateConfidence (clauseAnalysesOf this text)) = true /\
  (calculateConfidence (clauseAnalysesOf this text) <=? 1) = true.
Proof.
  intros Hne Hmany. unfold calculateConfidence.
  set (cas := clauseAnalysesOf this text) in *.
  pose proof (clauseAnalysesOf_is_risky this text) as Hrisky.
  fold cas in Hrisky.
  rewrite allMatches_length by exact Hne.
  rewrite risky_not_empty by assumption.
  rewrite fold_left_nested. rewrite risky_matches by exact Hrisky.
  rewrite (fold_left_push _ (fun m => [Match.confidence m]))
    by reflexivity.
  rewrite flat_map_singleton. cbn [app].
  set (confidences := map Match.confidence (allMatches cas)).
  assert (Elen : length confidences = length (allMatches cas))
    by apply length_map.
  assert (Hlen : (0 < length confidences)%nat).
  { rewrite Elen. destruct (allMatches cas); [congruence|simpl; lia]. }
  replace (0 <? length confidences)%nat with true
    by (symmetry; now apply Nat.ltb_lt).
  apply MathFacts.mean_between.
  - intros E. rewrite E in Hlen. simpl in Hlen. lia.
  - now rewrite Elen.
  - intros v Hv. unfold confidences in Hv. apply in_map_iff in Hv.
    destruct Hv as (m & <- & Hm).
    destruct (clauseAnalysesOf_severity _ _ _ Hm) as [_ [E|[E|E]]];
      rewrite E; (split; [reflexivity|split; vm_compute; discriminate]).
Qed.

Lemma calculateConfidence_without_match (this : ConsentLensAIEngine)
      (text : jsstring) :
  allMatches (clauseAnalysesOf this text) = [] ->
  calculateConfidence (clauseAnalysesOf this text) = 1.0.
Proof.
  intros E. unfold calculateConfidence.
  rewrite allMatches_nil_risky;
    [|apply clauseAnalysesOf_is_risky|exact E].
  destruct (length (clauseAnalysesOf this text) =? 0)%nat; reflexivity.
Qed.

Lemma redFlags_nil (clauseAnalyses : list Clause.t) :
  generateRedFlags clauseAnalyses = [] <-> allMatches clauseAnalyses = [].
Proof.
  pose proof (redFlags_count clauseAnalyses) as Hc.
  split; intros E.
  - rewrite E in Hc. simpl in Hc.
    destruct (allMatches clauseAnalyses) as [|m l] eqn:Em; [reflexivity|].
    assert (Hin : In (Match.category m) (matchedCategories clauseAnalyses)).
    { apply matchedCategories_In. exists m. rewrite Em. split; [now left|].
      reflexivity. }
    destruct (matchedCategories clauseAnalyses); [destruct Hin|].
    simpl in Hc. lia.
  - assert (Hm : matchedCategories clauseAnalyses = []).
    { destruct (matchedCategories clauseAnalyses) as [|k l] eqn:Ek;
        [reflexivity|].
      assert (Hk : In k (matchedCategories clauseAnalyses))
        by (rewrite Ek; now left).
      apply matchedCategories_In in Hk. destruct Hk as (m & Hm & _).
      rewrite E in Hm. destruct Hm. }
    rewrite Hm in Hc. simpl in Hc.
    destruct (generateRedFlags clauseAnalyses); [reflexivity|discriminate].
Qed.

End TextWithMatch.

(* ================================================================== *)
(** * The result as a whole *)

Section WholeResult.
Context {platform : Platform}.

Lemma analyze_reports (this : ConsentLensAIEngine) (text : jsstring)
      (options : Options.t) (r : AnalysisResult.t) :
  analyze this text options = Some r ->
  AnalysisResult.categories r
    = calculateCategoryScores this (clauseAnalysesOf this text) /\
  AnalysisResult.clauses_analyzed r
    = length (extractClauses (preprocessText text)) /\
  Metadata.text_length (AnalysisResult.metadata r) = length text.
Proof.
  unfold analyze, clauseAnalysesOf. cbv zeta.
  destruct (generateBenchmark this (Options.url options) _); [|discriminate].
  intros H; injection H as <-. simpl. rewrite length_map. auto.
Qed.

Lemma categories_nil (this : ConsentLensAIEngine)
      (clauseAnalyses : list Clause.t) :
  calculateCategoryScores this clauseAnalyses = []
  <-> allMatches clauseAnalyses = [].
Proof.
  rewrite calculateCategoryScores_eq.
  split; intros E.
  - apply map_eq_nil in E.
    destruct (allMatches clauseAnalyses) as [|m l] eqn:Em; [reflexivity|].
    assert (Hin : In (Match.category m) (matchedCategories clauseAnalyses)).
    { apply matchedCategories_In. exists m. rewrite Em.
      split; [now left|reflexivity]. }
    rewrite E in Hin. destruct Hin.
  - destruct (matchedCategories clauseAnalyses) as [|k l] eqn:Ek;
      [reflexivity|].
    assert (Hk : In k (matchedCategories clauseAnalyses))
      by (rewrite Ek; now left).
    apply matchedCategories_In in Hk. destruct Hk as (m & Hm & _).
    rewrite E in Hm. destruct Hm.
Qed.

End WholeResult.

(** X11. A result has no red flag exactly when no clause of the text has a
    match; its score is then 0, its level LOW, its [categories] report
    empty and its confidence 1. *)
Theorem no_red_flag_gives_zero_score :
  forall (platform : Platform) (this : ConsentLensAIEngine)
         (text : jsstring) (options : Options.t) (r : AnalysisResult.t),
    analyze this text options = Some r ->
    (AnalysisResult.red_flags r = []
     <-> allMatches (clauseAnalysesOf this text) = []) /\
    (AnalysisResult.red_flags r = [] ->
     AnalysisResult.risk_score r = 0 /\
     AnalysisResult.risk_level r = LOW /\
     AnalysisResult.categories r = [] /\
     AnalysisResult.confidence r = 1).
Proof.
  intros platform this text options r H.
  destruct (analyze_reports _ _ _ H) as (Hcat & _).
  apply analyze_fields in H. cbv zeta in H.
  destruct H as (Hscore & Hlevel & Hflags & Hconf & _).
  assert (Hiff : AnalysisResult.red_flags r = []
                 <-> allMatches (clauseAnalysesOf this text) = []).
  { rewrite Hflags. apply redFlags_nil. }
  split; [exact Hiff|]. intros Hnil. apply Hiff in Hnil.
  assert (Hzero : AnalysisResult.risk_score r = 0).
  { rewrite Hscore. now apply calculateRiskScore_without_match. }
  split; [exact Hzero|]. split; [rewrite Hlevel, Hzero; reflexivity|].
  split.
  - rewrite Hcat. now apply categories_nil.
  - rewrite Hconf. now apply calculateConfidence_without_match.
Qed.

Lemma no_red_flag_gives_zero_score_witness :
  exists r : AnalysisResult.t,
    @analyze basicLatin constructor sharing_text Options.empty = Some r /\
    (AnalysisResult.red_flags r = []
     <-> allMatches (@clauseAnalysesOf basicLatin constructor sharing_text)
         = []) /\
    (AnalysisResult.red_flags r = [] ->
     AnalysisResult.risk_score r = 0 /\
     AnalysisResult.risk_level r = LOW /\
     AnalysisResult.categories r = [] /\
     AnalysisResult.confidence r = 1).
Proof.
  eexists. split.
  - vm_compute. reflexivity.
  - apply (@no_red_flag_gives_zero_score basicLatin constructor sharing_text
             Options.empty).
    vm_compute. reflexivity.
Defined.

(** X12. The [confidence] of a result is 1 when nothing matched; when
    something did (and the text has fewer than 2^51 matches) it is the
    binary64 mean of confidences that are each 0.75, 0.8999999999999999
    or 0.95, and lies between 0.75 and 1. *)
Theorem confidence_of_result :
  forall (platform : Platform) (this : ConsentLensAIEngine)
         (text : jsstring) (options : Options.t) (r : AnalysisResult.t),
    analyze this text options = Some r ->
    (Z.of_nat (length (allMatches (clauseAnalysesOf this text))) < 2 ^ 51)%Z ->
    (AnalysisResult.red_flags r = [] /\ AnalysisResult.confidence r = 1) \/
    (AnalysisResult.red_flags r <> [] /\
     (0.75 <=? AnalysisResult.confidence r) = true /\
     (AnalysisResult.confidence r <=? 1) = true).
Proof.
  intros platform this text options r H Hmany.
  apply analyze_fields in H. cbv zeta in H.
  destruct H as (_ & _ & Hflags & Hconf & _).
  destruct (allMatches (clauseAnalysesOf this text)) as [|m l] eqn:E.
  - left. rewrite Hflags, Hconf.
    rewrite calculateConfidence_without_match by exact E.
    split; [now apply redFlags_nil|reflexivity].
  - right.
    assert (Hne : allMatches (clauseAnalysesOf this text) <> [])
      by (rewrite E; discriminate).
    split.
    + rewrite Hflags. intros Hnil. now apply redFlags_nil in Hnil.
    + rewrite Hconf. apply calculateConfidence_with_match; [exact Hne|].
      now rewrite E.
Qed.

Lemma confidence_of_result_witness :
  exists r : AnalysisResult.t,
    @analyze basicLatin constructor four_categories_text Options.empty
      = Some r /\
    (Z.of_nat
       (length (allMatches
                  (@clauseAnalysesOf basicLatin constructor
                     four_categories_text))) < 2 ^ 51)%Z /\
    ((AnalysisResult.red_flags r = [] /\ AnalysisResult.confidence r = 1) \/
     (AnalysisResult.red_flags r <> [] /\
      (0.75 <=? AnalysisResult.confidence r) = true /\
      (AnalysisResult.confidence r <=? 1) = true)).
Proof.
  assert (Hmany : (Z.of_nat
                     (length (allMatches
                                (@clauseAnalysesOf basicLatin constructor
                                   four_categories_text))) < 2 ^ 51)%Z).
  { vm_compute. reflexivity. }
  eexists. split; [|split; [exact Hmany|]].
  - vm_compute. reflexivity.
  - apply (@confidence_of_result basicLatin constructor four_categories_text
             Options.empty); [|exact Hmany].
    vm_compute. reflexivity.
Defined.

(** X22. On the constructed engine, when each user weight is absent or
    lies between 0 and 1, the [risk_score] is a number of [[0, 100]]:
    the two sums stay finite, their quotient is at most 1, and the score
    that reaches the final clamp is not NaN. *)
Theorem risk_score_of_unit_preferences :
  forall (platform : Platform) (text : jsstring) (options : Options.t)
         (r : AnalysisResult.t),
    match Options.user_preferences options with
    | Some prefs => unitPreferences prefs
    | None => True
    end ->
    analyze constructor text options = Some r ->
    (0 <=? AnalysisResult.risk_score r) = true /\
    (AnalysisResult.risk_score r <=? 100) = true.
Proof.
  intros platform text options r Hprefs H.
  apply analyze_fields in H. cbv zeta in H. destruct H as (-> & _).
  apply calculateRiskScore_unit.
  destruct (Options.user_preferences options); [exact Hprefs|].
  repeat split.
Qed.

Lemma risk_score_of_unit_preferences_witness :
  exists r : AnalysisResult.t,
    match Options.user_preferences (privacy_weight_only 1) with
    | Some prefs => unitPreferences prefs
    | None => True
    end /\
    @analyze basicLatin constructor adversarial_text (privacy_weight_only 1)
      = Some r /\
    (0 <=? AnalysisResult.risk_score r) = true /\
    (AnalysisResult.risk_score r <=? 100) = true.
Proof.
  assert (Hprefs : match Options.user_preferences (privacy_weight_only 1) with
                   | Some prefs => unitPreferences prefs
                   | None => True
                   end).
  { simpl. unfold unitPreferences. simpl. repeat split. }
  eexists. split; [exact Hprefs|]. split.
  - vm_compute. reflexivity.
  - apply (@risk_score_of_unit_preferences basicLatin adversarial_text
             (privacy_weight_only 1)); [exact Hprefs|].
    vm_compute. reflexivity.
Defined.

(** X23. For every engine, text and options, the [risk_level] follows the
    comparisons of [getRiskLevel] on the [risk_score]: HIGH exactly when
    the score is at least 70, MEDIUM exactly when it is at least 40 and
    below 70, LOW exactly when it is not at least 40, which for a score
    that is a number means below 40. *)
Theorem risk_level_of_score :
  forall (platform : Platform) (this : ConsentLensAIEngine)
         (text : jsstring) (options : Options.t) (r : AnalysisResult.t),
    analyze this text options = Some r ->
    (AnalysisResult.risk_level r = HIGH
       <-> (70 <=? AnalysisResult.risk_score r) = true) /\
    (AnalysisResult.risk_level r = MEDIUM
       <-> (40 <=? AnalysisResult.risk_score r) = true /\
           (AnalysisResult.risk_score r <? 70) = true) /\
    (AnalysisResult.risk_level r = LOW
       <-> (40 <=? AnalysisResult.risk_score r) = false) /\
    (AnalysisResult.risk_score r <> nan ->
     (AnalysisResult.risk_level r = LOW
        <-> (AnalysisResult.risk_score r <? 40) = true)).
Proof.
  intros platform this text options r H.
  apply analyze_fields in H. destruct H as (_ & -> & _).
  apply getRiskLevel_thresholds.
Qed.

Lemma risk_level_of_score_witness :
  exists r : AnalysisResult.t,
    @analyze basicLatin constructor four_categories_text Options.empty
      = Some r /\
    (AnalysisResult.risk_level r = HIGH
       <-> (70 <=? AnalysisResult.risk_score r) = true) /\
    (AnalysisResult.risk_level r = MEDIUM
       <-> (40 <=? AnalysisResult.risk_score r) = true /\
           (AnalysisResult.risk_score r <? 70) = true) /\
    (AnalysisResult.risk_level r = LOW
       <-> (40 <=? AnalysisResult.risk_score r) = false) /\
    (AnalysisResult.risk_score r <> nan ->
     (AnalysisResult.risk_level r = LOW
        <-> (AnalysisResult.risk_score r <? 40) = true)).
Proof.
  eexists. split.
  - vm_compute. reflexivity.
  - apply (@risk_level_of_score basicLatin constructor
             four_categories_text Options.empty).
    vm_compute. reflexivity.
Defined.

(** X24. A red flag does not imply a positive score: with the smallest
    positive number as privacy weight, every combined weight of the seven
    matches underflows to 0, the total weight is 0 and [analyze] returns
    the score 0 and the level LOW next to a red flag. *)
Theorem red_flag_with_zero_score :
  forall platform : Platform,
  exists r : AnalysisResult.t,
    analyze constructor seven_sales_text tiny_privacy_weight = Some r /\
    map RedFlag.category (AnalysisResult.red_flags r)
      = [DATA_SHARING_RESALE] /\
    AnalysisResult.risk_score r = 0 /\
    AnalysisResult.risk_level r = LOW.
Proof.
  intros platform. to_basic_latin.
  eexists. split; [by_evaluation|]. repeat split; by_evaluation.
Qed.

(** X25. For every engine, text and options, the [risk_score] is NaN or a
    number of [[0, 100]]: it is 0 or comes out of
    [Math.min(100, Math.max(0, finalScore))]. *)
Theorem risk_score_clamped_or_nan :
  forall (platform : Platform) (this : ConsentLensAIEngine)
         (text : jsstring) (options : Options.t) (r : AnalysisResult.t),
    analyze this text options = Some r ->
    AnalysisResult.risk_score r = nan \/
    ((0 <=? AnalysisResult.risk_score r) = true /\
     (AnalysisResult.risk_score r <=? 100) = true).
Proof.
  intros platform this text options r H.
  apply analyze_fields in H. destruct H as (-> & _).
  apply calculateRiskScore_range.
Qed.

Lemma risk_score_clamped_or_nan_witness :
  exists r : AnalysisResult.t,
    @analyze basicLatin constructor seven_sales_text huge_privacy_weight
      = Some r /\
    (AnalysisResult.risk_score r = nan \/
     ((0 <=? AnalysisResult.risk_score r) = true /\
      (AnalysisResult.risk_score r <=? 100) = true)).
Proof.
  eexists. split.
  - vm_compute. reflexivity.
  - apply (@risk_score_clamped_or_nan basicLatin constructor
             seven_sales_text huge_privacy_weight).
    vm_compute. reflexivity.
Defined.

(** X13. The two reports of a result agree: the categories of the red
    flags are among the categories listed, there are as many red flags as
    categories listed up to three, and [clauses_analyzed] is the number of
    clauses of the normalized text, risky or not. *)
Theorem reports_agree :
  forall (platform : Platform) (this : ConsentLensAIEngine)
         (text : jsstring) (options : Options.t) (r : AnalysisResult.t),
    analyze this text options = Some r ->
    length (AnalysisResult.red_flags r)
    = Nat.min 3 (length (AnalysisResult.categories r)) /\
    incl (map RedFlag.category (AnalysisResult.red_flags r))
         (map CategoryScore.key (AnalysisResult.categories r)) /\
    AnalysisResult.clauses_analyzed r
    = length (extractClauses (preprocessText text)).
Proof.
  intros platform this text options r H.
  destruct (analyze_reports _ _ _ H) as (Hcat & Hn & _).
  apply analyze_fields in H. cbv zeta in H.
  destruct H as (_ & _ & Hflags & _).
  assert (Hkeys : map CategoryScore.key (AnalysisResult.categories r)
                  = matchedCategories (clauseAnalysesOf this text)).
  { rewrite Hcat, calculateCategoryScores_eq, map_map. simpl. apply map_id. }
  split; [|split; [|exact Hn]].
  - rewrite <- (length_map CategoryScore.key), Hkeys, Hflags.
    apply redFlags_count.
  - rewrite Hkeys, Hflags. apply redFlags_in_matched.
Qed.

Lemma reports_agree_witness :
  exists r : AnalysisResult.t,
    @analyze basicLatin constructor four_categories_text Options.empty
      = Some r /\
    length (AnalysisResult.red_flags r)
    = Nat.min 3 (length (AnalysisResult.categories r)) /\
    incl (map RedFlag.category (AnalysisResult.red_flags r))
         (map CategoryScore.key (AnalysisResult.categories r)) /\
    AnalysisResult.clauses_analyzed r
    = length (extractClauses (preprocessText four_categories_text)).
Proof.
  eexists. split.
  - vm_compute. reflexivity.
  - apply (@reports_agree basicLatin constructor four_categories_text
             Options.empty).
    vm_compute. reflexivity.
Defined.

(** X14. A text of at most 20 code units has no clause: whatever it
    says, its result has [clauses_analyzed] 0, score 0, level LOW, no red
    flag and no category. *)
Theorem short_text_is_not_analyzed :
  forall (platform : Platform) (this : ConsentLensAIEngine)
         (text : jsstring) (options : Options.t) (r : AnalysisResult.t),
    (length text <= 20)%nat ->
    analyze this text options = Some r ->
    AnalysisResult.clauses_analyzed r = O /\
    AnalysisResult.risk_score r = 0 /\
    AnalysisResult.risk_level r = LOW /\
    AnalysisResult.red_flags r = [] /\
    AnalysisResult.categories r = [].
Proof.
  intros platform this text options r Hlen H.
  pose proof (short_text_no_clause _ Hlen) as Enone.
  assert (E : allMatches (clauseAnalysesOf this text) = []).
  { unfold clauseAnalysesOf. rewrite Enone. reflexivity. }
  destruct (analyze_reports _ _ _ H) as (Hcat & Hn & _).
  apply analyze_fields in H. cbv zeta in H.
  destruct H as (Hscore & Hlevel & Hflags & _).
  rewrite calculateRiskScore_without_match in Hscore by exact E.
  split; [now rewrite Hn, Enone|]. split; [exact Hscore|].
  split; [now rewrite Hlevel, Hscore|].
  split; [rewrite Hflags; now apply redFlags_nil|].
  rewrite Hcat. now apply categories_nil.
Qed.

Lemma short_text_is_not_analyzed_witness :
  exists r : AnalysisResult.t,
    (length (lit "binding arbitration") <= 20)%nat /\
    @analyze basicLatin constructor (lit "binding arbitration") Options.empty
      = Some r /\
    AnalysisResult.clauses_analyzed r = O /\
    AnalysisResult.risk_score r = 0 /\
    AnalysisResult.risk_level r = LOW /\
    AnalysisResult.red_flags r = [] /\
    AnalysisResult.categories r = [].
Proof.
  eexists. split; [vm_compute; lia|]. split.
  - vm_compute. reflexivity.
  - apply (@short_text_is_not_analyzed basicLatin constructor
             (lit "binding arbitration") Options.empty).
    + vm_compute. lia.
    + vm_compute. reflexivity.
Defined.

(* ================================================================== *)
(** * The benchmark: when a page is called worse *)

(** The two neighbouring numbers around [average * 1.005]: the percentage
    of the lower one is not positive, that of the upper one is. *)
Lemma worse_threshold (bucket : BenchmarkKey) :
  let average := Benchmark.average_risk_score (setupBenchmarks bucket) in
  let percentage :=
    fun score => Math_round (((score - average) / average) * 100) in
  exists (m : positive) (e : Z),
    Binary64.canonical m e /\ Binary64.canonical (m + 1) e /\
    (Binary64.F2Q (Zpos m) e < Number.R average * (201 # 200))%Q /\
    (Number.R average * (201 # 200) <= Binary64.F2Q (Zpos (m + 1)) e)%Q /\
    (0 <? percentage (SF2Prim (S754_finite false m e))) = false /\
    (0 <? percentage (SF2Prim (S754_finite false (m + 1) e))) = true.
Proof.
  cbv zeta.
  destruct bucket;
    [exists 4596838213405900%positive, (-46)%Z
    |exists 6364852910869708%positive, (-47)%Z
    |exists 7779264668840755%positive, (-47)%Z
    |exists 7072058789855231%positive, (-47)%Z];
    (split; [unfold Binary64.canonical; lia|]);
    (split; [unfold Binary64.canonical; cbn [Pos.add Pos.succ]; lia|]);
    (split; [vm_compute; reflexivity|]);
    (split; [vm_compute; discriminate|]);
    split; vm_compute; reflexivity.
Qed.

Lemma percentage_range (bucket : BenchmarkKey) :
  let average := Benchmark.average_risk_score (setupBenchmarks bucket) in
  let percentage :=
    fun score => Math_round (((score - average) / average) * 100) in
  percentage 0 = (-100) /\ percentage (-0) = (-100) /\
  (percentage 100 <=? 122) = true.
Proof. destruct bucket; repeat split; reflexivity. Qed.

(** X15. The benchmark of the constructed engine calls a page [worse]
    exactly when its score is at least 0.5 percent above the average of
    its bucket: a score equal to the average, or above it by less, is
    called [better].  For a score between 0 and 100 the percentage lies
    between -100 and 122, and it is -100 for the score 0. *)
Theorem benchmark_worse_threshold :
  forall (platform : Platform) (url : option jsstring) (riskScore : float)
         (b : BenchmarkResult.t),
    generateBenchmark constructor url riskScore = Some b ->
    (Number.isFinite riskScore = true ->
     (BenchmarkResult.comparison b = worse
      <-> (Number.R (BenchmarkResult.average_score b) * (201 # 200)
           <= Number.R riskScore)%Q)) /\
    ((0 <=? riskScore) = true -> (riskScore <=? 100) = true ->
     (-100 <=? BenchmarkResult.percentage b) = true /\
     (BenchmarkResult.percentage b <=? 122) = true) /\
    ((riskScore =? 0) = true ->
     BenchmarkResult.percentage b = (-100) /\
     BenchmarkResult.comparison b = better).
Proof.
  intros platform url riskScore b H. unfold generateBenchmark in H.
  destruct (domainOf url) as [domain|]; [|discriminate].
  injection H as <-. cbv zeta.
  cbn [BenchmarkResult.comparison BenchmarkResult.average_score
       BenchmarkResult.percentage benchmarks constructor].
  destruct (average_is_positive (benchmarkCategory domain))
    as (F & P & _). cbv zeta in F, P.
  destruct (worse_threshold (benchmarkCategory domain))
    as (m & e & C & C1 & Lo & Hi & Pl & Pt). cbv zeta in Lo, Hi, Pl, Pt.
  destruct (percentage_range (benchmarkCategory domain))
    as (P0 & Pn & P100). cbv zeta in P0, Pn, P100.
  set (average := Benchmark.average_risk_score
                    (setupBenchmarks (benchmarkCategory domain))) in *.
  set (percentage :=
         fun score => Math_round (((score - average) / average) * 100)).
  change (Math_round (((riskScore - average) / average) * 100))
    with (percentage riskScore).
  fold (percentage (SF2Prim (S754_finite false m e))) in Pl.
  fold (percentage (SF2Prim (S754_finite false (m + 1) e))) in Pt.
  fold (percentage 0) in P0. fold (percentage (-0)) in Pn.
  fold (percentage 100) in P100.
  assert (Mono : forall x y, (x <=? y) = true ->
                             (percentage x <=? percentage y) = true).
  { intros x y Hxy. now apply percentage_monotone. }
  split; [|split].
  - intros Fs. pose proof (NumberFacts.finite_not_nan _ Fs) as Ns.
    destruct (MathFacts.R_SF2Prim false C) as [Fl El].
    destruct (MathFacts.R_SF2Prim false C1) as [Ft Et].
    cbn [Binary64.SF2Q cond_Zopp] in El, Et.
    destruct (@MathFacts.adjacent m e riskScore C C1 Fs) as [Below|Above].
    + assert (Hle : (riskScore <=? SF2Prim (S754_finite false m e)) = true).
      { apply (NumberFacts.leb_R _ _ Ns (NumberFacts.finite_not_nan _ Fl)).
        now rewrite El. }
      apply Mono in Hle.
      destruct (0 <? percentage riskScore) eqn:E.
      * pose proof (MathFacts.ltb_leb_trans E Hle) as A. congruence.
      * split; [discriminate|]. intros Hge. exfalso. lra.
    + assert (Hle : (SF2Prim (S754_finite false (m + 1) e) <=? riskScore)
                    = true).
      { apply (NumberFacts.leb_R _ _ (NumberFacts.finite_not_nan _ Ft) Ns).
        now rewrite Et. }
      apply Mono in Hle.
      rewrite (MathFacts.ltb_leb_trans Pt Hle).
      split; [intros _; lra|reflexivity].
  - intros H0 H100. apply Mono in H0. apply Mono in H100.
    rewrite P0 in H0. split; [exact H0|].
    eapply MathFacts.leb_trans; eassumption.
  - intros Hz. apply MathFacts.zero_cases in Hz.
    destruct Hz as [-> | ->]; [rewrite P0|rewrite Pn]; split; reflexivity.
Qed.

Lemma benchmark_worse_threshold_witness :
  exists b : BenchmarkResult.t,
    @generateBenchmark basicLatin constructor None 50.2 = Some b /\
    Number.isFinite 50.2 = true /\
    (0 <=? 50.2) = true /\ (50.2 <=? 100) = true /\
    (BenchmarkResult.comparison b = worse
     <-> (Number.R (BenchmarkResult.average_score b) * (201 # 200)
          <= Number.R 50.2)%Q) /\
    ((-100 <=? BenchmarkResult.percentage b) = true /\
     (BenchmarkResult.percentage b <=? 122) = true).
Proof.
  destruct (@benchmark_worse_threshold basicLatin None 50.2
              {| BenchmarkResult.category := lit "Technology Companies";
                 BenchmarkResult.percentage := 0;
                 BenchmarkResult.average_score := 50;
                 BenchmarkResult.comparison := better |})
    as (Hworse & Hrange & _).
  { vm_compute. reflexivity. }
  eexists. split; [vm_compute; reflexivity|].
  split; [reflexivity|]. split; [reflexivity|]. split; [reflexivity|].
  split.
  - apply Hworse. reflexivity.
  - apply Hrange; reflexivity.
Defined.

(* ================================================================== *)
(** * Keywords as patterns *)

Lemma class_replace_string (items : list ClassAtom) (rep : jsstring)
      (fuel : nat) :
  forall s,
    (length s < fuel)%nat ->
    replace_go (RClass items) rep fuel s
    = flat_map (fun c => if existsb (classAtomMatches false c) items
                         then rep else [c]) s.
Proof.
  induction fuel as [|fuel IH]; intros s Hlen; [lia|].
  destruct s as [|c s]; [reflexivity|].
  simpl in Hlen. cbn [replace_go]. unfold matchAt. cbn [matches flat_map].
  destruct (existsb (classAtomMatches false c) items).
  - replace (length s <? length (c :: s))%nat with true
      by (symmetry; apply Nat.ltb_lt; simpl; lia).
    rewrite IH by lia. reflexivity.
  - rewrite IH by lia. reflexivity.
Qed.

Lemma keywordSource_eq (keyword : jsstring) :
  keywordSource keyword
  = flat_map (fun c => if isHyphenOrSpace c then lit "[-\s]" else [c])
             keyword.
Proof.
  unfold keywordSource, replaceAll. rewrite class_replace_string by lia.
  apply flat_map_ext. intros c. unfold isHyphenOrSpace.
  cbn [existsb classAtomMatches canonicalize].
  rewrite (N.eqb_sym 45 c), orb_false_r. reflexivity.
Qed.

Lemma plain_character (c : N) :
  isSyntaxCharacter c = false ->
  (c =? 91)%N = false /\ (c =? 92)%N = false /\ (c =? 93)%N = false.
Proof.
  unfold isSyntaxCharacter. intros H.
  assert (Hall : forall d, In d (lit "^$\.*+?()[]{}|") -> (c =? d)%N = false).
  { intros d Hd. destruct (c =? d)%N eqn:E; [|reflexivity].
    assert (Hex : existsb (N.eqb c) (lit "^$\.*+?()[]{}|") = true).
    { apply existsb_exists. exists d. split; assumption. }
    congruence. }
  repeat split; apply Hall; vm_compute; tauto.
Qed.

Lemma read_keyword (keyword : jsstring) :
  forallb (fun c => negb (isSyntaxCharacter c)) keyword = true ->
  forall acc,
    read Top acc
         (flat_map (fun c => if isHyphenOrSpace c then lit "[-\s]" else [c])
                   keyword)
    = Some (rev acc ++ map keywordAtom keyword).
Proof.
  induction keyword as [|c keyword IH]; intros Hplain acc.
  - simpl. now rewrite app_nil_r.
  - cbn [forallb] in Hplain. apply andb_true_iff in Hplain.
    destruct Hplain as [Hc Hrest]. apply negb_true_iff in Hc.
    cbn [flat_map map]. unfold keywordAtom at 1.
    destruct (isHyphenOrSpace c).
    + change (lit "[-\s]") with [91; 45; 92; 115; 93]%N.
      cbn [app]. cbn [read N.eqb Pos.eqb rev app classRanges].
      rewrite (IH Hrest). cbn [rev]. now rewrite <- app_assoc.
    + destruct (plain_character _ Hc) as (H91 & H92 & H93).
      cbn [app read]. rewrite H91, H92, H93, Hc.
      rewrite (IH Hrest). cbn [rev]. now rewrite <- app_assoc.
Qed.

Lemma upperAscii_hyphen (x : N) : (45 =? upperAscii x)%N = (x =? 45)%N.
Proof.
  unfold upperAscii.
  destruct ((97 <=? x) && (x <=? 122))%N eqn:E.
  - apply andb_true_iff in E. destruct E as [E1 E2].
    apply N.leb_le in E1, E2.
    destruct (N.eqb_spec 45 (x - 32)), (N.eqb_spec x 45); try reflexivity; lia.
  - apply N.eqb_sym.
Qed.

Lemma matches_keyword (keyword : jsstring) :
  forall s,
    matches true (fold_right RSeq REmpty (map keywordAtom keyword)) s
    = if keywordPrefix keyword s then [skipn (length keyword) s] else [].
Proof.
  induction keyword as [|c keyword IH]; intros s; [reflexivity|].
  cbn [map fold_right matches keywordPrefix length].
  destruct s as [|x s].
  - unfold keywordAtom. destruct (isHyphenOrSpace c); reflexivity.
  - cbn [skipn]. unfold keywordAtom, agrees.
    destruct (isHyphenOrSpace c); cbn [matches].
    + cbn [existsb classAtomMatches canonicalize].
      rewrite upperAscii_hyphen, orb_false_r.
      fold (isHyphenOrSpace x).
      destruct (isHyphenOrSpace x); cbn [flat_map andb]; [|reflexivity].
      rewrite IH, app_nil_r. reflexivity.
    + cbn [canonicalize].
      destruct (upperAscii c =? upperAscii x)%N; cbn [flat_map andb];
        [|reflexivity].
      rewrite IH, app_nil_r. reflexivity.
Qed.

Lemma test_keyword (keyword s : jsstring) :
  test true (fold_right RSeq REmpty (map keywordAtom keyword)) s
  = keywordOccurs keyword s.
Proof.
  induction s as [|x s IH]; cbn [test keywordOccurs]; unfold matchAt;
    rewrite matches_keyword.
  - destruct (keywordPrefix keyword []); reflexivity.
  - destruct (keywordPrefix keyword (x :: s)); [reflexivity|exact IH].
Qed.

(** X16. A keyword without pattern syntax is searched as a substring of
    the lower-cased clause, ignoring the case of Basic Latin letters, a
    hyphen or white space of the keyword standing for a hyphen or any
    white space of the clause. *)
Theorem plain_keyword_is_substring_search :
  forall keyword s : jsstring,
    forallb (fun c => negb (isSyntaxCharacter c)) keyword = true ->
    RegExp_new (keywordSource keyword)
    = Some (fold_right RSeq REmpty (map keywordAtom keyword)) /\
    keywordTest keyword s = keywordOccurs keyword s.
Proof.
  intros keyword s Hplain.
  assert (E : RegExp_new (keywordSource keyword)
              = Some (fold_right RSeq REmpty (map keywordAtom keyword))).
  { unfold RegExp_new. rewrite keywordSource_eq.
    rewrite (read_keyword _ Hplain []). reflexivity. }
  split; [exact E|].
  unfold keywordTest. rewrite E. apply test_keyword.
Qed.

Lemma plain_keyword_is_substring_search_witness :
  forallb (fun c => negb (isSyntaxCharacter c)) (lit "data brokers") = true /\
  RegExp_new (keywordSource (lit "data brokers"))
  = Some (fold_right RSeq REmpty (map keywordAtom (lit "data brokers"))) /\
  keywordTest (lit "data brokers") (lit "sold to DATA-brokers.")
  = keywordOccurs (lit "data brokers") (lit "sold to DATA-brokers.").
Proof.
  split; [reflexivity|].
  apply (@plain_keyword_is_substring_search (lit "data brokers")
           (lit "sold to DATA-brokers.")).
  reflexivity.
Defined.

(* ================================================================== *)
(** * Keywords written with a class *)

Lemma repeat1_requires (step : jsstring -> list jsstring)
      (P : jsstring -> Prop) :
  (forall s rest, In rest (step s) ->
                  exists pre, s = pre ++ rest /\ P pre) ->
  (forall a b, P a -> P (a ++ b)) ->
  forall fuel s rest,
    In rest (repeat1 step fuel s) -> exists pre, s = pre ++ rest /\ P pre.
Proof.
  intros Hstep Hmono. induction fuel as [|fuel IH]; intros s rest Hin;
    cbn [repeat1] in Hin; apply in_flat_map in Hin;
    destruct Hin as (s' & Hs' & Hin);
    destruct (Hstep _ _ Hs') as (pre & E & Hpre).
  - destruct Hin as [<-|[]]. eauto.
  - apply in_app_or in Hin. destruct Hin as [Hin|[<-|[]]]; [|eauto].
    destruct (length s' <? length s)%nat; [|destruct Hin].
    destruct (IH _ _ Hin) as (pre' & E' & _). exists (pre ++ pre').
    split; [|now apply Hmono].
    rewrite <- app_assoc, <- E'. exact E.
Qed.

Lemma matches_requires (ignoreCase : bool) (c : N) (r : RegExp) :
  requires c r = true ->
  forall s rest,
    In rest (matches ignoreCase r s) ->
    exists pre,
      s = pre ++ rest /\
      exists x, In x pre /\
                canonicalize ignoreCase c = canonicalize ignoreCase x.
Proof.
  induction r as [d|items|r IH|r1 IH1 r2 IH2|r1 IH1 r2 IH2|];
    intros Hreq s rest Hin; cbn [requires] in Hreq; cbn [matches] in Hin;
    try discriminate.
  - apply N.eqb_eq in Hreq. subst d.
    destruct s as [|x s]; [destruct Hin|].
    destruct (N.eqb_spec (canonicalize ignoreCase c) (canonicalize ignoreCase x))
      as [E|]; [|destruct Hin].
    destruct Hin as [<-|[]]. exists [x]. split; [reflexivity|].
    exists x. split; [now left|exact E].
  - apply (@repeat1_requires (matches ignoreCase r)
             (fun pre => exists x, In x pre /\
                canonicalize ignoreCase c = canonicalize ignoreCase x)
             (IH Hreq)) in Hin; [exact Hin|].
    intros a b (x & Hx & E). exists x. split; [|exact E].
    apply in_or_app. now left.
  - apply in_flat_map in Hin. destruct Hin as (mid & Hmid & Hin).
    apply orb_true_iff in Hreq. destruct Hreq as [Hreq|Hreq].
    + destruct (IH1 Hreq _ _ Hmid) as (pre & E & x & Hx & Ex).
      destruct (matches_suffix _ _ _ _ Hin) as [pre' E'].
      exists (pre ++ pre'). split.
      * rewrite <- app_assoc, <- E'. exact E.
      * exists x. split; [apply in_or_app; now left|exact Ex].
    + destruct (IH2 Hreq _ _ Hin) as (pre & E & x & Hx & Ex).
      destruct (matches_suffix _ _ _ _ Hmid) as [pre' E'].
      exists (pre' ++ pre). split.
      * rewrite <- app_assoc, <- E. exact E'.
      * exists x. split; [apply in_or_app; now right|exact Ex].
  - apply andb_true_iff in Hreq. destruct Hreq as [H1 H2].
    apply in_app_or in Hin. destruct Hin; eauto.
Qed.

Lemma test_requires (ignoreCase : bool) (c : N) (r : RegExp) (s : jsstring) :
  requires c r = true ->
  test ignoreCase r s = true ->
  exists x, In x s /\ canonicalize ignoreCase c = canonicalize ignoreCase x.
Proof.
  intros Hreq. induction s as [|y s IH]; cbn [test]; unfold matchAt.
  - destruct (matches ignoreCase r []) as [|rest l] eqn:E; [discriminate|].
    intros _.
    destruct (@matches_requires ignoreCase c r Hreq [] rest)
      as (pre & Epre & x & Hx & _); [rewrite E; now left|].
    destruct pre; [destruct Hx|discriminate].
  - destruct (matches ignoreCase r (y :: s)) as [|rest l] eqn:E.
    + intros H. destruct (IH H) as (x & Hx & Ex). exists x.
      split; [now right|exact Ex].
    + intros _.
      destruct (@matches_requires ignoreCase c r Hreq (y :: s) rest)
        as (pre & Epre & x & Hx & Ex); [rewrite E; now left|].
      exists x. split; [|exact Ex]. rewrite Epre. apply in_or_app. now left.
Qed.

Lemma upperAscii_bracket (x : N) : 93%N = upperAscii x -> x = 93%N.
Proof.
  unfold upperAscii.
  destruct ((97 <=? x) && (x <=? 122))%N eqn:E; [|congruence].
  apply andb_true_iff in E. destruct E as [E1 E2].
  apply N.leb_le in E1, E2. intros H. lia.
Qed.

(** X17. The five keywords of the catalog that are written with a class
    ([third[-\s]party advertisers], [cross[-\s]device tracking],
    [no class[-\s]action lawsuits], [cross[-\s]site tracking] and
    [as[-\s]is without warranty]) match only a text that contains a
    closing bracket: on a clause without one they never count. *)
Theorem keyword_with_class_needs_bracket :
  forall (key : CategoryKey) (keyword s : jsstring),
    In keyword (PatternSet.keywords (setupPatterns key)) ->
    existsb (N.eqb 91) keyword = true ->
    keywordTest keyword s = true ->
    In 93%N s.
Proof.
  intros key keyword s Hin Hbracket Htest.
  assert (Hreq : exists r, RegExp_new (keywordSource keyword) = Some r /\
                           requires 93 r = true).
  { destruct key; simpl in Hin;
      repeat (destruct Hin as [<-|Hin];
              [first [ discriminate Hbracket
                     | eexists; split; vm_compute; reflexivity ]|]);
      destruct Hin. }
  destruct Hreq as (r & Er & Hreq).
  unfold keywordTest in Htest. rewrite Er in Htest.
  destruct (test_requires _ _ _ _ Hreq Htest) as (x & Hx & E).
  cbn [canonicalize] in E. change (upperAscii 93) with 93%N in E.
  apply upperAscii_bracket in E. now subst x.
Qed.

Lemma keyword_with_class_needs_bracket_witness :
  In (lit "as[-s]is without warranty")
     (PatternSet.keywords (setupPatterns LIABILITY_LIMITATION)) /\
  existsb (N.eqb 91) (lit "as[-s]is without warranty") = true /\
  keywordTest (lit "as[-s]is without warranty")
              (lit "sold as-s]is without warranty") = true /\
  In 93%N (lit "sold as-s]is without warranty").
Proof.
  assert (H1 : In (lit "as[-s]is without warranty")
                  (PatternSet.keywords (setupPatterns LIABILITY_LIMITATION))).
  { simpl. tauto. }
  assert (H2 : existsb (N.eqb 91) (lit "as[-s]is without warranty") = true)
    by reflexivity.
  assert (H3 : keywordTest (lit "as[-s]is without warranty")
                           (lit "sold as-s]is without warranty") = true)
    by reflexivity.
  split; [exact H1|]. split; [exact H2|]. split; [exact H3|].
  exact (@keyword_with_class_needs_bracket LIABILITY_LIMITATION _ _ H1 H2 H3).
Defined.

(* ================================================================== *)
(** * The server in front of the engine *)

Lemma fold_left_ext (A B : Type) (f g : B -> A -> B) (l : list A) :
  (forall b x, f b x = g b x) ->
  forall b, fold_left f l b = fold_left g l b.
Proof.
  intros H. induction l as [|x l IH]; intros b; simpl; [reflexivity|].
  now rewrite H, IH.
Qed.

Lemma getUserAdjustedWeight_normalize (category : CategoryKey)
      (p : RequestPreferences.t) :
  getUserAdjustedWeight category (enginePreferences (normalizePreferences p))
  = getUserAdjustedWeight category (enginePreferences p).
Proof.
  unfold getUserAdjustedWeight, enginePreferences, normalizePreferences.
  cbn [UserPreferences.privacy_weight UserPreferences.legal_rights_weight
       UserPreferences.convenience_weight RequestPreferences.privacy_weight
       RequestPreferences.legal_rights_weight
       RequestPreferences.convenience_weight].
  destruct (RequestPreferences.privacy_weight p),
    (RequestPreferences.legal_rights_weight p),
    (RequestPreferences.convenience_weight p); reflexivity.
Qed.

Section ServerLemmas.
Context {platform : Platform}.

Lemma calculateRiskScore_same_weights (this : ConsentLensAIEngine)
      (clauseAnalyses : list Clause.t) (p1 p2 : UserPreferences.t) :
  (forall category,
      getUserAdjustedWeight category p1 = getUserAdjustedWeight category p2) ->
  calculateRiskScore this clauseAnalyses p1
  = calculateRiskScore this clauseAnalyses p2.
Proof.
  intros H. unfold calculateRiskScore.
  destruct (length clauseAnalyses =? 0)%nat; [reflexivity|].
  destruct (length (filter Clause.is_risky clauseAnalyses) =? 0)%nat;
    [reflexivity|].
  rewrite (@fold_left_ext _ _ _
             (fun totals clause =>
                fold_left
                  (fun '(totalWeightedScore, totalWeight) match_ =>
                     let categoryWeight :=
                       Category.weight
                         (categories this (Match.category match_)) in
                     let userWeight :=
                       getUserAdjustedWeight (Match.category match_) p2 in
                     let combinedWeight := categoryWeight * userWeight in
                     let weightedScore :=
                       Match.severity match_ * combinedWeight in
                     (totalWeightedScore + weightedScore,
                      totalWeight + combinedWeight))
                  (Clause.matches clause) totals)); [reflexivity|].
  intros totals clause. apply fold_left_ext.
  intros [a b] m. cbv zeta. now rewrite H.
Qed.

(** The options the server builds give the result the options of the body
    give: the defaults it fills in are the defaults of the engine. *)
Lemma analyze_normalized (this : ConsentLensAIEngine) (text : jsstring)
      (url language : option jsstring)
      (user_preferences : option RequestPreferences.t) :
  analyze this text
    {| Options.url := url;
       Options.language :=
         Some (match language with Some l => l | None => lit "en" end);
       Options.user_preferences :=
         Some (enginePreferences
                 (normalizePreferences
                    (match user_preferences with
                     | Some p => p
                     | None => RequestPreferences.empty
                     end))) |}
  = analyze this text (optionsOf url language user_preferences).
Proof.
  unfold analyze, optionsOf. cbv zeta.
  cbn [Options.url Options.language Options.user_preferences].
  rewrite (@calculateRiskScore_same_weights this _ _
             (match option_map enginePreferences user_preferences with
              | Some p => p
              | None => UserPreferences.empty
              end)).
  - destruct language; reflexivity.
  - intros category. rewrite getUserAdjustedWeight_normalize.
    destruct user_preferences; reflexivity.
Qed.

Lemma analyzeEach_spec (this : ConsentLensServer) (language : jsstring)
      (preferences : RequestPreferences.t) (texts : list BatchItem.t) :
  forall analyses,
    match analyzeEach this language preferences texts analyses with
    | Some results =>
        exists added,
          results = analyses ++ added /\
          Forall2
            (fun item analysis =>
               exists text,
                 BatchItem.text item = Some text /\
                 analyze (aiEngine this) text
                   {| Options.url := BatchItem.url item;
                      Options.language := Some language;
                      Options.user_preferences :=
                        Some (enginePreferences preferences) |}
                 = Some analysis)
            texts added
    | None =>
        exists item,
          In item texts /\
          match BatchItem.text item with
          | None => True
          | Some text =>
              analyze (aiEngine this) text
                {| Options.url := BatchItem.url item;
                   Options.language := Some language;
                   Options.user_preferences :=
                     Some (enginePreferences preferences) |}
              = None
          end
    end.
Proof.
  induction texts as [|item texts IH]; intros analyses; cbn [analyzeEach].
  - exists []. split; [now rewrite app_nil_r|constructor].
  - destruct (BatchItem.text item) as [text|] eqn:Et.
    + destruct (analyze (aiEngine this) text _) as [analysis|] eqn:Ea.
      * specialize (IH (analyses ++ [analysis])).
        destruct (analyzeEach this language preferences texts
                              (analyses ++ [analysis])) as [results|].
        -- destruct IH as (added & -> & Hall).
           exists (analysis :: added). split; [now rewrite <- app_assoc|].
           constructor; [|exact Hall]. exists text. split; [exact Et|exact Ea].
        -- destruct IH as (bad & Hin & Hbad). exists bad.
           split; [now right|exact Hbad].
      * exists item. split; [now left|]. rewrite Et. exact Ea.
    + exists item. split; [now left|]. now rewrite Et.
Qed.

End ServerLemmas.

(** X18. The analyze endpoint answers 400 exactly when the text is absent,
    not a string, or empty once trimmed, and 413 exactly when a usable
    text is longer than 50000 code units; only a usable text of at most
    50000 code units reaches the engine. *)
Theorem server_rejects_unusable_text :
  forall (platform : Platform) (this : ConsentLensServer)
         (outside : Outside.t) (body : AnalyzeBody.t),
    let response := analyzeLegalText this outside body in
    (statusOf response = 400%nat
     <-> AnalyzeBody.text body = None \/
         exists t, AnalyzeBody.text body = Some t /\ trim t = []) /\
    (statusOf response = 413%nat
     <-> exists t, AnalyzeBody.text body = Some t /\ trim t <> [] /\
                   (50000 < Z.of_nat (length t))%Z) /\
    (statusOf response = 200%nat \/ statusOf response = 500%nat
     <-> exists t, AnalyzeBody.text body = Some t /\ trim t <> [] /\
                   (Z.of_nat (length t) <= 50000)%Z).
Proof.
  intros platform this outside body response. subst response.
  unfold analyzeLegalText. cbv zeta.
  destruct (AnalyzeBody.text body) as [t|].
  2:{ cbn [statusOf]. split; [|split].
      - split; [auto|reflexivity].
      - split; [discriminate|]. intros (t & H & _). discriminate.
      - split; [intros [H|H]; discriminate|]. intros (t & H & _).
        discriminate. }
  assert (Hempty : (length t =? 0)%nat || (length (trim t) =? 0)%nat = true
                   <-> trim t = []).
  { rewrite orb_true_iff, !Nat.eqb_eq. split.
    - intros [H|H].
      + destruct t; [reflexivity|discriminate].
      + destruct (trim t); [reflexivity|discriminate].
    - intros ->. now right. }
  destruct ((length t =? 0)%nat || (length (trim t) =? 0)%nat) eqn:E.
  - assert (Ht : trim t = []) by now apply Hempty.
    cbn [statusOf]. split; [|split].
    + split; [intros _; right; eauto|reflexivity].
    + split; [discriminate|].
      intros (t' & H & Hne & _). injection H as <-. contradiction.
    + split; [intros [H|H]; discriminate|].
      intros (t' & H & Hne & _). injection H as <-. contradiction.
  - assert (Ht : trim t <> []).
    { intros H. apply Hempty in H. discriminate. }
    destruct (50000 <? Z.of_nat (length t))%Z eqn:El.
    + apply Z.ltb_lt in El. cbn [statusOf]. split; [|split].
      * split; [discriminate|].
        intros [H|(t' & H & Hnil)]; [discriminate|].
        injection H as <-. contradiction.
      * split; [intros _; exists t; auto|reflexivity].
      * split; [intros [H|H]; discriminate|].
        intros (t' & H & _ & Hle). injection H as <-. lia.
    + apply Z.ltb_ge in El.
      destruct (analyze (aiEngine this) t _); cbn [statusOf];
        (split; [|split]).
      all: try (split; [discriminate|]).
      all: try (intros [H|(t' & H & Hnil)]; [discriminate|];
                injection H as <-; contradiction).
      all: try (intros (t' & H & _ & Hlt); injection H as <-; lia).
      all: split; [intros _; exists t; auto|intros _; auto].
Qed.

(** X19. On a text it accepts, the analyze endpoint answers with the
    fields of the result the engine gives for the options of the body as
    they are: the defaults the server fills in ([language], the
    preferences) are the ones of the engine and change nothing.  Only the
    metadata is replaced.  When the engine throws, the answer is 500 with
    the fallback analysis. *)
Theorem server_answers_like_engine :
  forall (platform : Platform) (this : ConsentLensServer)
         (outside : Outside.t) (body : AnalyzeBody.t) (t : jsstring),
    AnalyzeBody.text body = Some t ->
    trim t <> [] ->
    (Z.of_nat (length t) <= 50000)%Z ->
    match analyze (aiEngine this) t
            (optionsOf (AnalyzeBody.url body) (AnalyzeBody.language body)
                       (AnalyzeBody.user_preferences body)) with
    | Some r =>
        exists a,
          analyzeLegalText this outside body = Analysis a /\
          AnalyzeResponse.risk_score a = AnalysisResult.risk_score r /\
          AnalyzeResponse.risk_level a = AnalysisResult.risk_level r /\
          AnalyzeResponse.red_flags a = AnalysisResult.red_flags r /\
          AnalyzeResponse.categories a = AnalysisResult.categories r /\
          AnalyzeResponse.benchmark a = AnalysisResult.benchmark r /\
          AnalyzeResponse.clauses_analyzed a
            = AnalysisResult.clauses_analyzed r /\
          AnalyzeResponse.confidence a = AnalysisResult.confidence r /\
          ResponseMetadata.text_length (AnalyzeResponse.metadata a)
            = length t /\
          ResponseMetadata.language (AnalyzeResponse.metadata a)
            = Metadata.language (AnalysisResult.metadata r)
    | None =>
        analyzeLegalText this outside body
        = Failure 500
            {| ErrorBody.error := lit "Analysis failed";
               ErrorBody.message := Outside.errorMessage outside;
               ErrorBody.fallback := Some getFallbackAnalysis |}
    end.
Proof.
  intros platform this outside body t Ht Hne Hlen.
  unfold analyzeLegalText. cbv zeta. rewrite Ht.
  replace ((length t =? 0)%nat || (length (trim t) =? 0)%nat) with false.
  2:{ symmetry. apply orb_false_iff. split; apply Nat.eqb_neq.
      - intros H. destruct t; [now elim Hne|discriminate].
      - intros H. destruct (trim t); [now elim Hne|discriminate]. }
  replace (50000 <? Z.of_nat (length t))%Z with false
    by (symmetry; now apply Z.ltb_ge).
  rewrite analyze_normalized.
  destruct (analyze (aiEngine this) t _) as [r|] eqn:Er; [|reflexivity].
  eexists. split; [reflexivity|]. cbn. repeat split.
  unfold analyze in Er. cbv zeta in Er.
  destruct (generateBenchmark _ _ _); [|discriminate].
  injection Er as <-. unfold optionsOf. cbn.
  destruct (AnalyzeBody.language body); reflexivity.
Qed.

Lemma server_answers_like_engine_witness :
  AnalyzeBody.text arbitration_body = Some arbitration_text /\
  trim arbitration_text <> [] /\
  (Z.of_nat (length arbitration_text) <= 50000)%Z /\
  match @analyze basicLatin (aiEngine new_ConsentLensServer) arbitration_text
          (optionsOf (AnalyzeBody.url arbitration_body)
                     (AnalyzeBody.language arbitration_body)
                     (AnalyzeBody.user_preferences arbitration_body)) with
  | Some r =>
      exists a,
        @analyzeLegalText basicLatin new_ConsentLensServer some_outside
                          arbitration_body = Analysis a /\
        AnalyzeResponse.risk_score a = AnalysisResult.risk_score r /\
        AnalyzeResponse.risk_level a = AnalysisResult.risk_level r /\
        AnalyzeResponse.red_flags a = AnalysisResult.red_flags r /\
        AnalyzeResponse.categories a = AnalysisResult.categories r /\
        AnalyzeResponse.benchmark a = AnalysisResult.benchmark r /\
        AnalyzeResponse.clauses_analyzed a
          = AnalysisResult.clauses_analyzed r /\
        AnalyzeResponse.confidence a = AnalysisResult.confidence r /\
        ResponseMetadata.text_length (AnalyzeResponse.metadata a)
          = length arbitration_text /\
        ResponseMetadata.language (AnalyzeResponse.metadata a)
          = Metadata.language (AnalysisResult.metadata r)
  | None =>
      @analyzeLegalText basicLatin new_ConsentLensServer some_outside
                        arbitration_body
      = Failure 500
          {| ErrorBody.error := lit "Analysis failed";
             ErrorBody.message := Outside.errorMessage some_outside;
             ErrorBody.fallback := Some getFallbackAnalysis |}
  end.
Proof.
  assert (H1 : AnalyzeBody.text arbitration_body = Some arbitration_text)
    by reflexivity.
  assert (H2 : trim arbitration_text <> []) by (vm_compute; discriminate).
  assert (H3 : (Z.of_nat (length arbitration_text) <= 50000)%Z)
    by (vm_compute; discriminate).
  split; [exact H1|]. split; [exact H2|]. split; [exact H3|].
  exact (@server_answers_like_engine basicLatin new_ConsentLensServer
           some_outside arbitration_body arbitration_text H1 H2 H3).
Defined.

(** X20. The batch endpoint answers 400 exactly when [texts] is not an
    array of 1 to 10 items.  Otherwise it answers either with one
    analysis per item, in the order of the items, each the result of the
    engine for the options of the body as they are, or, as soon as one
    call of the engine throws (an item without text, a URL that does not
    parse), with 500 for the whole batch and no analysis at all. *)
Theorem batch_is_all_or_nothing :
  forall (platform : Platform) (this : ConsentLensServer)
         (outside : Outside.t) (body : BatchBody.t),
    match analyzeBatch this outside body with
    | Analyses analyses metadata =>
        exists texts,
          BatchBody.texts body = Some texts /\
          (1 <= length texts <= 10)%nat /\
          BatchMetadata.batch_size metadata = length texts /\
          Forall2
            (fun item analysis =>
               exists text,
                 BatchItem.text item = Some text /\
                 analyze (aiEngine this) text
                   (optionsOf (BatchItem.url item) (BatchBody.language body)
                              (BatchBody.user_preferences body))
                 = Some analysis)
            texts analyses
    | Failure status error =>
        ErrorBody.fallback error = None /\
        ((status = 400%nat /\
          (BatchBody.texts body = None \/
           exists texts, BatchBody.texts body = Some texts /\
                         (length texts = 0 \/ 10 < length texts)%nat)) \/
         (status = 500%nat /\
          exists texts item,
            BatchBody.texts body = Some texts /\
            (1 <= length texts <= 10)%nat /\
            In item texts /\
            match BatchItem.text item with
            | None => True
            | Some text =>
                analyze (aiEngine this) text
                  (optionsOf (BatchItem.url item) (BatchBody.language body)
                             (BatchBody.user_preferences body))
                = None
            end))
    | Analysis _ => False
    end.
Proof.
  intros platform this outside body. unfold analyzeBatch. cbv zeta.
  destruct (BatchBody.texts body) as [texts|].
  2:{ split; [reflexivity|]. left. auto. }
  destruct ((length texts =? 0)%nat || (10 <? length texts)%nat) eqn:E.
  - split; [reflexivity|]. left. split; [reflexivity|]. right.
    exists texts. split; [reflexivity|].
    apply orb_true_iff in E. destruct E as [E|E].
    + left. now apply Nat.eqb_eq.
    + right. now apply Nat.ltb_lt.
  - apply orb_false_iff in E. destruct E as [E0 E10].
    apply Nat.eqb_neq in E0. apply Nat.ltb_ge in E10.
    pose proof (analyzeEach_spec this
                  (match BatchBody.language body with
                   | Some l => l | None => lit "en" end)
                  (normalizePreferences
                     (match BatchBody.user_preferences body with
                      | Some p => p | None => RequestPreferences.empty end))
                  texts []) as Hspec.
    destruct (analyzeEach this _ _ texts []) as [analyses|].
    + destruct Hspec as (added & -> & Hall). cbn [app].
      exists texts. split; [reflexivity|]. split; [lia|].
      split; [reflexivity|].
      eapply Forall2_impl; [|exact Hall].
      intros item analysis (text & Et & Ea). exists text.
      split; [exact Et|]. now rewrite <- analyze_normalized.
    + destruct Hspec as (item & Hin & Hbad).
      split; [reflexivity|]. right. split; [reflexivity|].
      exists texts, item. split; [reflexivity|]. split; [lia|].
      split; [exact Hin|].
      destruct (BatchItem.text item) as [text|]; [|exact I].
      now rewrite <- analyze_normalized.
Qed.

(** X21. The batch endpoint does not check its items as the analyze
    endpoint checks its text: a text that is empty once trimmed, or longer
    than 50000 code units, is refused by the analyze endpoint (400 or
    413) and analyzed when it comes as the item of a batch. *)
Theorem batch_skips_text_checks :
  forall (platform : Platform) (this : ConsentLensServer)
         (outside : Outside.t) (t : jsstring)
         (language : option jsstring)
         (user_preferences : option RequestPreferences.t),
    trim t = [] \/ (50000 < Z.of_nat (length t))%Z ->
    (statusOf
       (analyzeLegalText this outside
          {| AnalyzeBody.text := Some t;
             AnalyzeBody.url := None;
             AnalyzeBody.language := language;
             AnalyzeBody.user_preferences := user_preferences |})
     = 400%nat \/
     statusOf
       (analyzeLegalText this outside
          {| AnalyzeBody.text := Some t;
             AnalyzeBody.url := None;
             AnalyzeBody.language := language;
             AnalyzeBody.user_preferences := user_preferences |})
     = 413%nat) /\
    exists analysis metadata,
      analyzeBatch this outside
        {| BatchBody.texts :=
             Some [ {| BatchItem.text := Some t; BatchItem.url := None |} ];
           BatchBody.language := language;
           BatchBody.user_preferences := user_preferences |}
      = Analyses [analysis] metadata /\
      analyze (aiEngine this) t (optionsOf None language user_preferences)
      = Some analysis.
Proof.
  intros platform this outside t language user_preferences Hbad. split.
  - unfold analyzeLegalText. cbv zeta. cbn [AnalyzeBody.text].
    destruct ((length t =? 0)%nat || (length (trim t) =? 0)%nat) eqn:E;
      [left; reflexivity|].
    destruct Hbad as [Hnil|Hlong].
    + rewrite Hnil in E. simpl in E. rewrite orb_true_r in E. discriminate.
    + apply Z.ltb_lt in Hlong. rewrite Hlong. right. reflexivity.
  - unfold analyzeBatch. cbv zeta.
    cbn [BatchBody.texts BatchBody.language BatchBody.user_preferences
         length Nat.eqb Nat.ltb Nat.leb orb analyzeEach BatchItem.text
         BatchItem.url].
    rewrite analyze_normalized.
    destruct (@analyze_returns _ (aiEngine this) t
                (optionsOf None language user_preferences)) as [r Hr];
      [discriminate|].
    rewrite Hr. cbn [app]. eauto.
Qed.

Lemma batch_skips_text_checks_witness :
  (trim (lit "   ") = [] \/ (50000 < Z.of_nat (length (lit "   ")))%Z) /\
  (statusOf
     (@analyzeLegalText basicLatin new_ConsentLensServer some_outside
        {| AnalyzeBody.text := Some (lit "   ");
           AnalyzeBody.url := None;
           AnalyzeBody.language := None;
           AnalyzeBody.user_preferences := None |})
   = 400%nat \/
   statusOf
     (@analyzeLegalText basicLatin new_ConsentLensServer some_outside
        {| AnalyzeBody.text := Some (lit "   ");
           AnalyzeBody.url := None;
           AnalyzeBody.language := None;
           AnalyzeBody.user_preferences := None |})
   = 413%nat) /\
  exists analysis metadata,
    @analyzeBatch basicLatin new_ConsentLensServer some_outside
      {| BatchBody.texts :=
           Some [ {| BatchItem.text := Some (lit "   ");
                     BatchItem.url := None |} ];
         BatchBody.language := None;
         BatchBody.user_preferences := None |}
    = Analyses [analysis] metadata /\
    @analyze basicLatin (aiEngine new_ConsentLensServer) (lit "   ")
             (optionsOf None None None)
    = Some analysis.
Proof.
  assert (H : trim (lit "   ") = [] \/
              (50000 < Z.of_nat (length (lit "   ")))%Z)
    by (left; reflexivity).
  split; [exact H|].
  exact (@batch_skips_text_checks basicLatin new_ConsentLensServer
           some_outside (lit "   ") None None H).
Defined.
